(** * EventEmitter: listener registry and dispatch (index.js)

    A shallow embedding of [handleError] and of the [EventEmitter] class:
    the registry, listener expiry, the synchronous dispatcher [emit] and
    the promise reconciliation of [emit2].

    Conventions of the embedding.
    - Event names are strings.
    - A listener record [{callback, count}] is an object: it lives in a
      store ([heap]) and the arrays hold references to it, so the snapshot
      taken by [emit] shares the records (and their [count]) with the live
      array.
    - The live array of an event is the one stored in [_events] under that
      name; the class never replaces it once it is created ([events(map)]
      is not modelled), so a captured [listeners] variable and a later
      [_events.get(event)] denote the same array.
    - Finite numbers are rationals with exact arithmetic; [NaN] and the two
      infinities are separate values.
    - A computation returns [None] when the fuel given to listener calls is
      used up (re-entrant dispatch may not terminate), and otherwise the
      new state with a completion: a normal value or a thrown value.
    - Listeners act on the emitter through its methods; they do not write
      into the arrays handed to them ([this.results], the array returned by
      [listeners]).
    - An array among the values is an array of the caller's own. The live
      arrays themselves are handed out by [listeners(event)] and [events()]
      only, which clients are taken not to use: an array given to
      [addListener], [removeListener] or [emit] is therefore not one that
      the emitter changes while it walks it. [removeAllListeners(event)],
      which does hand the live array to [removeListener], is modelled as
      the source has it, on a copy.
    - [emit] also reports which records it called. The source has no such
      value: the list is a help in the proofs. What is stated about the
      calls of listeners is stated through the functions called
      ([dispatched]), or through what they print. *)

From Stdlib Require Import List String ZArith QArith Bool Arith Lia Permutation.
Import ListNotations.

Set Warnings "-register-all".
Close Scope Q_scope.
Open Scope string_scope.
Open Scope list_scope.
Open Scope nat_scope.

(** ** Numbers *)

Inductive number :=
| NaN
| PosInfinity
| NegInfinity
| Finite (q : Q).

Definition Qltb (x y : Q) : bool := negb (Qle_bool y x).

(** [a < b]; any comparison with [NaN] is false. *)
Definition lt (a b : number) : bool :=
  match a, b with
  | NaN, _ => false
  | _, NaN => false
  | _, NegInfinity => false
  | NegInfinity, _ => true
  | PosInfinity, _ => false
  | Finite _, PosInfinity => true
  | Finite x, Finite y => Qltb x y
  end.

Definition gt (a b : number) : bool := lt b a.

(** [a / d < 2 ^ k], for positive [a] and [d]. *)
Definition below_power (a d k : Z) : bool :=
  if (0 <=? k)%Z then (a <? d * 2 ^ k)%Z else (a * 2 ^ (- k) <? d)%Z.

(** The double nearest to the rational [x], ties to even, in lowest terms:
    the rounding that ends every arithmetic operation on numbers. The
    exponent [k] is that of the leading bit of [x], the significand [m] has
    53 bits, fewer below [2^-1022]. Magnitudes that round to an infinity
    do not arise from subtracting one from a double. *)
Definition to_double (x : Q) : Q :=
  let n := Qnum x in
  let d := Zpos (Qden x) in
  if (n =? 0)%Z then 0%Q
  else
    let a := Z.abs n in
    let k0 := (Z.log2 a - Z.log2 d)%Z in
    let k := if below_power a d k0 then (k0 - 1)%Z else k0 in
    let e := Z.max (k - 52) (-1074) in
    let num := if (0 <=? e)%Z then a else (a * 2 ^ (- e))%Z in
    let den := if (0 <=? e)%Z then (d * 2 ^ e)%Z else d in
    let q := (num / den)%Z in
    let r := (num mod den)%Z in
    let m := if (2 * r <? den)%Z then q
             else if (den <? 2 * r)%Z then (q + 1)%Z
             else if Z.even q then q else (q + 1)%Z in
    Qred (if (0 <=? e)%Z
          then inject_Z (Z.sgn n * m * 2 ^ e)
          else (Z.sgn n * m) # Z.to_pos (2 ^ (- e))).

Arguments to_double : simpl never.

(** [--x] on a number: the double nearest to [x - 1]. *)
Definition decr (a : number) : number :=
  match a with
  | Finite q => Finite (to_double (q - 1)%Q)
  | _ => a
  end.

Definition of_nat (n : nat) : number := Finite (inject_Z (Z.of_nat n)).

Definition one : number := Finite 1%Q.

(** A finite number with no fractional part. *)
Definition is_integer (a : number) : bool :=
  match a with
  | Finite q => (Qnum q mod Zpos (Qden q) =? 0)%Z
  | _ => false
  end.

(** ** Values *)

(** The messages of [EventEmitterError]; the names of the last four are
    those of the error taxonomy. *)
Inductive error_kind :=
| PossibleMemoryLeak  (* 'Possible memory leak detected: %s listeners added to %s' *)
| DuplicateEvent      (* 'Event #%s is already on the list: %s' *)
| InvalidArgument     (* 'Invalid count: %s' *)
| InvalidListener     (* 'Invalid function #%s: %s' *)
| InvalidRegistry     (* 'Invalid events object: %s' *)
| InvalidEventName.   (* 'Invalid event name: %s' *)

Inductive value :=
| VUndefined
| VNull
| VBool (b : bool)
| VNum (n : number)
| VStr (s : string)
| VFun (f : nat)                                  (* a function, by identity *)
| VListener (r : nat)                             (* a listener record, by reference *)
| VPromise (p : nat)                              (* a promise, by identity *)
| VOptions (count : option number) (prepend : bool)  (* {count, prepend} *)
| VArr (l : list value)
| VError (kind : error_kind) (args : list value)  (* EventEmitterError *)
| VTypeError.                                     (* calling a non-function *)

(** ** Arrays *)

Definition push {A} (l : list A) (x : A) : list A := l ++ [x].

Definition unshift {A} (l : list A) (x : A) : list A := x :: l.

(** [l.splice(index, 1)]. *)
Definition splice1 {A} (index : nat) (l : list A) : list A :=
  firstn index l ++ skipn (S index) l.

(** [l.indexOf(x)] on references; [None] stands for -1. *)
Fixpoint indexOf (l : list nat) (x : nat) : option nat :=
  match l with
  | [] => None
  | y :: l' => if y =? x then Some 0
               else match indexOf l' x with
                    | Some i => Some (S i)
                    | None => None
                    end
  end.

(** [l.findIndex(p)]; [None] stands for -1. *)
Fixpoint findIndex {A} (p : A -> bool) (l : list A) : option nat :=
  match l with
  | [] => None
  | y :: l' => if p y then Some 0
               else match findIndex p l' with
                    | Some i => Some (S i)
                    | None => None
                    end
  end.

Fixpoint includes (l : list string) (x : string) : bool :=
  match l with
  | [] => false
  | y :: l' => if String.eqb y x then true else includes l' x
  end.

(** [l[index] = v]: in range the slot is overwritten, out of range the
    array is extended and the slots in between are holes, which read as
    [undefined]. *)
Definition assign (l : list value) (index : nat) (v : value) : list value :=
  if index <? List.length l
  then firstn index l ++ v :: skipn (S index) l
  else l ++ repeat VUndefined (index - List.length l) ++ [v].

(** ** The emitter *)

Record listener := { callback : nat; count : number }.

Record EventEmitter := {
  heap : list listener;                    (* the listener records, by reference *)
  _events : list (string * list nat);      (* EventsMap, in insertion order *)
  _maxListeners : number;
  _validEvents : list string;
  _warnings : list string;
  warned : list value;                     (* what process.emitWarning received *)
  console : list string                    (* what the listeners printed *)
}.

(** Field initialisers of the class. *)
Definition fresh : EventEmitter :=
  {| heap := []; _events := []; _maxListeners := of_nat 10;
     _validEvents := []; _warnings := []; warned := []; console := [] |}.

Definition set_heap (st : EventEmitter) (h : list listener) : EventEmitter :=
  {| heap := h; _events := _events st; _maxListeners := _maxListeners st;
     _validEvents := _validEvents st; _warnings := _warnings st;
     warned := warned st; console := console st |}.

Definition set_events (st : EventEmitter) (m : list (string * list nat)) : EventEmitter :=
  {| heap := heap st; _events := m; _maxListeners := _maxListeners st;
     _validEvents := _validEvents st; _warnings := _warnings st;
     warned := warned st; console := console st |}.

Definition set_maxListeners (st : EventEmitter) (n : number) : EventEmitter :=
  {| heap := heap st; _events := _events st; _maxListeners := n;
     _validEvents := _validEvents st; _warnings := _warnings st;
     warned := warned st; console := console st |}.

Definition set_validEvents (st : EventEmitter) (l : list string) : EventEmitter :=
  {| heap := heap st; _events := _events st; _maxListeners := _maxListeners st;
     _validEvents := l; _warnings := _warnings st;
     warned := warned st; console := console st |}.

Definition warn (st : EventEmitter) (event : string) (w : value) : EventEmitter :=
  {| heap := heap st; _events := _events st; _maxListeners := _maxListeners st;
     _validEvents := _validEvents st; _warnings := push (_warnings st) event;
     warned := push (warned st) w; console := console st |}.

Definition print (st : EventEmitter) (s : string) : EventEmitter :=
  {| heap := heap st; _events := _events st; _maxListeners := _maxListeners st;
     _validEvents := _validEvents st; _warnings := _warnings st;
     warned := warned st; console := push (console st) s |}.

(** [map.get(event)]. *)
Fixpoint get (m : list (string * list nat)) (event : string) : option (list nat) :=
  match m with
  | [] => None
  | (k, l) :: m' => if String.eqb k event then Some l else get m' event
  end.

(** [map.set(event, l)], also used for an in-place change of the array
    stored under [event]: the key keeps its position, a new key goes last. *)
Fixpoint set (m : list (string * list nat)) (event : string) (l : list nat)
  : list (string * list nat) :=
  match m with
  | [] => [(event, l)]
  | (k, l0) :: m' => if String.eqb k event then (k, l) :: m'
                     else (k, l0) :: set m' event l
  end.

(** The current content of the live array of [event]. *)
Definition live (event : string) (st : EventEmitter) : list nat :=
  match get (_events st) event with
  | Some l => l
  | None => []
  end.

Definition set_live (st : EventEmitter) (event : string) (l : list nat) : EventEmitter :=
  set_events st (set (_events st) event l).

(** Dereference of a listener record. *)
Definition lookup (st : EventEmitter) (r : nat) : listener :=
  nth r (heap st) {| callback := 0; count := NaN |}.

Fixpoint update {A} (l : list A) (i : nat) (x : A) : list A :=
  match l, i with
  | [], _ => []
  | _ :: l', 0 => x :: l'
  | y :: l', S i' => y :: update l' i' x
  end.

Definition set_count (st : EventEmitter) (r : nat) (c : number) : EventEmitter :=
  set_heap st (update (heap st) r {| callback := callback (lookup st r); count := c |}).

(** ** Computations *)

Inductive completion (A : Type) :=
| Normal (a : A)
| Throw (e : value).
Arguments Normal {A} a.
Arguments Throw {A} e.

Definition M (A : Type) : Type := EventEmitter -> option (EventEmitter * completion A).

Definition ret {A} (a : A) : M A := fun st => Some (st, Normal a).

Definition throw {A} (e : value) : M A := fun st => Some (st, Throw e).

Definition bind {A B} (m : M A) (k : A -> M B) : M B :=
  fun st =>
    match m st with
    | None => None
    | Some (st', Normal a) => k a st'
    | Some (st', Throw e) => Some (st', Throw e)
    end.

Notation "x <- m ;; k" := (bind m (fun x => k))
  (at level 61, m at next level, right associativity).

Definition modify (f : EventEmitter -> EventEmitter) : M unit :=
  fun st => Some (f st, Normal tt).

(** What a listener sees as [this]: the [data] object of [emit] (the
    results so far and the arguments), or nothing for an error handler. *)
Inductive receiver :=
| ThisData (results args : list value)
| ThisUndefined.

(** The result of a dispatch: the state, the references of the records
    whose callback this very call invoked, in order (a ghost list, the
    source has no such value), and the completion. *)
Definition traced (A : Type) : Type :=
  EventEmitter -> option (EventEmitter * list nat * completion A).

Definition erase {A} (m : traced A) : M A :=
  fun st =>
    match m st with
    | None => None
    | Some (st', _, c) => Some (st', c)
    end.

(** ** Construction and configuration *)

(** The body of [events.forEach] in the constructor. *)
Fixpoint declare (events : list string) (index : nat) (valid : list string)
  : completion (list string) :=
  match events with
  | [] => Normal valid
  | event :: rest =>
      if includes valid event
      then Throw (VError DuplicateEvent [VNum (of_nat index); VStr event])
      else declare rest (S index) (push valid event)
  end.

(** [new EventEmitter(...events)]. *)
Definition constructor (events : list string) : completion EventEmitter :=
  match events with
  | [] => Normal fresh
  | _ => match declare events 0 ["newListener"; "removeListener"] with
         | Normal valid => Normal (set_validEvents fresh valid)
         | Throw e => Throw e
         end
  end.

(** [setMaxListeners(count)]; the returned [this] is the state itself. *)
Definition setMaxListeners (count : value) : M unit :=
  match count with
  | VNum n => if lt n one
              then throw (VError InvalidArgument [count])
              else modify (fun st => set_maxListeners st n)
  | _ => throw (VError InvalidArgument [count])
  end.

(** [listeners(event)]: the allow-list check, then the lazily created live
    array; the value returned here is its current content. *)
Definition listeners (event : string) : M (list nat) :=
  fun st =>
    if negb (Nat.eqb (List.length (_validEvents st)) 0)
       && negb (includes (_validEvents st) event)
    then Some (st, Throw (VError InvalidEventName [VStr event]))
    else match get (_events st) event with
         | Some l => Some (st, Normal l)
         | None => Some (set_live st event [], Normal [])
         end.

(** The first four lines of the loop body of [emit]:
    [if (--listener.count < 1)] the record leaves the live array of the
    event, if it is still there. *)
Definition expire (event : string) (r : nat) (st : EventEmitter) : EventEmitter :=
  let c := decr (count (lookup st r)) in
  let st1 := set_count st r c in
  if lt c one
  then match indexOf (live event st1) r with
       | Some index => set_live st1 event (splice1 index (live event st1))
       | None => st1
       end
  else st1.

(** [emit(event, args)] wraps a lone argument and turns a missing one into
    no argument. *)
Definition arguments (args : value) : list value :=
  match args with
  | VArr l => l
  | VUndefined => []
  | _ => [args]
  end.

(** [options?.count ?? Infinity] and [options?.prepend]. *)
Definition option_count (options : value) : number :=
  match options with
  | VOptions (Some c) _ => c
  | _ => PosInfinity
  end.

Definition option_prepend (options : value) : bool :=
  match options with
  | VOptions _ p => p
  | _ => false
  end.

(** [{...options, count: c}] of [on] and [once]. *)
Definition with_count (options : value) (c : number) : value :=
  VOptions (Some c) (option_prepend options).

(** The record pushed by [addListener]: a new object in the store, and its
    reference at one end of the live array. *)
Definition insert (event : string) (f : nat) (options : value) (st : EventEmitter)
  : EventEmitter :=
  let r := List.length (heap st) in
  let st1 := set_heap st (push (heap st) {| callback := f; count := option_count options |}) in
  set_live st1 event
    (if option_prepend options
     then unshift (live event st1) r
     else push (live event st1) r).

(** The warning of [addListener] once the loop over the batch is over. *)
Definition check_leak (event : string) (st : EventEmitter) : EventEmitter :=
  let n := List.length (live event st) in
  if gt (of_nat n) (_maxListeners st) && negb (includes (_warnings st) event)
  then warn st event (VError PossibleMemoryLeak [VNum (of_nat n); VStr event])
  else st.

(** ** The promise returned by [emit2] *)

Inductive settlement :=
| Resolve (v : value)
| Reject (e : value).

Inductive handle :=
| Pending
| Resolved (results : list value)
| Rejected (e : value).

(** A continuation attached by [emit2] with [then]: the promise it waits
    for and the index it closed over. *)
Record reaction := { promise : nat; index : nat }.

(** An [emit2] call after its synchronous part: the shared results array,
    the continuations that have not run yet in the order they were
    attached, the directive, and the state of the returned promise. *)
Record reconciliation := {
  results : list value;
  waiting : list reaction;
  onError : value;
  returned : handle
}.

(** What [emit2] hands back: the value of [emit] itself when it is falsy,
    or the promise. *)
Inductive emitted :=
| Direct (v : value)
| Async (a : reconciliation).

(** [for (index = n - 1; index >= 0; --index) if (results[index] instanceof Promise) ...] *)
Fixpoint attach (results : list value) (n : nat) : list reaction :=
  match n with
  | 0 => []
  | S index =>
      match nth index results VUndefined with
      | VPromise p => {| promise := p; index := index |} :: attach results index
      | _ => attach results index
      end
  end.

Definition falsy (v : value) : bool :=
  match v with
  | VUndefined | VNull | VBool false => true
  | VNum NaN => true
  | VNum (Finite q) => Qeq_bool q 0
  | VStr EmptyString => true
  | _ => false
  end.

(** [Promise.all(promises).then(() => results)]: rejected by the first
    continuation that fails, resolved once none is left to run. *)
Definition conclude (h : handle) (failed : option value) (rest : list reaction)
  (results : list value) : handle :=
  match h with
  | Pending =>
      match failed with
      | Some e => Rejected e
      | None => match rest with
                | [] => Resolved results
                | _ => Pending
                end
      end
  | _ => h
  end.

Definition first_failure (failed : option value) (e : value) : option value :=
  match failed with
  | Some _ => failed
  | None => Some e
  end.

(** ** Dispatch

    The methods are written over [call], the semantics of function calls:
    [call f this args] runs the function [f] with receiver [this] on
    [args]. It is instantiated below with the listeners' code. *)
Section Dispatch.

Variable call : nat -> receiver -> list value -> M value.

(** [f(...args)] for an arbitrary value [f]. *)
Definition invoke (f : value) (this : receiver) (args : list value) : M value :=
  match f with
  | VFun id => call id this args
  | _ => throw VTypeError
  end.

(** The local function [setval] of [handleError]. *)
Definition setval (results : list value) (index : option nat) (v : value)
  : list value :=
  match index with
  | None => push results v
  | Some i => assign results i v
  end.

(** The last statement of [handleError]. *)
Definition drop_slot (results : list value) (index : option nat) : list value :=
  match index with
  | Some i => splice1 i results
  | None => results
  end.

(** [handleError(results, error, onError, index)]; the array is mutated
    in place in the source, the new content is returned here. *)
Definition handleError (results : list value) (error onError : value)
  (index : option nat) : M (list value) :=
  match onError with
  | VUndefined => throw error
  | VBool false => ret (setval results index error)
  | VNull => ret (drop_slot results index)
  | _ =>
      retval <- invoke onError ThisUndefined [error];;
      match retval with
      | VUndefined => ret (drop_slot results index)
      | _ => ret (setval results index retval)
      end
  end.

(** The loop of [emit] over the snapshot. *)
Fixpoint emit_loop (snapshot : list nat) (event : string) (args : list value)
  (onError : value) (results : list value) (invoked : list nat)
  : traced (list value) :=
  fun st =>
    match snapshot with
    | [] => Some (st, invoked, Normal results)
    | r :: rest =>
        let st1 := expire event r st in
        match call (callback (lookup st1 r)) (ThisData results args) args st1 with
        | None => None
        | Some (st2, Normal v) =>
            emit_loop rest event args onError (push results v) (push invoked r) st2
        | Some (st2, Throw error) =>
            match handleError results error onError None st2 with
            | None => None
            | Some (st3, Normal results') =>
                emit_loop rest event args onError results' (push invoked r) st3
            | Some (st3, Throw e) => Some (st3, push invoked r, Throw e)
            end
        end
    end.

(** [emit(event, args, onError)] with the list of the records it called. *)
Definition emit_traced (event : string) (args onError : value) : traced value :=
  fun st =>
    match listeners event st with
    | None => None
    | Some (st0, Throw e) => Some (st0, [], Throw e)
    | Some (st0, Normal snapshot) =>
        match emit_loop snapshot event (arguments args) onError [] [] st0 with
        | None => None
        | Some (st', invoked, Normal results) => Some (st', invoked, Normal (VArr results))
        | Some (st', invoked, Throw e) => Some (st', invoked, Throw e)
        end
    end.

Definition emit (event : string) (args onError : value) : M value :=
  erase (emit_traced event args onError).

(** The body of [forEach] in [addListener], over the rest of the batch. *)
Fixpoint addListener_each (event : string) (batch : list value) (index : nat)
  (options : value) : M unit :=
  match batch with
  | [] => ret tt
  | VFun f :: rest =>
      _ <- emit "newListener" (VArr [VStr event; VFun f; options]) VUndefined;;
      _ <- modify (insert event f options);;
      addListener_each event rest (S index) options
  | v :: _ => throw (VError InvalidListener [VNum (of_nat index); v])
  end.

(** [listener instanceof Array ? listener : [listener]]; the array is one
    of the caller's own, which nobody changes during the walk. *)
Definition batch_of (listener : value) : list value :=
  match listener with
  | VArr l => l
  | _ => [listener]
  end.

(** [addListener(event, listener, options)]. *)
Definition addListener (event : string) (listener options : value) : M unit :=
  _ <- listeners event;;
  _ <- addListener_each event (batch_of listener) 0 options;;
  modify (check_leak event).

Definition on (event : string) (listener options : value) : M unit :=
  addListener event listener (with_count options PosInfinity).

Definition once (event : string) (listener options : value) : M unit :=
  addListener event listener (with_count options one).

(** The callback a batch entry of [removeListener] stands for. *)
Definition callback_of (st : EventEmitter) (v : value) : option nat :=
  match v with
  | VFun f => Some f
  | VListener r => Some (callback (lookup st r))
  | _ => None
  end.

(** The body of [forEach] in [removeListener], over the rest of the batch. *)
Fixpoint removeListener_each (event : string) (batch : list value) (index : nat)
  : M unit :=
  match batch with
  | [] => ret tt
  | v :: rest =>
      fun st =>
        match callback_of st v with
        | None => Some (st, Throw (VError InvalidListener [VNum (of_nat index); v]))
        | Some f =>
            match findIndex (fun x => callback (lookup st x) =? f) (live event st) with
            | Some pos =>
                (_ <- emit "removeListener" (VArr [VStr event; VFun f]) VUndefined;;
                 removeListener_each event rest (S index))
                  (set_live st event (splice1 pos (live event st)))
            | None => removeListener_each event rest (S index) st
            end
        end
  end.

(** [removeListener(event, listener)] for a callback, a record or an
    array of them. *)
Definition removeListener (event : string) (listener : value) : M unit :=
  _ <- listeners event;;
  removeListener_each event (batch_of listener) 0.

(** [off = this.removeListener]. *)
Definition off (event : string) (listener : value) : M unit :=
  removeListener event listener.

(** [removeAllListeners(event)] for a given event: [removeListener] is
    handed the live array itself and works on a copy of it. The call
    without an event, which walks the whole map, is
    [removeAllListeners_all] below. *)
Definition removeAllListeners (event : string) : M unit :=
  copy <- listeners event;;
  _ <- listeners event;;
  removeListener_each event (map VListener copy) 0.

(** The continuations of the promise [p] run when it settles, in the
    order they were attached; [kept] collects those of other promises. *)
Fixpoint react (p : nat) (s : settlement) (directive : value)
  (todo kept : list reaction) (results : list value) (failed : option value)
  : M (list value * list reaction * option value) :=
  match todo with
  | [] => ret (results, kept, failed)
  | w :: rest =>
      if promise w =? p
      then match s with
           | Resolve v =>
               react p s directive rest kept (assign results (index w) v) failed
           | Reject e =>
               fun st =>
                 match handleError results e directive (Some (index w)) st with
                 | None => None
                 | Some (st', Normal results') =>
                     react p s directive rest kept results' failed st'
                 | Some (st', Throw e') =>
                     react p s directive rest kept results (first_failure failed e') st'
                 end
           end
      else react p s directive rest (push kept w) results failed
  end.

(** The promise [p] settles. *)
Definition settle (p : nat) (s : settlement) (a : reconciliation)
  : M reconciliation :=
  out <- react p s (onError a) (waiting a) [] (results a) None;;
  let '(results', rest, failed) := out in
  ret {| results := results'; waiting := rest; onError := onError a;
         returned := conclude (returned a) failed rest results' |}.

(** The promises settle one after the other. *)
Fixpoint settle_all (schedule : list (nat * settlement)) (a : reconciliation)
  : M reconciliation :=
  match schedule with
  | [] => ret a
  | (p, s) :: rest => a' <- settle p s a;; settle_all rest a'
  end.

(** [emit2(event, args, onError)] up to its [return]. *)
Definition emit2 (event : string) (args directive : value) : M emitted :=
  v <- emit event args directive;;
  if falsy v then ret (Direct v)
  else
    let rs := match v with VArr l => l | _ => [] end in
    let ws := attach rs (List.length rs) in
    ret (Async {| results := rs; waiting := ws; onError := directive;
                  returned := conclude Pending None ws rs |}).

End Dispatch.

(** ** Removal from every event *)

(** The body of [this._events.forEach] in [removeAllListeners()], from the
    entry at position [i] on. [Map.forEach] visits the entries in insertion
    order, those added during the walk included, so the walk need not end;
    [fuel] bounds the number of entries visited. The array handed to
    [removeListener] is the one [listeners(event)] returns there, so
    [removeListener] works on a copy of it. *)
Fixpoint removeAll_walk (call : nat -> receiver -> list value -> M value)
  (fuel i : nat) : M unit :=
  fun st =>
    match fuel with
    | 0 => None
    | S fuel' =>
        match nth_error (_events st) i with
        | None => Some (st, Normal tt)
        | Some (event, l) =>
            if String.eqb event "removeListener"
            then removeAll_walk call fuel' (S i) st
            else (_ <- listeners event;;
                  _ <- removeListener_each call event (map VListener l) 0;;
                  removeAll_walk call fuel' (S i)) st
        end
    end.

(** [removeAllListeners()] without an event. *)
Definition removeAllListeners_all (call : nat -> receiver -> list value -> M value)
  (fuel : nat) : M unit :=
  _ <- removeAll_walk call fuel 0;;
  removeAllListeners call "removeListener".

(** ** Listener code

    The body of a function handed to the emitter: it calls methods of the
    emitter, sees how each call completed (so a [try]/[catch] around a call
    is expressible), prints, and ends by returning or throwing. The methods
    are [addListener] (and so [on] and [once], which are [addListener] with
    a count), [removeListener] (and so [off]), [removeAllListeners], with
    an event and without, [emit], [emit2] and [setMaxListeners]. Of
    [emit2] the code sees that a promise came back, not what it holds: the
    continuations run in a later job. The walk of [removeAllListeners()]
    comes with its bound. [listeners(event)] and [events(map)], which hand
    out or replace the objects of the registry, are not among the methods:
    what is proved of every [code] is proved of clients and listeners that
    keep to the methods listed. *)
Inductive code :=
| Return (v : value)
| Raise (e : value)
| Emit (event : string) (args directive : value) (k : completion value -> code)
| AddListener (event : string) (listener options : value) (k : completion unit -> code)
| RemoveListener (event : string) (listener : value) (k : completion unit -> code)
| RemoveAllListeners (event : string) (k : completion unit -> code)
| SetMaxListeners (n : value) (k : completion unit -> code)
| Log (s : string) (k : code)
| Emit2 (event : string) (args directive : value) (k : completion unit -> code)
| RemoveEveryListener (fuel : nat) (k : completion unit -> code).

(** The functions of a program: the body of function [f] called with
    receiver [this] on [args]. *)
Definition program : Type := nat -> receiver -> list value -> code.

Definition and_then {A} (m : M A) (k : completion A -> M value) : M value :=
  fun st =>
    match m st with
    | None => None
    | Some (st', c) => k c st'
    end.

Fixpoint run (call : nat -> receiver -> list value -> M value) (c : code) : M value :=
  match c with
  | Return v => ret v
  | Raise e => throw e
  | Emit event args directive k =>
      and_then (emit call event args directive) (fun r => run call (k r))
  | AddListener event listener options k =>
      and_then (addListener call event listener options) (fun r => run call (k r))
  | RemoveListener event listener k =>
      and_then (removeListener call event listener) (fun r => run call (k r))
  | RemoveAllListeners event k =>
      and_then (removeAllListeners call event) (fun r => run call (k r))
  | SetMaxListeners n k =>
      and_then (setMaxListeners n) (fun r => run call (k r))
  | Log s k =>
      fun st => run call k (print st s)
  | Emit2 event args directive k =>
      and_then (_ <- emit2 call event args directive;; ret tt)
               (fun r => run call (k r))
  | RemoveEveryListener fuel k =>
      and_then (removeAllListeners_all call fuel) (fun r => run call (k r))
  end.

(** Calls nested at most [fuel] deep. *)
Fixpoint call_in (p : program) (fuel : nat) (f : nat) (this : receiver)
  (args : list value) : M value :=
  match fuel with
  | 0 => fun _ => None
  | S n => run (call_in p n) (p f this args)
  end.

(** ** The calls of a dispatch *)

(** What the loop of [emit] does with the completion of a listener: a
    value is appended to the results, an error goes to [handleError]. *)
Definition kept (call : nat -> receiver -> list value -> M value) (onError : value)
  (results : list value) (out : completion value) : M (list value) :=
  match out with
  | Normal v => ret (push results v)
  | Throw error => handleError call results error onError None
  end.

(** The listeners of the records [rs] are called in turn, from the left:
    each one once the loop has counted its record down, in the state its
    predecessor and the error policy left, with the results so far as
    [this.results]. [outs] is how the calls completed, one entry for each
    record, no error being propagated; [results'] and [st'] are the results
    and the state after the last of them. *)
Fixpoint dispatched (call : nat -> receiver -> list value -> M value)
  (event : string) (args : list value) (onError : value) (rs : list nat)
  (results : list value) (st : EventEmitter) (outs : list (completion value))
  (results' : list value) (st' : EventEmitter) : Prop :=
  match rs, outs with
  | [], [] => results' = results /\ st' = st
  | r :: rs', out :: outs' =>
      exists st2 st3 results3,
        call (callback (lookup (expire event r st) r)) (ThisData results args) args
          (expire event r st)
        = Some (st2, out)
        /\ kept call onError results out st2 = Some (st3, Normal results3)
        /\ dispatched call event args onError rs' results3 st3 outs' results' st'
  | _, _ => False
  end.


(** ** Properties stated by the specification *)

(** A number that is at least one; [NaN] is not. *)
Definition at_least_one (n : number) : Prop :=
  match n with
  | PosInfinity => True
  | Finite q => (1 <= q)%Q
  | _ => False
  end.

(** The counts the interface description allows. *)
Definition positive_integer_or_unlimited (count : value) : Prop :=
  match count with
  | VNum PosInfinity => True
  | VNum n => is_integer n = true /\ lt (Finite 0%Q) n = true
  | _ => False
  end.

(** [l'] is [l] without its slot [i]: the slots before [i] stay, the later
    ones move one place down. *)
Definition slot_removed (i : nat) (l l' : list value) : Prop :=
  forall j, nth_error l' j = if j <? i then nth_error l j else nth_error l (S j).

(** [l'] is [l] with [v] in slot [i] and every other slot of [l] as it was. *)
Definition stored_at (i : nat) (v : value) (l l' : list value) : Prop :=
  nth_error l' i = Some v
  /\ (forall j, j <> i -> j < List.length l -> nth_error l' j = nth_error l j)
  /\ List.length l' = Nat.max (List.length l) (S i).

(** The slot is dropped: removed when there is an index, and nothing is
    appended otherwise. *)
Definition dropped (index : option nat) (l l' : list value) : Prop :=
  match index with
  | Some i => slot_removed i l l'
  | None => l' = l
  end.

(** The value is stored: at the index, or appended when there is none. *)
Definition stored (index : option nat) (v : value) (l l' : list value) : Prop :=
  match index with
  | Some i => stored_at i v l l'
  | None => l' = l ++ [v]
  end.

(** The allow-list lets [event] through: the check of [listeners] passes. *)
Definition allowed (event : string) (st : EventEmitter) : bool :=
  Nat.eqb (List.length (_validEvents st)) 0 || includes (_validEvents st) event.

(** The number of records of the live array of [event] whose callback is [f]. *)
Definition registrations (event : string) (f : nat) (st : EventEmitter) : nat :=
  List.length (filter (fun r => callback (lookup st r) =? f) (live event st)).

(** A client that registers the functions [fs] one after the other with [on]. *)
Fixpoint on_each (call : nat -> receiver -> list value -> M value)
  (event : string) (fs : list nat) (options : value) : M unit :=
  match fs with
  | [] => ret tt
  | f :: rest => _ <- on call event (VFun f) options;; on_each call event rest options
  end.

(** The state of the returned promise agrees with the continuations left:
    pending while some are waiting, resolved with the array once none is. *)
Definition coherent (a : reconciliation) : Prop :=
  match returned a with
  | Pending => waiting a <> []
  | Resolved rs => waiting a = [] /\ rs = results a
  | Rejected _ => True
  end.

Definition set_returned (a : reconciliation) (h : handle) : reconciliation :=
  {| results := results a; waiting := waiting a; onError := onError a;
     returned := h |}.

(** ** Scenarios *)

(** Two listeners that each return a promise of their own. *)
Definition two_promises : program :=
  fun f _ _ => Return (VPromise f).

(** Function 0 emits [message] again when it is called; function 1 prints
    a line and returns. *)
Definition reentrant : program :=
  fun f _ _ =>
    match f with
    | 0 => Emit "message" VUndefined VUndefined (fun _ => Return VUndefined)
    | _ => Log "one-time listener called" (Return VUndefined)
    end.

(** Function 0 removes the listener 1 of [message]; function 1 prints a
    line and returns. *)
Definition remover : program :=
  fun f _ _ =>
    match f with
    | 0 => RemoveListener "message" (VFun 1) (fun _ => Return VUndefined)
    | _ => Log "called" (Return VUndefined)
    end.



(** Function 0 throws; function 1 prints a line and returns. *)
Definition thrower : program :=
  fun f _ _ =>
    match f with
    | 0 => Raise (VStr "boom")
    | _ => Log "called" (Return VUndefined)
    end.

(** ** Invariants of the registry *)

Fixpoint nodupb (l : list nat) : bool :=
  match l with
  | [] => true
  | x :: l' => negb (existsb (Nat.eqb x) l') && nodupb l'
  end.

(** No live array holds a record twice, and every reference in a live
    array points into the store. *)
Definition well_formed (st : EventEmitter) : bool :=
  forallb (fun entry =>
             nodupb (snd entry)
             && forallb (fun r => r <? List.length (heap st)) (snd entry))
          (_events st).

Definition sound (st : EventEmitter) : Prop :=
  forall event,
    NoDup (live event st)
    /\ (forall r, In r (live event st) -> r < List.length (heap st)).

(** The count of the record [r] is below one. *)
Definition below_one (st : EventEmitter) (r : nat) : Prop :=
  lt (count (lookup st r)) one = true.

(** What any run of the methods does to the registry: records are only
    added to the store, a record keeps its callback, a count below one
    stays below one, and a record that is already in the store never
    enters a live array it is not in. *)
Definition evolves (st st' : EventEmitter) : Prop :=
  List.length (heap st) <= List.length (heap st')
  /\ (forall r, r < List.length (heap st) ->
                callback (lookup st' r) = callback (lookup st r))
  /\ (forall r, r < List.length (heap st) -> below_one st r -> below_one st' r)
  /\ (forall event r, r < List.length (heap st) ->
                      In r (live event st') -> In r (live event st))
  /\ (sound st -> sound st').

Definition preserves {A} (m : M A) : Prop :=
  forall st st' c, m st = Some (st', c) -> evolves st st'.

Definition preserves_traced {A} (m : traced A) : Prop :=
  forall st st' invoked c, m st = Some (st', invoked, c) -> evolves st st'.

(** An emitter on which [records] were registered for [event], in that
    order, none of them for [newListener]. *)
Definition registered (event : string) (records : list listener) : EventEmitter :=
  {| heap := records;
     _events := [(event, seq 0 (List.length records)); ("newListener", [])];
     _maxListeners := of_nat 10;
     _validEvents := []; _warnings := []; warned := []; console := [] |}.

Definition forever (f : nat) : listener := {| callback := f; count := PosInfinity |}.

(** ** Further properties of the code *)

(** The two names the constructor puts on every allow-list. *)
Definition reserved : list string := ["newListener"; "removeListener"].

(** The fields of the emitter other than the store and the registry are
    the same in both states. *)
Definition same_settings (st st' : EventEmitter) : Prop :=
  _maxListeners st' = _maxListeners st
  /\ _validEvents st' = _validEvents st
  /\ _warnings st' = _warnings st
  /\ warned st' = warned st
  /\ console st' = console st.

(** The records [addListener] makes for the functions [fs]. *)
Definition records_for (options : value) (fs : list nat) : list listener :=
  map (fun f => {| callback := f; count := option_count options |}) fs.

(** The live array once the references [new] have been added to [old] one
    by one, at the end or, with [prepend], at the front. *)
Definition placed (options : value) (old new : list nat) : list nat :=
  if option_prepend options then rev new ++ old else old ++ new.

Definition is_function (v : value) : bool :=
  match v with
  | VFun _ => true
  | _ => false
  end.

(** The warning [addListener] hands to [process.emitWarning]. *)
Definition leak_warning (n : nat) (event : string) : value :=
  VError PossibleMemoryLeak [VNum (of_nat n); VStr event].

(** The functions of [call] leave the store and the registry alone (they
    may print, or do anything else outside the emitter's listeners). *)
Definition quiet (call : nat -> receiver -> list value -> M value) : Prop :=
  forall f this args st st' c,
    call f this args st = Some (st', c) ->
    heap st' = heap st /\ _events st' = _events st.

(** The record [r] has invocations left after one more: its count, once
    decremented, is not below one. *)
Definition remaining (st : EventEmitter) (r : nat) : bool :=
  negb (lt (decr (count (lookup st r))) one).

(** The record [r] with its count decremented. *)
Definition decremented (st : EventEmitter) (r : nat) : listener :=
  {| callback := callback (lookup st r); count := decr (count (lookup st r)) |}.

(** The loop body of [emit] up to the call, for the records [rs] in turn. *)
Definition expire_all (event : string) (rs : list nat) (st : EventEmitter)
  : EventEmitter :=
  fold_left (fun s r => expire event r s) rs st.

(** [k] calls of [emit] in a row, as long as none throws, with the records
    they called. *)
Fixpoint emit_times (call : nat -> receiver -> list value -> M value)
  (event : string) (args directive : value) (k : nat) : traced unit :=
  fun st =>
    match k with
    | 0 => Some (st, [], Normal tt)
    | S k' =>
        match emit_traced call event args directive st with
        | None => None
        | Some (st1, invoked, Throw e) => Some (st1, invoked, Throw e)
        | Some (st1, invoked, Normal _) =>
            match emit_times call event args directive k' st1 with
            | None => None
            | Some (st2, invoked', c) => Some (st2, invoked ++ invoked', c)
            end
        end
    end.

(** [k] calls of [emit] in a row, as long as none throws. *)
Fixpoint emit_repeatedly (call : nat -> receiver -> list value -> M value)
  (event : string) (args directive : value) (k : nat) : M unit :=
  match k with
  | 0 => ret tt
  | S k' => _ <- emit call event args directive;;
            emit_repeatedly call event args directive k'
  end.

(** The functions of [call], the function [f0] being made to print [mark]
    before it does anything else: a way to see from outside how often [f0]
    runs. *)
Definition tallied (mark : string) (f0 : nat)
  (call : nat -> receiver -> list value -> M value)
  : nat -> receiver -> list value -> M value :=
  fun f this args st => call f this args (if f =? f0 then print st mark else st).

(** How often [mark] is on the console. *)
Definition marks (mark : string) (st : EventEmitter) : nat :=
  count_occ string_dec (console st) mark.

(** The functions of [call] never print [mark] themselves. *)
Definition unmarked (mark : string)
  (call : nat -> receiver -> list value -> M value) : Prop :=
  forall f this args st st' c,
    call f this args st = Some (st', c) -> marks mark st' = marks mark st.

(** A value of the results once the promises [settled] have been
    fulfilled, the promise [p] with [val p]. *)
Definition substituted (val : nat -> value) (settled : list nat) (v : value)
  : value :=
  match v with
  | VPromise p => if existsb (Nat.eqb p) settled then val p else v
  | _ => v
  end.

(** The settlement events that fulfil the promises [ps] in turn. *)
Definition fulfilments (val : nat -> value) (ps : list nat)
  : list (nat * settlement) :=
  map (fun p => (p, Resolve (val p))) ps.

(** The continuations of [emit2] over [rs] whose promise is not among
    [settled]. *)
Definition pending_on (rs : list value) (settled : list nat) : list reaction :=
  filter (fun w => negb (existsb (Nat.eqb (promise w)) settled))
         (attach rs (List.length rs)).

(** The [emit2] call over the results [rs] once the promises [settled]
    have been fulfilled. *)
Definition reconciled (rs : list value) (directive : value) (val : nat -> value)
  (settled : list nat) : reconciliation :=
  {| results := map (substituted val settled) rs;
     waiting := pending_on rs settled;
     onError := directive;
     returned := conclude Pending None (pending_on rs settled)
                   (map (substituted val settled) rs) |}.

(** The event a warning was issued for. *)
Definition warning_event (w : value) : option string :=
  match w with
  | VError PossibleMemoryLeak [_; VStr event] => Some event
  | _ => None
  end.

(** The warnings issued and the events remembered agree, and no event is
    remembered twice. *)
Definition tracked (st : EventEmitter) : Prop :=
  map warning_event (warned st) = map Some (_warnings st)
  /\ NoDup (_warnings st).

(** What any run of the methods keeps of the configuration: the
    allow-list is the same, the keys of the registry stay, in their order,
    with new ones behind them, and the warnings, the remembered events and
    the console only grow. *)
Definition keeps (st st' : EventEmitter) : Prop :=
  _validEvents st' = _validEvents st
  /\ (exists more, map fst (_events st') = map fst (_events st) ++ more)
  /\ (exists more, _warnings st' = _warnings st ++ more)
  /\ (exists more, warned st' = warned st ++ more)
  /\ (exists more, console st' = console st ++ more)
  /\ (tracked st -> tracked st').

Definition respects (R : EventEmitter -> EventEmitter -> Prop) {A} (m : M A)
  : Prop :=
  forall st st' c, m st = Some (st', c) -> R st st'.

(** A client that registers a printing listener for [message], emits the
    event and removes the listeners of the event again. *)
Definition session : code :=
  AddListener "message" (VFun 1) VUndefined
    (fun _ => Emit "message" VUndefined VUndefined
       (fun _ => RemoveAllListeners "message" (fun _ => Return VUndefined))).

(** A client that registers eleven listeners for [message] at once, one
    more than the default maximum, and then a twelfth. *)
Definition crowd : code :=
  AddListener "message" (VArr (map VFun (repeat 1 11))) VUndefined
    (fun _ => AddListener "message" (VFun 1) VUndefined
       (fun _ => Return VUndefined)).

(** A client that registers a printing listener for [message] and emits
    the event. *)
Definition rejoin : code :=
  AddListener "message" (VFun 1) VUndefined
    (fun _ => Emit "message" VUndefined VUndefined (fun _ => Return VUndefined)).

(** A client that removes the listener 1 of [message]. *)
Definition leave : code :=
  RemoveListener "message" (VFun 1) (fun _ => Return VUndefined).

(** An emitter with one listener, for [newListener], which prints a line. *)
Definition watched : EventEmitter :=
  {| heap := [forever 1];
     _events := [("newListener", [0])];
     _maxListeners := of_nat 10;
     _validEvents := []; _warnings := []; warned := []; console := [] |}.

(** What a settled promise leaves of its slot under the directives [null]
    and [false]: its value when it is fulfilled; when it is rejected,
    nothing under [null] and the error under [false]. Other values stay. *)
Definition slot_after (directive : value) (outcome : nat -> settlement) (v : value)
  : list value :=
  match v with
  | VPromise p =>
      match outcome p with
      | Resolve x => [x]
      | Reject e => match directive with
                    | VBool false => [e]
                    | _ => []
                    end
      end
  | _ => [v]
  end.

(** The promises of the continuations [ws] settle in the order of [ws]. *)
Definition settlements (outcome : nat -> settlement) (ws : list reaction)
  : list (nat * settlement) :=
  map (fun w => (promise w, outcome (promise w))) ws.

(** The keys of the registry, in the order [Map.forEach] visits them. *)
Definition keys (st : EventEmitter) : list string := map fst (_events st).

(** From [st] to [st'] the registry kept its keys, or got the one new key
    [event] behind them. *)
Definition grown_by (event : string) (st st' : EventEmitter) : Prop :=
  keys st' = keys st
  \/ (keys st' = keys st ++ [event] /\ ~ In event (keys st)).

(** An emitter with listeners for two events. *)
Definition two_events : EventEmitter :=
  {| heap := [forever 1; forever 1; forever 2];
     _events := [("message", [0; 1]); ("exit", [2])];
     _maxListeners := of_nat 10;
     _validEvents := []; _warnings := []; warned := []; console := [] |}.

(** * Proofs *)

Lemma includes_In (l : list string) (x : string) :
  includes l x = true <-> In x l.
Proof.
  induction l as [|y l IH]; simpl.
  - split; [discriminate | tauto].
  - destruct (String.eqb_spec y x) as [->|Hne].
    + split; auto.
    + rewrite IH. split; [auto | intros [H|H]; [congruence | exact H]].
Qed.

Lemma includes_not_In (l : list string) (x : string) :
  includes l x = false <-> ~ In x l.
Proof.
  rewrite <- includes_In. destruct (includes l x); split; congruence.
Qed.

Lemma Qltb_lt (x y : Q) : Qltb x y = true <-> (x < y)%Q.
Proof.
  unfold Qltb. rewrite negb_true_iff.
  split; intros H.
  - apply Qnot_le_lt. intros Hle. apply Qle_bool_iff in Hle. congruence.
  - destruct (Qle_bool y x) eqn:E; [|reflexivity].
    apply Qle_bool_iff in E. exfalso. exact (Qlt_not_le _ _ H E).
Qed.

Lemma Qltb_ge (x y : Q) : Qltb x y = false <-> (y <= x)%Q.
Proof.
  unfold Qltb. rewrite negb_false_iff. apply Qle_bool_iff.
Qed.

Lemma at_least_one_lt (n : number) : at_least_one n -> lt n one = false.
Proof.
  destruct n; simpl; try tauto. intros H. now apply Qltb_ge.
Qed.

(** ** Allow-list *)

Lemma declare_valid (events : list string) :
  forall index valid valid',
    declare events index valid = Normal valid' -> valid' = valid ++ events.
Proof.
  induction events as [|e events IH]; simpl; intros index valid valid' H.
  - inversion H. now rewrite app_nil_r.
  - destruct (includes valid e); [discriminate|].
    apply IH in H. subst. unfold push. now rewrite <- app_assoc.
Qed.

Lemma constructor_valid (events : list string) (st : EventEmitter) :
  events <> [] -> constructor events = Normal st ->
  _validEvents st = "newListener" :: "removeListener" :: events.
Proof.
  intros Hne H. destruct events as [|e events]; [congruence|].
  unfold constructor in H.
  destruct (declare (e :: events) 0 ["newListener"; "removeListener"]) as [valid|] eqn:E;
    [|discriminate].
  inversion H; subst. simpl. now apply declare_valid in E.
Qed.

Lemma listeners_rejects (event : string) (st : EventEmitter) :
  _validEvents st <> [] -> ~ In event (_validEvents st) ->
  listeners event st = Some (st, Throw (VError InvalidEventName [VStr event])).
Proof.
  intros Hne Hin. unfold listeners.
  apply includes_not_In in Hin. rewrite Hin.
  destruct (_validEvents st); [congruence|]. reflexivity.
Qed.

Lemma listeners_accepts (event : string) (st : EventEmitter) :
  In event (_validEvents st) ->
  listeners event st = Some (st, Normal (live event st))
  \/ listeners event st = Some (set_live st event [], Normal []).
Proof.
  intros Hin. unfold listeners, live.
  apply includes_In in Hin. rewrite Hin, andb_false_r.
  destruct (get (_events st) event); auto.
Qed.

(** ** Arrays *)

Lemma splice1_nil {A} (i : nat) : @splice1 A i [] = [].
Proof. unfold splice1. now rewrite firstn_nil, skipn_nil. Qed.

Lemma splice1_0 {A} (x : A) (l : list A) : splice1 0 (x :: l) = l.
Proof. reflexivity. Qed.

Lemma splice1_S {A} (i : nat) (x : A) (l : list A) :
  splice1 (S i) (x :: l) = x :: splice1 i l.
Proof. reflexivity. Qed.

Lemma splice1_removed (l : list value) :
  forall i, slot_removed i l (splice1 i l).
Proof.
  induction l as [|x l IH]; intros i j.
  - rewrite splice1_nil. destruct (j <? i); now destruct j.
  - destruct i as [|i].
    + rewrite splice1_0. reflexivity.
    + rewrite splice1_S. destruct j as [|j]; [reflexivity|].
      simpl nth_error at 1. rewrite IH.
      change (S j <? S i) with (j <? i). now destruct (j <? i).
Qed.

Lemma assign_in_range (l : list value) :
  forall i v, i < List.length l -> assign l i v = update l i v.
Proof.
  unfold assign. induction l as [|x l IH]; intros i v Hi; [simpl in Hi; lia|].
  destruct (Nat.ltb_spec i (List.length (x :: l))) as [_|H]; [|lia].
  destruct i as [|i]; [reflexivity|].
  simpl in Hi. specialize (IH i v ltac:(lia)).
  destruct (Nat.ltb_spec i (List.length l)) as [_|H]; [|lia].
  simpl. now rewrite <- IH.
Qed.

Lemma update_length {A} (l : list A) :
  forall i x, List.length (update l i x) = List.length l.
Proof.
  induction l as [|y l IH]; intros [|i] x; simpl; auto.
Qed.

Lemma update_same {A} (l : list A) :
  forall i x, i < List.length l -> nth_error (update l i x) i = Some x.
Proof.
  induction l as [|y l IH]; intros [|i] x Hi; simpl in *; try lia; auto.
  apply IH. lia.
Qed.

Lemma update_other {A} (l : list A) :
  forall i j x, j <> i -> nth_error (update l i x) j = nth_error l j.
Proof.
  induction l as [|y l IH]; intros [|i] [|j] x Hne; simpl; auto; try congruence.
Qed.

Lemma assign_stored (l : list value) (i : nat) (v : value) :
  stored_at i v l (assign l i v).
Proof.
  destruct (Nat.lt_ge_cases i (List.length l)) as [Hi|Hi].
  - rewrite (assign_in_range _ _ _ Hi). repeat split.
    + now apply update_same.
    + intros j Hne _. now apply update_other.
    + rewrite update_length. lia.
  - unfold assign. destruct (Nat.ltb_spec i (List.length l)) as [H|_]; [lia|].
    repeat split.
    + rewrite nth_error_app2 by lia.
      rewrite nth_error_app2 by (rewrite repeat_length; lia).
      rewrite repeat_length. now replace (i - _ - _) with 0 by lia.
    + intros j _ Hj. now rewrite nth_error_app1 by lia.
    + rewrite !length_app, repeat_length. simpl. lia.
Qed.

(** ** The registry *)

Lemma get_set_same (m : list (string * list nat)) (event : string) (l : list nat) :
  get (set m event l) event = Some l.
Proof.
  induction m as [|[k l0] m IH]; simpl.
  - now rewrite String.eqb_refl.
  - destruct (String.eqb_spec k event) as [->|Hne]; simpl.
    + now rewrite String.eqb_refl.
    + destruct (String.eqb_spec k event); [congruence | exact IH].
Qed.

Lemma get_set_other (m : list (string * list nat)) (event other : string)
  (l : list nat) :
  other <> event -> get (set m event l) other = get m other.
Proof.
  intros Hne. induction m as [|[k l0] m IH]; simpl.
  - destruct (String.eqb_spec event other); [congruence | reflexivity].
  - destruct (String.eqb_spec k event) as [->|Hk]; simpl.
    + destruct (String.eqb_spec event other); [congruence | reflexivity].
    + destruct (String.eqb_spec k other); [reflexivity | exact IH].
Qed.

Lemma live_set_live_same (st : EventEmitter) (event : string) (l : list nat) :
  live event (set_live st event l) = l.
Proof. unfold live, set_live. simpl. now rewrite get_set_same. Qed.

Lemma live_set_live_other (st : EventEmitter) (event other : string) (l : list nat) :
  other <> event -> live other (set_live st event l) = live other st.
Proof. intros H. unfold live, set_live. simpl. now rewrite get_set_other. Qed.

Lemma listeners_allowed (event : string) (st : EventEmitter) :
  allowed event st = true ->
  exists st0,
    listeners event st = Some (st0, Normal (live event st0))
    /\ live event st0 = live event st
    /\ heap st0 = heap st
    /\ _validEvents st0 = _validEvents st
    /\ (forall other, live other st0 = live other st).
Proof.
  unfold allowed, listeners, live. intros H.
  destruct (Nat.eqb (List.length (_validEvents st)) 0) eqn:E; simpl in *.
  - destruct (get (_events st) event) as [l|] eqn:G.
    + exists st. rewrite G. auto.
    + exists (set_live st event []). simpl. rewrite get_set_same. repeat split; auto.
      intros other. destruct (String.eqb_spec other event) as [->|Hne].
      * now rewrite get_set_same, G.
      * now rewrite get_set_other.
  - rewrite H. simpl.
    destruct (get (_events st) event) as [l|] eqn:G.
    + exists st. rewrite G. auto.
    + exists (set_live st event []). simpl. rewrite get_set_same. repeat split; auto.
      intros other. destruct (String.eqb_spec other event) as [->|Hne].
      * now rewrite get_set_same, G.
      * now rewrite get_set_other.
Qed.

Lemma listeners_live (event : string) (st st0 : EventEmitter) (l : list nat) :
  listeners event st = Some (st0, Normal l) ->
  l = live event st0 /\ allowed event st = true.
Proof.
  unfold listeners, allowed, live.
  destruct (Nat.eqb (List.length (_validEvents st)) 0); simpl.
  - destruct (get (_events st) event) as [l0|] eqn:G; intros H; inversion H; subst.
    + now rewrite G.
    + simpl. now rewrite get_set_same.
  - destruct (includes (_validEvents st) event); simpl; [|discriminate].
    destruct (get (_events st) event) as [l0|] eqn:G; intros H; inversion H; subst.
    + now rewrite G.
    + simpl. now rewrite get_set_same.
Qed.

Lemma findIndex_none {A} (p : A -> bool) (l : list A) :
  (forall x, In x l -> p x = false) -> findIndex p l = None.
Proof.
  induction l as [|y l IH]; simpl; intros H; [reflexivity|].
  rewrite (H y) by auto. rewrite IH; auto.
Qed.

Lemma findIndex_first {A} (p : A -> bool) (before after : list A) (x : A) :
  (forall y, In y before -> p y = false) -> p x = true ->
  findIndex p (before ++ x :: after) = Some (List.length before).
Proof.
  induction before as [|y before IH]; simpl; intros H Hx.
  - now rewrite Hx.
  - rewrite (H y) by auto. rewrite IH; auto.
Qed.

Lemma splice1_middle {A} (before after : list A) (x : A) :
  splice1 (List.length before) (before ++ x :: after) = before ++ after.
Proof.
  induction before as [|y before IH]; simpl.
  - reflexivity.
  - rewrite splice1_S. now rewrite IH.
Qed.

(** ** How the registry evolves *)

Lemma nodupb_NoDup (l : list nat) : nodupb l = true -> NoDup l.
Proof.
  induction l as [|x l IH]; simpl; intros H; constructor.
  - apply andb_prop in H. destruct H as [H _]. apply negb_true_iff in H.
    intros Hin. assert (existsb (Nat.eqb x) l = true); [|congruence].
    apply existsb_exists. exists x. split; [exact Hin | apply Nat.eqb_refl].
  - apply IH. apply andb_prop in H. tauto.
Qed.

Lemma well_formed_sound (st : EventEmitter) : well_formed st = true -> sound st.
Proof.
  unfold well_formed, sound, live. intros H event.
  rewrite forallb_forall in H.
  destruct (get (_events st) event) as [l|] eqn:G.
  - assert (Hin : In (event, l) (_events st)).
    { clear H. induction (_events st) as [|[k l0] m IH]; simpl in *; [discriminate|].
      destruct (String.eqb_spec k event) as [->|_].
      - inversion G; subst. now left.
      - right. auto. }
    apply H in Hin. simpl in Hin. apply andb_prop in Hin. destruct Hin as [Hn Hb].
    split; [now apply nodupb_NoDup|].
    intros r Hr. rewrite forallb_forall in Hb. apply Hb in Hr.
    now apply Nat.ltb_lt.
  - split; [constructor | intros r []].
Qed.

Ltac split_evolves := split; [|split; [|split; [|split]]].

Lemma evolves_refl (st : EventEmitter) : evolves st st.
Proof. split_evolves; auto. Qed.

Lemma evolves_trans (st1 st2 st3 : EventEmitter) :
  evolves st1 st2 -> evolves st2 st3 -> evolves st1 st3.
Proof.
  intros (Hl1 & Hc1 & Hb1 & Hi1 & Hs1) (Hl2 & Hc2 & Hb2 & Hi2 & Hs2).
  split_evolves.
  - lia.
  - intros r Hr. rewrite Hc2 by lia. auto.
  - intros r Hr Hb. apply Hb2; [lia|]. auto.
  - intros event r Hr Hin. apply Hi1; auto. apply Hi2; auto. lia.
  - auto.
Qed.

(** A step that leaves the store and the registry alone. *)
Lemma evolves_same (st st' : EventEmitter) :
  heap st' = heap st -> _events st' = _events st -> evolves st st'.
Proof.
  intros Hh He.
  assert (Hl : forall event, live event st' = live event st)
    by (intros; unfold live; now rewrite He).
  assert (Hk : forall r, lookup st' r = lookup st r)
    by (intros; unfold lookup; now rewrite Hh).
  split_evolves.
  - rewrite Hh. lia.
  - intros r _. now rewrite Hk.
  - intros r _. unfold below_one. now rewrite Hk.
  - intros ev r _ Hin. now rewrite Hl in Hin.
  - intros Hs ev. rewrite Hl, Hh. apply Hs.
Qed.

(** The live array of one event shrinks. *)
Lemma evolves_shrink (st : EventEmitter) (event : string) (l : list nat) :
  (forall r, In r l -> In r (live event st)) ->
  (NoDup (live event st) -> NoDup l) ->
  evolves st (set_live st event l).
Proof.
  intros Hsub Hnd.
  assert (Hl : forall other, other <> event ->
                             live other (set_live st event l) = live other st)
    by (intros; now apply live_set_live_other).
  split_evolves; auto.
  - intros ev r Hr Hin. destruct (String.eqb_spec ev event) as [->|Hne].
    + rewrite live_set_live_same in Hin. auto.
    + rewrite Hl in Hin; auto.
  - intros Hs ev. change (heap (set_live st event l)) with (heap st).
    destruct (String.eqb_spec ev event) as [->|Hne].
    + rewrite live_set_live_same. split; [apply Hnd, Hs|].
      intros r Hin. apply (Hs event). auto.
    + rewrite Hl by auto. apply Hs.
Qed.

Lemma In_splice1 {A} (l : list A) :
  forall i x, In x (splice1 i l) -> In x l.
Proof.
  intros i x H. unfold splice1 in H. apply in_app_or in H.
  rewrite <- (firstn_skipn i l). apply in_or_app.
  destruct H as [H|H]; [now left|right].
  rewrite <- (firstn_skipn 1 (skipn i l)). apply in_or_app. right.
  now rewrite skipn_skipn.
Qed.

Lemma NoDup_splice1 {A} (l : list A) :
  forall i, NoDup l -> NoDup (splice1 i l).
Proof.
  induction l as [|x l IH]; intros i H.
  - now rewrite splice1_nil.
  - inversion H; subst. destruct i as [|i].
    + now rewrite splice1_0.
    + rewrite splice1_S. constructor; auto.
      intros Hin. apply In_splice1 in Hin. auto.
Qed.

Lemma indexOf_none (l : list nat) (x : nat) : indexOf l x = None -> ~ In x l.
Proof.
  induction l as [|y l IH]; simpl; [tauto|].
  destruct (Nat.eqb_spec y x) as [->|Hne]; [discriminate|].
  destruct (indexOf l x); [discriminate|].
  intros _ [H|H]; [congruence | now apply IH].
Qed.

Lemma indexOf_removed (l : list nat) (x : nat) :
  forall i, indexOf l x = Some i -> NoDup l -> ~ In x (splice1 i l).
Proof.
  induction l as [|y l IH]; simpl; intros i H Hnd; [discriminate|].
  inversion Hnd; subst.
  destruct (Nat.eqb_spec y x) as [->|Hne].
  - inversion H; subst. now rewrite splice1_0.
  - destruct (indexOf l x) as [j|]; [|discriminate]. inversion H; subst.
    rewrite splice1_S. intros [E|Hin]; [congruence|].
    now apply (IH j).
Qed.

Lemma nth_update_same {A} (l : list A) (d : A) :
  forall i x, i < List.length l -> nth i (update l i x) d = x.
Proof.
  induction l as [|y l IH]; intros [|i] x Hi; simpl in *; try lia; auto.
  apply IH. lia.
Qed.

Lemma nth_update_other {A} (l : list A) (d : A) :
  forall i j x, j <> i -> nth j (update l i x) d = nth j l d.
Proof.
  induction l as [|y l IH]; intros [|i] [|j] x Hne; simpl; auto; try congruence.
Qed.

Lemma Qred_integer (z : Z) : Qred (inject_Z z) = inject_Z z.
Proof.
  unfold Qred, inject_Z.
  pose proof (Z.ggcd_gcd z 1) as Hg.
  pose proof (Z.ggcd_correct_divisors z 1) as Hd.
  destruct (Z.ggcd z 1) as [g [aa bb]]. simpl in *.
  rewrite Z.gcd_1_r in Hg. subst g. destruct Hd as [Ha Hb].
  rewrite Z.mul_1_l in Ha, Hb. subst. reflexivity.
Qed.

Lemma round_nonneg (num den : Z) :
  (0 <= num)%Z -> (0 < den)%Z ->
  let q := (num / den)%Z in
  let r := (num mod den)%Z in
  (0 <= (if (2 * r <? den)%Z then q
         else if (den <? 2 * r)%Z then (q + 1)%Z
              else if Z.even q then q else (q + 1)%Z))%Z.
Proof.
  intros Hn Hd q r.
  assert (0 <= q)%Z by (apply Z.div_pos; lia).
  destruct (2 * r <? den)%Z; [lia|].
  destruct (den <? 2 * r)%Z; [lia|].
  destruct (Z.even q); lia.
Qed.

(** Rounding keeps a negative number at or below zero. *)
Lemma to_double_nonpos (x : Q) : (Qnum x < 0)%Z -> (to_double x <= 0)%Q.
Proof.
  intros Hx. unfold to_double.
  destruct (Z.eqb_spec (Qnum x) 0) as [E|_]; [lia|].
  set (a := Z.abs (Qnum x)).
  set (k := if below_power _ _ _ then _ else _).
  set (e := Z.max (k - 52) (-1074)).
  set (num := if (0 <=? e)%Z then a else (a * 2 ^ (- e))%Z).
  set (den := if (0 <=? e)%Z then (Z.pos (Qden x) * 2 ^ e)%Z else Z.pos (Qden x)).
  assert (Hnum : (0 <= num)%Z).
  { unfold num. destruct (0 <=? e)%Z; [unfold a; lia|].
    apply Z.mul_nonneg_nonneg; [unfold a; lia | apply Z.pow_nonneg; lia]. }
  assert (Hden : (0 < den)%Z).
  { unfold den. destruct (Z.leb_spec 0 e); [|lia].
    apply Z.mul_pos_pos; [lia | apply Z.pow_pos_nonneg; lia]. }
  pose proof (round_nonneg num den Hnum Hden) as Hm. cbv zeta in Hm.
  set (m := if (2 * (num mod den) <? den)%Z then _ else _) in *.
  rewrite Qred_correct.
  assert (Hs : Z.sgn (Qnum x) = (-1)%Z) by (apply Z.sgn_neg; lia).
  rewrite Hs. destruct (0 <=? e)%Z; unfold Qle, inject_Z; cbn [Qnum Qden].
  - assert (0 <= 2 ^ e)%Z by (apply Z.pow_nonneg; lia).
    assert (0 <= m * 2 ^ e)%Z by (apply Z.mul_nonneg_nonneg; lia). lia.
  - lia.
Qed.

(** Rounding leaves the integers up to [2^53] as they are. *)
Lemma to_double_integer (x : Q) :
  Qden x = 1%positive -> (0 <= Qnum x < 2 ^ 53)%Z ->
  to_double x = inject_Z (Qnum x).
Proof.
  intros Hd Hz. unfold to_double. rewrite Hd.
  destruct (Z.eqb_spec (Qnum x) 0) as [E|Hne]; [now rewrite E|].
  set (z := Qnum x) in *.
  assert (Hpos : (0 < z)%Z) by lia.
  rewrite (Z.abs_eq z) by lia. rewrite (Z.sgn_pos z) by lia.
  change (Z.log2 1) with 0%Z. rewrite Z.sub_0_r.
  assert (Hlog : (0 <= Z.log2 z < 53)%Z).
  { split; [apply Z.log2_nonneg|]. apply Z.log2_lt_pow2; lia. }
  assert (Hb : below_power z 1 (Z.log2 z) = false).
  { unfold below_power. destruct (Z.leb_spec 0 (Z.log2 z)); [|lia].
    apply Z.ltb_ge. rewrite Z.mul_1_l. apply Z.log2_spec. lia. }
  rewrite Hb.
  rewrite (Z.max_l (Z.log2 z - 52) (-1074)) by lia.
  set (e := (Z.log2 z - 52)%Z).
  transitivity (Qred (inject_Z z)); [apply Qred_complete | apply Qred_integer].
  destruct (Z.leb_spec 0 e) as [He|He].
  - assert (e = 0%Z) by lia. rewrite H. change (2 ^ 0)%Z with 1%Z.
    rewrite ?Z.mul_1_r, ?Z.mul_1_l, Z.div_1_r, Z.mod_1_r, Z.mul_0_r.
    change (0 <? 1)%Z with true. cbv iota. now rewrite ?Z.mul_1_l.
  - rewrite Z.div_1_r, Z.mod_1_r, Z.mul_0_r, ?Z.mul_1_l.
    change (0 <? 1)%Z with true. cbv iota.
    assert (Hp : (0 < 2 ^ (- e))%Z) by (apply Z.pow_pos_nonneg; lia).
    unfold Qeq, inject_Z. cbn [Qnum Qden]. rewrite Z2Pos.id by exact Hp. lia.
Qed.

Lemma decr_below_one (c : number) : lt c one = true -> lt (decr c) one = true.
Proof.
  destruct c as [| | |q]; simpl; auto.
  rewrite !Qltb_lt. intros H.
  apply Qle_lt_trans with (y := 0%Q); [|reflexivity].
  apply to_double_nonpos.
  unfold Qlt, Qminus, Qplus, Qopp in *. destruct q as [a d]. simpl in *. lia.
Qed.

Lemma evolves_set_count (st : EventEmitter) (r : nat) (c : number) :
  (below_one st r -> lt c one = true) -> evolves st (set_count st r c).
Proof.
  intros Hc.
  assert (Hl : forall event, live event (set_count st r c) = live event st)
    by reflexivity.
  unfold evolves, below_one, sound, set_count, lookup. simpl.
  rewrite update_length.
  split_evolves; auto.
  - intros x Hx. destruct (Nat.eq_dec x r) as [->|Hne].
    + now rewrite nth_update_same.
    + now rewrite nth_update_other.
  - intros x Hx Hb. destruct (Nat.eq_dec x r) as [->|Hne].
    + rewrite nth_update_same by auto. simpl. auto.
    + now rewrite nth_update_other.
Qed.

Lemma expire_evolves (event : string) (r : nat) (st : EventEmitter) :
  evolves st (expire event r st).
Proof.
  unfold expire.
  set (st1 := set_count st r (decr (count (lookup st r)))).
  assert (H1 : evolves st st1) by (apply evolves_set_count, decr_below_one).
  destruct (lt _ one); [|exact H1].
  destruct (indexOf (live event st1) r) as [i|]; [|exact H1].
  eapply evolves_trans; [exact H1|].
  apply evolves_shrink.
  - intros x. apply In_splice1.
  - apply NoDup_splice1.
Qed.

Lemma expire_removes (event : string) (r : nat) (st : EventEmitter) :
  sound st -> r < List.length (heap st) -> below_one st r ->
  ~ In r (live event (expire event r st)).
Proof.
  intros Hs Hr Hb. unfold expire.
  set (st1 := set_count st r (decr (count (lookup st r)))).
  assert (Hnd : NoDup (live event st1)) by apply Hs.
  rewrite (decr_below_one _ Hb).
  destruct (indexOf (live event st1) r) as [i|] eqn:E.
  - rewrite live_set_live_same. now apply indexOf_removed.
  - now apply indexOf_none.
Qed.

Lemma expire_callback (event : string) (r : nat) (st : EventEmitter) :
  console (expire event r st) = console st
  /\ forall x, callback (lookup (expire event r st) x) = callback (lookup st x).
Proof.
  assert (H : forall c,
             console (set_count st r c) = console st
             /\ forall x, callback (lookup (set_count st r c) x)
                          = callback (lookup st x)).
  { intros c. split; [reflexivity|]. intros x. unfold set_count, lookup. simpl.
    destruct (Nat.eq_dec x r) as [->|Hne].
    - destruct (Nat.lt_ge_cases r (List.length (heap st))) as [Hlt|Hge].
      + now rewrite nth_update_same.
      + rewrite !nth_overflow; rewrite ?update_length; auto.
    - now rewrite nth_update_other. }
  unfold expire. destruct (lt _ one); [|apply H].
  destruct (indexOf _ r); apply H.
Qed.

Lemma insert_evolves (event : string) (f : nat) (options : value)
  (st : EventEmitter) :
  evolves st (insert event f options st).
Proof.
  unfold insert.
  set (rec := {| callback := f; count := option_count options |}).
  set (st1 := set_heap st (push (heap st) rec)).
  assert (Hl1 : forall ev, live ev st1 = live ev st) by reflexivity.
  assert (Hlen : List.length (heap st1) = S (List.length (heap st)))
    by (unfold st1, push; simpl; rewrite length_app; simpl; lia).
  assert (Hin : forall ev x,
             In x (live ev (set_live st1 event
                              (if option_prepend options
                               then unshift (live event st1) (List.length (heap st))
                               else push (live event st1) (List.length (heap st))))) ->
             In x (live ev st) \/ x = List.length (heap st)).
  { intros ev x H. destruct (String.eqb_spec ev event) as [->|Hne].
    - rewrite live_set_live_same in H. rewrite Hl1 in H.
      destruct (option_prepend options); unfold unshift, push in H.
      + destruct H; auto.
      + apply in_app_or in H. destruct H as [H|[H|[]]]; auto.
    - rewrite live_set_live_other in H by auto. left. now rewrite Hl1 in H. }
  unfold evolves, below_one, sound.
  change (heap (set_live st1 event _)) with (heap st1).
  assert (Hk : forall x, x < List.length (heap st) ->
                         lookup (set_live st1 event
                              (if option_prepend options
                               then unshift (live event st1) (List.length (heap st))
                               else push (live event st1) (List.length (heap st)))) x
                         = lookup st x).
  { intros x Hx. unfold lookup. simpl. unfold push. now rewrite app_nth1. }
  split_evolves.
  - lia.
  - intros x Hx. now rewrite Hk.
  - intros x Hx. now rewrite Hk.
  - intros ev x Hx H. apply Hin in H. destruct H; [auto | lia].
  - intros H ev. split.
    + destruct (String.eqb_spec ev event) as [->|Hne].
      * rewrite live_set_live_same, Hl1.
        assert (Hfresh : ~ In (List.length (heap st)) (live event st)).
        { intros Hc. apply (H event) in Hc. lia. }
        destruct (option_prepend options); unfold unshift, push.
        -- constructor; [exact Hfresh | apply H].
        -- apply NoDup_app.
           ++ apply H.
           ++ constructor; [intros [] | constructor].
           ++ intros x Hx [Hy|[]]. subst. contradiction.
      * rewrite live_set_live_other by auto. rewrite Hl1. apply H.
    + intros x Hx. rewrite Hlen. apply Hin in Hx.
      destruct Hx as [Hx| ->]; [apply (H ev) in Hx|]; lia.
Qed.

(** ** Configuration *)

(** C9 as amended: [setMaxListeners(count)] stores any number that is at
    least one, whole or not, and [Infinity]; it fails with
    [InvalidArgument] on a number below one and on what is not a number. *)
Theorem setMaxListeners_accepts (count : value) (st : EventEmitter) :
  (forall n, count = VNum n -> at_least_one n ->
             setMaxListeners count st = Some (set_maxListeners st n, Normal tt))
  /\ (forall n, count = VNum n -> lt n one = true ->
                setMaxListeners count st
                = Some (st, Throw (VError InvalidArgument [count])))
  /\ ((forall n, count <> VNum n) ->
      setMaxListeners count st = Some (st, Throw (VError InvalidArgument [count])))
  /\ (positive_integer_or_unlimited count ->
      exists n, count = VNum n /\ at_least_one n).
Proof.
  repeat split.
  - intros n -> H. unfold setMaxListeners. now rewrite (at_least_one_lt _ H).
  - intros n -> H. unfold setMaxListeners. now rewrite H.
  - intros H. destruct count; try reflexivity. now destruct (H n).
  - destruct count as [| | |n| | | | | | | |]; simpl; try tauto.
    intros H. exists n. split; [reflexivity|].
    destruct n as [| | |q]; simpl in *; try tauto; try (destruct H; discriminate).
    destruct H as [Hint Hpos].
    apply Qltb_lt in Hpos.
    destruct q as [a d]. simpl in Hint. apply Z.eqb_eq in Hint.
    unfold Qlt, Qle in *. simpl in *.
    apply Z.mod_divide in Hint; [|lia]. destruct Hint as [k Hk]. subst a.
    rewrite Z.mul_1_r in *. change (0 * 1)%Z with 0%Z in Hpos.
    assert (0 < k)%Z by nia. nia.
Qed.

Section Facts.

Variable call : nat -> receiver -> list value -> M value.

(** C1: an event that passes the allow-list check and has no listener
    makes [emit] return the empty array, which is not the [null] its
    documentation announces. *)
Theorem emit_without_listeners (event : string) (args directive : value)
  (st st0 : EventEmitter) :
  listeners event st = Some (st0, Normal []) ->
  emit call event args directive st = Some (st0, Normal (VArr []))
  /\ VArr [] <> VNull
  /\ falsy (VArr []) = false.
Proof.
  intros H. unfold emit, erase, emit_traced. rewrite H. simpl.
  repeat split. discriminate.
Qed.

(** C8: on an emitter built with a non-empty list of events, every
    operation that names an event outside the list fails with
    [InvalidEventName] and leaves the emitter as it was, whereas
    [newListener] and [removeListener] pass the check. *)
Theorem allow_list_enforced (events : list string) (st0 st : EventEmitter) :
  events <> [] ->
  constructor events = Normal st0 ->
  _validEvents st = _validEvents st0 ->
  (forall event,
      ~ In event events -> event <> "newListener" -> event <> "removeListener" ->
      let failed {A} : option (EventEmitter * completion A) :=
        Some (st, Throw (VError InvalidEventName [VStr event])) in
      (forall listener options, addListener call event listener options st = failed)
      /\ (forall listener options, on call event listener options st = failed)
      /\ (forall listener options, once call event listener options st = failed)
      /\ (forall listener, removeListener call event listener st = failed)
      /\ removeAllListeners call event st = failed
      /\ (forall args directive, emit call event args directive st = failed)
      /\ (forall args directive, emit2 call event args directive st = failed))
  /\ (forall event,
         event = "newListener" \/ event = "removeListener" ->
         exists st' l, listeners event st = Some (st', Normal l)).
Proof.
  intros Hne Hc Hv.
  pose proof (constructor_valid _ _ Hne Hc) as Hvalid. rewrite <- Hv in Hvalid.
  split.
  - intros event Hout Hn Hr.
    assert (Hrej : listeners event st
                   = Some (st, Throw (VError InvalidEventName [VStr event]))).
    { apply listeners_rejects.
      - rewrite Hvalid. discriminate.
      - rewrite Hvalid. simpl. intros [H|[H|H]]; auto. }
    cbv zeta.
    repeat split; intros;
      unfold on, once, addListener, removeListener, removeAllListeners, emit2,
        emit, erase, emit_traced, bind;
      rewrite Hrej; reflexivity.
  - intros event He.
    assert (Hin : In event (_validEvents st)).
    { rewrite Hvalid. simpl. destruct He; subst; auto. }
    destruct (listeners_accepts _ _ Hin) as [H|H]; rewrite H; eauto.
Qed.

(** C3: what [handleError] does under each directive. Under [null] the
    error is dropped, and the slot at the index, if one is given, is
    removed. Under [false] the error itself is stored, at the index or
    appended. A handler is called with the error; a defined return value
    is stored, at the index or appended, and an undefined one drops the
    slot. *)
Theorem handleError_policy (results : list value) (error : value)
  (index : option nat) (st : EventEmitter) :
  (exists results',
      handleError call results error VNull index st = Some (st, Normal results')
      /\ dropped index results results')
  /\ (exists results',
         handleError call results error (VBool false) index st
         = Some (st, Normal results')
         /\ stored index error results results')
  /\ (forall handler st' retval,
         call handler ThisUndefined [error] st = Some (st', Normal retval) ->
         exists results',
           handleError call results error (VFun handler) index st
           = Some (st', Normal results')
           /\ (retval = VUndefined -> dropped index results results')
           /\ (retval <> VUndefined -> stored index retval results results')).
Proof.
  assert (Hdrop : dropped index results (drop_slot results index)).
  { destruct index; simpl; [apply splice1_removed | reflexivity]. }
  assert (Hstore : forall v, stored index v results (setval results index v)).
  { intros v. destruct index; simpl; [apply assign_stored | reflexivity]. }
  repeat split.
  - eexists. split; [reflexivity | exact Hdrop].
  - eexists. split; [reflexivity | apply Hstore].
  - intros handler st' retval Hcall.
    unfold handleError, invoke, bind. rewrite Hcall.
    destruct retval; (eexists; split; [reflexivity|]; split; intros H;
                      try congruence; auto).
Qed.

(** *** The loop of [emit] *)

Lemma emit_loop_app (l1 l2 : list nat) (event : string) (args : list value)
  (directive : value) :
  forall results invoked st,
    emit_loop call (l1 ++ l2) event args directive results invoked st
    = match emit_loop call l1 event args directive results invoked st with
      | Some (st', invoked', Normal results') =>
          emit_loop call l2 event args directive results' invoked' st'
      | other => other
      end.
Proof.
  induction l1 as [|r l1 IH]; intros results invoked st; simpl.
  - reflexivity.
  - destruct (call _ _ _ _) as [[st2 [v|error]]|]; auto.
    destruct (handleError _ _ _ _ _) as [[st3 [results'|e]]|]; auto.
Qed.

(** The records called by the loop are an initial segment of the
    snapshot, and all of it when the loop runs to its end. *)
Lemma emit_loop_invoked (l : list nat) (event : string) (args : list value)
  (directive : value) :
  forall results invoked st st' invoked' c,
    emit_loop call l event args directive results invoked st
    = Some (st', invoked', c) ->
    exists n,
      invoked' = invoked ++ firstn n l
      /\ n <= List.length l
      /\ match c with
         | Normal _ => n = List.length l
         | Throw _ => 0 < n
         end.
Proof.
  induction l as [|r l IH]; intros results invoked st st' invoked' c; simpl.
  - intros H. inversion H; subst. exists 0. now rewrite app_nil_r.
  - destruct (call _ _ _ _) as [[st2 [v|error]]|]; [| |discriminate].
    + intros H. apply IH in H. destruct H as (n & -> & Hn & Hc).
      exists (S n). unfold push. rewrite <- app_assoc. simpl.
      repeat split; [lia|]. destruct c; lia.
    + destruct (handleError _ _ _ _ _) as [[st3 [results'|e]]|]; [| |discriminate].
      * intros H. apply IH in H. destruct H as (n & -> & Hn & Hc).
        exists (S n). unfold push. rewrite <- app_assoc. simpl.
        repeat split; [lia|]. destruct c; lia.
      * intros H. inversion H; subst. exists 1. simpl.
        repeat split; lia.
Qed.




(** *** The calls of the loop *)

Lemma dispatched_emit_loop (event : string) (args : list value) (directive : value)
  (rs : list nat) :
  forall results st outs results' st' invoked,
    dispatched call event args directive rs results st outs results' st' ->
    emit_loop call rs event args directive results invoked st
    = Some (st', invoked ++ rs, Normal results').
Proof.
  induction rs as [|r rs IH]; intros results st [|out outs] results' st' invoked H;
    simpl in H; try contradiction.
  - destruct H as [-> ->]. simpl. now rewrite app_nil_r.
  - destruct H as (st2 & st3 & results3 & Hc & Hk & Hd).
    cbn [emit_loop]. rewrite Hc.
    apply (IH _ _ _ _ _ (push invoked r)) in Hd.
    unfold push in Hd. rewrite <- app_assoc in Hd. simpl in Hd.
    destruct out as [v|error]; simpl in Hk.
    + inversion Hk; subst. exact Hd.
    + rewrite Hk. exact Hd.
Qed.

Lemma emit_loop_dispatched (event : string) (args : list value) (directive : value)
  (rs : list nat) :
  forall results invoked st st' invoked' results',
    emit_loop call rs event args directive results invoked st
    = Some (st', invoked', Normal results') ->
    exists outs,
      dispatched call event args directive rs results st outs results' st'.
Proof.
  induction rs as [|r rs IH]; intros results invoked st st' invoked' results'; simpl.
  - intros H. inversion H; subst. now exists [].
  - destruct (call _ _ _ _) as [[st2 [v|error]]|] eqn:C; [| |discriminate].
    + intros H. apply IH in H. destruct H as (outs & Hd).
      exists (Normal v :: outs), st2, st2, (push results v). auto.
    + destruct (handleError _ _ _ _ _ _) as [[st3 [results3|e]]|] eqn:E;
        [| |discriminate]; intros H; [|discriminate].
      apply IH in H. destruct H as (outs & Hd).
      exists (Throw error :: outs), st2, st3, results3. auto.
Qed.

Lemma dispatched_length (event : string) (args : list value) (directive : value)
  (rs : list nat) :
  forall results st outs results' st',
    dispatched call event args directive rs results st outs results' st' ->
    List.length outs = List.length rs.
Proof.
  induction rs as [|r rs IH]; intros results st [|out outs] results' st' H;
    simpl in H; try contradiction; [reflexivity|].
  destruct H as (st2 & st3 & results3 & _ & _ & Hd).
  simpl. f_equal. exact (IH _ _ _ _ _ Hd).
Qed.


(** [emit] is the calls of the records of the snapshot, in turn. *)
Lemma emit_by_calls (event : string) (args directive : value)
  (st st0 : EventEmitter) (snapshot : list nat) :
  listeners event st = Some (st0, Normal snapshot) ->
  (forall outs results st',
      dispatched call event (arguments args) directive snapshot [] st0 outs results st' ->
      emit call event args directive st = Some (st', Normal (VArr results)))
  /\ (forall st' v,
        emit call event args directive st = Some (st', Normal v) ->
        exists outs results,
          v = VArr results
          /\ dispatched call event (arguments args) directive snapshot [] st0
               outs results st').
Proof.
  intros L. unfold emit, erase, emit_traced. rewrite L. split.
  - intros outs results st' H.
    now rewrite (dispatched_emit_loop _ _ _ _ _ _ _ _ _ [] H).
  - intros st' v.
    destruct (emit_loop _ _ _ _ _ _ _ _) as [[[st1 inv] [rs|e]]|] eqn:E;
      [| |discriminate]; intros H; inversion H; subst.
    apply emit_loop_dispatched in E. destruct E as (outs & Hd).
    now exists outs, rs.
Qed.

(** C2: with no directive, when the listeners before the k-th have
    returned and the k-th throws, [emit] throws that very value from the
    state the listener left: no later record of the snapshot is called
    and no array of results comes back. *)
Theorem emit_propagates (event : string) (args : value)
  (st st0 st1 st2 : EventEmitter) (before after : list nat) (r : nat)
  (results : list value) (invoked : list nat) (error : value) :
  listeners event st = Some (st0, Normal (before ++ r :: after)) ->
  emit_loop call before event (arguments args) VUndefined [] [] st0
  = Some (st1, invoked, Normal results) ->
  call (callback (lookup (expire event r st1) r))
       (ThisData results (arguments args)) (arguments args) (expire event r st1)
  = Some (st2, Throw error) ->
  emit_traced call event args VUndefined st = Some (st2, before ++ [r], Throw error)
  /\ emit call event args VUndefined st = Some (st2, Throw error)
  /\ emit2 call event args VUndefined st = Some (st2, Throw error)
  /\ invoked = before.
Proof.
  intros Hl Hbefore Hthrow.
  assert (Hinv : invoked = before).
  { apply emit_loop_invoked in Hbefore. destruct Hbefore as (n & -> & _ & ->).
    simpl. apply firstn_all. }
  assert (Ht : emit_traced call event args VUndefined st
               = Some (st2, before ++ [r], Throw error)).
  { unfold emit_traced. rewrite Hl, emit_loop_app, Hbefore. simpl.
    rewrite Hthrow. simpl. unfold push. now rewrite Hinv. }
  repeat split; auto.
  - unfold emit, erase. now rewrite Ht.
  - unfold emit2, bind, emit, erase. now rewrite Ht.
Qed.

(** C7: [removeListener(event, f)] takes out of the live array the first
    record, from the left, whose callback is [f], and nothing else, so
    [f] is registered once less; it then emits [removeListener] with the
    event and [f]. When no record has that callback it returns without
    any change. *)
Theorem removeListener_first (event : string) (f : nat)
  (st st0 : EventEmitter) (l : list nat) :
  listeners event st = Some (st0, Normal l) ->
  ((forall r, In r (live event st0) -> callback (lookup st0 r) <> f) ->
   removeListener call event (VFun f) st = Some (st0, Normal tt))
  /\ (forall before r after,
         live event st0 = before ++ r :: after ->
         callback (lookup st0 r) = f ->
         (forall x, In x before -> callback (lookup st0 x) <> f) ->
         let st1 := set_live st0 event (before ++ after) in
         removeListener call event (VFun f) st
         = (_ <- emit call "removeListener" (VArr [VStr event; VFun f]) VUndefined;;
            ret tt) st1
         /\ live event st1 = before ++ after
         /\ S (registrations event f st1) = registrations event f st0).
Proof.
  intros Hl. split.
  - intros Hnone. unfold removeListener, bind. rewrite Hl. simpl.
    rewrite findIndex_none; [reflexivity|].
    intros x Hx. apply Nat.eqb_neq. auto.
  - intros before r after Hlive Hr Hbefore st1.
    assert (Hst1 : live event st1 = before ++ after)
      by apply live_set_live_same.
    repeat split; [|exact Hst1|].
    + unfold removeListener, bind at 1. rewrite Hl. simpl. rewrite Hlive.
      rewrite findIndex_first.
      * rewrite splice1_middle. fold st1. unfold bind.
        destruct (emit call _ _ _ st1) as [[st2 [v|e]]|]; reflexivity.
      * intros y Hy. apply Nat.eqb_neq. auto.
      * now apply Nat.eqb_eq.
    + unfold registrations. rewrite Hst1, Hlive.
      assert (Hh : forall x, lookup st1 x = lookup st0 x) by reflexivity.
      rewrite (filter_ext _ (fun x => callback (lookup st0 x) =? f))
        by (intros x; now rewrite Hh).
      rewrite !filter_app, !length_app. simpl.
      apply Nat.eqb_eq in Hr. rewrite Hr. simpl. lia.
Qed.

(** *** Registration *)


Lemma check_leak_same (event : string) (st : EventEmitter) :
  heap (check_leak event st) = heap st
  /\ _events (check_leak event st) = _events st
  /\ _validEvents (check_leak event st) = _validEvents st.
Proof. unfold check_leak. now destruct (_ && _). Qed.

Lemma live_check_leak (event other : string) (st : EventEmitter) :
  live other (check_leak event st) = live other st.
Proof. unfold live. now rewrite (proj1 (proj2 (check_leak_same event st))). Qed.






(** What [emit] called is an initial segment of the live array as it was
    when the call began, and all of it when the call returns. *)
Lemma emit_traced_prefix (event : string) (args directive : value)
  (st st' : EventEmitter) (invoked : list nat) (c : completion value) :
  emit_traced call event args directive st = Some (st', invoked, c) ->
  (exists n, invoked = firstn n (live event st))
  /\ (forall v, c = Normal v -> invoked = live event st).
Proof.
  unfold emit_traced.
  destruct (listeners event st) as [[st0 [l|e]]|] eqn:E; [| |discriminate].
  - destruct (listeners_live _ _ _ _ E) as [-> Ha].
    destruct (listeners_allowed _ _ Ha) as (st1 & E' & Hl & _).
    rewrite E in E'. inversion E'; subst st1. rewrite <- Hl.
    destruct (emit_loop _ _ _ _ _ _ _ _) as [[[st2 inv] [rs|e]]|] eqn:L;
      [| |discriminate]; intros H; inversion H; subst;
      apply emit_loop_invoked in L; destruct L as (n & -> & _ & Hn); simpl.
    + split; [now exists n|]. intros _ _. rewrite Hn. apply firstn_all.
    + split; [now exists n | discriminate].
  - intros H. inversion H; subst. split; [now exists 0 | discriminate].
Qed.

(** *** Listeners that print their name *)




(** *** The promise of [emit2] *)

Lemma react_others (p : nat) (s : settlement) (directive : value)
  (todo : list reaction) :
  (forall w, In w todo -> promise w <> p) ->
  forall kept results failed st,
    react call p s directive todo kept results failed st
    = Some (st, Normal (results, kept ++ todo, failed)).
Proof.
  induction todo as [|w todo IH]; intros H kept results failed st; simpl.
  - now rewrite app_nil_r.
  - destruct (Nat.eqb_spec (promise w) p) as [E|_].
    + exfalso. apply (H w); auto. now left.
    + rewrite IH by (intros w' Hw'; apply H; now right).
      unfold push. now rewrite <- app_assoc.
Qed.

Lemma react_app (p : nat) (s : settlement) (directive : value)
  (ws todo : list reaction) :
  (forall w, In w ws -> promise w <> p) ->
  forall kept results failed st,
    react call p s directive (ws ++ todo) kept results failed st
    = react call p s directive todo (kept ++ ws) results failed st.
Proof.
  induction ws as [|w ws IH]; intros H kept results failed st; simpl.
  - now rewrite app_nil_r.
  - destruct (Nat.eqb_spec (promise w) p) as [E|_].
    + exfalso. apply (H w); auto. now left.
    + rewrite IH by (intros w' Hw'; apply H; now right).
      unfold push. now rewrite <- app_assoc.
Qed.

Lemma react_normal (p : nat) (s : settlement) (directive : value)
  (todo : list reaction) :
  forall kept results failed st st' e,
    react call p s directive todo kept results failed st <> Some (st', Throw e).
Proof.
  induction todo as [|w todo IH]; intros kept results failed st st' e; simpl.
  - discriminate.
  - destruct (promise w =? p); [|apply IH].
    destruct s as [v|e1]; [apply IH|].
    destruct (handleError _ _ _ _ _ _) as [[st2 [rs'|e2]]|];
      [apply IH | apply IH | discriminate].
Qed.

Lemma settle_result (p : nat) (s : settlement) (a : reconciliation)
  (st st' : EventEmitter) (c : completion reconciliation) :
  settle call p s a st = Some (st', c) ->
  exists results' rest failed,
    react call p s (onError a) (waiting a) [] (results a) None st
    = Some (st', Normal (results', rest, failed))
    /\ c = Normal {| results := results'; waiting := rest; onError := onError a;
                     returned := conclude (returned a) failed rest results' |}.
Proof.
  unfold settle, bind.
  destruct (react _ _ _ _ _ _ _ _ _) as [[st1 [[[rs rest] failed]|e]]|] eqn:E;
    [| |discriminate].
  - intros H. inversion H; subst. eauto.
  - exfalso. exact (react_normal _ _ _ _ _ _ _ _ _ _ E).
Qed.

Lemma settle_coherent (p : nat) (s : settlement) (a a' : reconciliation)
  (st st' : EventEmitter) :
  coherent a -> settle call p s a st = Some (st', Normal a') -> coherent a'.
Proof.
  intros Hc H. apply settle_result in H.
  destruct H as (rs & rest & failed & Hr & Ha). inversion Ha; subst a'. clear Ha.
  unfold coherent in *. simpl. destruct (returned a) as [|rs0|e]; simpl.
  - destruct failed; [exact I|]. destruct rest; simpl; [auto | discriminate].
  - destruct Hc as [Hw ->]. rewrite Hw in Hr. simpl in Hr.
    inversion Hr; subst. auto.
  - exact I.
Qed.

Lemma settle_all_normal (schedule : list (nat * settlement)) :
  forall a st st' c,
    settle_all call schedule a st = Some (st', c) -> exists a', c = Normal a'.
Proof.
  induction schedule as [|[p s] schedule IH]; intros a st st' c; simpl.
  - intros H. inversion H. eauto.
  - unfold bind. destruct (settle call p s a st) as [[st1 [a1|e]]|] eqn:E;
      [apply IH | | discriminate].
    apply settle_result in E. destruct E as (? & ? & ? & _ & ?). discriminate.
Qed.

Lemma settle_all_coherent (schedule : list (nat * settlement)) :
  forall a a' st st',
    coherent a -> settle_all call schedule a st = Some (st', Normal a') ->
    coherent a'.
Proof.
  induction schedule as [|[p s] schedule IH]; intros a a' st st' Hc; simpl.
  - intros H. now inversion H; subst.
  - unfold bind. destruct (settle call p s a st) as [[st1 [a1|e]]|] eqn:E;
      [|discriminate|discriminate].
    apply IH. eapply settle_coherent; eauto.
Qed.

Lemma emit2_coherent (event : string) (args directive : value)
  (st st1 : EventEmitter) (a : reconciliation) :
  emit2 call event args directive st = Some (st1, Normal (Async a)) ->
  coherent a
  /\ waiting a = attach (results a) (List.length (results a))
  /\ onError a = directive.
Proof.
  unfold emit2, bind.
  destruct (emit call event args directive st) as [[st0 [v|e]]|];
    [| discriminate | discriminate].
  destruct (falsy v); simpl; intros H; inversion H; subst; simpl.
  repeat split. unfold coherent. simpl.
  destruct (attach _ _); simpl; [auto | discriminate].
Qed.

(** C6 as amended: the promise returned by [emit2] resolves, with the
    reconciled array, only when no continuation is left waiting. A
    rejection that the directive propagates rejects it at once, while
    other entries may still be pending; it then stays rejected with that
    first failure, and the continuations of the other entries run when
    their promises settle just as they would otherwise. *)
Theorem emit2_reconciliation (event : string) (args directive : value)
  (st st1 : EventEmitter) (a : reconciliation) :
  emit2 call event args directive st = Some (st1, Normal (Async a)) ->
  (forall schedule st2 a' rs,
      settle_all call schedule a st1 = Some (st2, Normal a') ->
      returned a' = Resolved rs -> waiting a' = [] /\ rs = results a')
  /\ (forall b p i e e' before after st2 st3,
         returned b = Pending ->
         waiting b = before ++ {| promise := p; index := i |} :: after ->
         (forall w, In w (before ++ after) -> promise w <> p) ->
         handleError call (results b) e (onError b) (Some i) st2
         = Some (st3, Throw e') ->
         settle call p (Reject e) b st2
         = Some (st3, Normal {| results := results b; waiting := before ++ after;
                                onError := onError b; returned := Rejected e' |}))
  /\ (forall schedule b b' e st2 st3,
         returned b = Rejected e ->
         settle_all call schedule b st2 = Some (st3, Normal b') ->
         returned b' = Rejected e)
  /\ (forall b b' h p s st2 st3,
         settle call p s b st2 = Some (st3, Normal b') ->
         exists h',
           settle call p s (set_returned b h) st2
           = Some (st3, Normal (set_returned b' h'))).
Proof.
  intros H. apply emit2_coherent in H. destruct H as (Hc & _).
  split; [|split; [|split]].
  - intros schedule st2 a' rs Hs Hr.
    pose proof (settle_all_coherent _ _ _ _ _ Hc Hs) as Hc'.
    unfold coherent in Hc'. now rewrite Hr in Hc'.
  - intros b p i e e' before after st2 st3 Hp Hw Hothers Hthrow.
    unfold settle, bind. rewrite Hw.
    rewrite react_app by (intros w Hin; apply Hothers, in_or_app; now left).
    simpl. rewrite Nat.eqb_refl, Hthrow.
    rewrite react_others by (intros w Hin; apply Hothers, in_or_app; now right).
    now rewrite Hp.
  - induction schedule as [|[p s] schedule IH]; intros b b' e st2 st3 Hr; simpl.
    + intros Hs. now inversion Hs; subst.
    + unfold bind. destruct (settle call p s b st2) as [[st4 [b1|e1]]|] eqn:E;
        [|discriminate|discriminate].
      apply IH. apply settle_result in E.
      destruct E as (? & ? & ? & _ & Hb). inversion Hb; subst. simpl.
      now rewrite Hr.
  - intros b b' h p s st2 st3 Hs. apply settle_result in Hs.
    destruct Hs as (rs & rest & failed & Hr & Hb). inversion Hb; subst b'.
    exists (conclude h failed rest rs).
    unfold settle, bind, set_returned. simpl. now rewrite Hr.
Qed.

End Facts.

(** ** Every method lets the registry evolve *)

Lemma preserves_ret {A} (a : A) : preserves (ret a).
Proof. intros st st' c H. inversion H. apply evolves_refl. Qed.

Lemma preserves_throw {A} (e : value) : preserves (@throw A e).
Proof. intros st st' c H. inversion H. apply evolves_refl. Qed.

Lemma preserves_bind {A B} (m : M A) (k : A -> M B) :
  preserves m -> (forall a, preserves (k a)) -> preserves (bind m k).
Proof.
  intros Hm Hk st st' c. unfold bind.
  destruct (m st) as [[st1 [a|e]]|] eqn:E; [| |discriminate].
  - intros H. eapply evolves_trans; [eapply Hm | eapply Hk]; eauto.
  - intros H. inversion H; subst. eapply Hm; eauto.
Qed.

Lemma preserves_modify (f : EventEmitter -> EventEmitter) :
  (forall st, evolves st (f st)) -> preserves (modify f).
Proof. intros Hf st st' c H. inversion H. apply Hf. Qed.

Lemma preserves_and_then {A} (m : M A) (k : completion A -> M value) :
  preserves m -> (forall c, preserves (k c)) -> preserves (and_then m k).
Proof.
  intros Hm Hk st st' c. unfold and_then.
  destruct (m st) as [[st1 c1]|] eqn:E; [|discriminate].
  intros H. eapply evolves_trans; [eapply Hm | eapply Hk]; eauto.
Qed.

Lemma listeners_evolves (event : string) : preserves (listeners event).
Proof.
  intros st st' c. unfold listeners.
  destruct (_ && _).
  - intros H. inversion H. apply evolves_refl.
  - destruct (get (_events st) event) as [l|] eqn:G; intros H; inversion H; subst.
    + apply evolves_refl.
    + apply evolves_shrink; [intros r [] | constructor].
Qed.

Lemma setMaxListeners_evolves (n : value) : preserves (setMaxListeners n).
Proof.
  unfold setMaxListeners. destruct n; try apply preserves_throw.
  destruct (lt n one); [apply preserves_throw|].
  apply preserves_modify. intros st. now apply evolves_same.
Qed.

Lemma check_leak_evolves (event : string) (st : EventEmitter) :
  evolves st (check_leak event st).
Proof.
  destruct (check_leak_same event st) as (Hh & He & _). now apply evolves_same.
Qed.

Section Evolution.

Variable call : nat -> receiver -> list value -> M value.

Hypothesis call_evolves : forall f this args, preserves (call f this args).

Lemma invoke_evolves (f : value) (this : receiver) (args : list value) :
  preserves (invoke call f this args).
Proof.
  destruct f; simpl; try apply preserves_throw. apply call_evolves.
Qed.

Lemma handleError_evolves (results : list value) (error directive : value)
  (index : option nat) :
  preserves (handleError call results error directive index).
Proof.
  unfold handleError.
  assert (H : preserves
                (retval <- invoke call directive ThisUndefined [error];;
                 match retval with
                 | VUndefined => ret (drop_slot results index)
                 | _ => ret (setval results index retval)
                 end)).
  { apply preserves_bind; [apply invoke_evolves|].
    intros a. destruct a; apply preserves_ret. }
  destruct directive; try exact H;
    try apply preserves_throw; try apply preserves_ret.
  destruct b; [exact H | apply preserves_ret].
Qed.

Lemma emit_loop_evolves (event : string) (args : list value) (directive : value)
  (snapshot : list nat) :
  forall results invoked,
    preserves_traced (emit_loop call snapshot event args directive results invoked).
Proof.
  induction snapshot as [|r rest IH]; intros results invoked st st' inv c; simpl.
  - intros H. inversion H. apply evolves_refl.
  - pose proof (expire_evolves event r st) as He.
    destruct (call _ _ _ _) as [[st2 [v|error]]|] eqn:C; [| |discriminate].
    + intros H. apply IH in H. apply call_evolves in C.
      eapply evolves_trans; [exact He|]. eapply evolves_trans; eauto.
    + apply call_evolves in C.
      destruct (handleError _ _ _ _ _ _) as [[st3 [results'|e]]|] eqn:E;
        [| |discriminate]; apply handleError_evolves in E; intros H.
      * apply IH in H.
        eapply evolves_trans; [exact He|]. eapply evolves_trans; [exact C|].
        eapply evolves_trans; eauto.
      * inversion H; subst.
        eapply evolves_trans; [exact He|]. eapply evolves_trans; eauto.
Qed.

Lemma emit_traced_evolves (event : string) (args directive : value) :
  preserves_traced (emit_traced call event args directive).
Proof.
  intros st st' inv c. unfold emit_traced.
  destruct (listeners event st) as [[st0 [l|e]]|] eqn:L; [| |discriminate];
    apply listeners_evolves in L.
  - destruct (emit_loop _ _ _ _ _ _ _ _) as [[[st1 inv1] [rs|e]]|] eqn:E;
      [| |discriminate]; apply emit_loop_evolves in E;
      intros H; inversion H; subst; eapply evolves_trans; eauto.
  - intros H. now inversion H; subst.
Qed.

Lemma emit_evolves (event : string) (args directive : value) :
  preserves (emit call event args directive).
Proof.
  intros st st' c. unfold emit, erase.
  destruct (emit_traced _ _ _ _ _) as [[[st1 inv] c1]|] eqn:E; [|discriminate].
  intros H. inversion H; subst. eapply emit_traced_evolves; eauto.
Qed.

Lemma addListener_each_evolves (event : string) (options : value)
  (batch : list value) :
  forall index, preserves (addListener_each call event batch index options).
Proof.
  induction batch as [|v batch IH]; intros index; simpl.
  - apply preserves_ret.
  - destruct v; try apply preserves_throw.
    apply preserves_bind; [apply emit_evolves|]. intros _.
    apply preserves_bind; [apply preserves_modify, insert_evolves|]. intros _.
    apply IH.
Qed.

Lemma addListener_evolves (event : string) (listener options : value) :
  preserves (addListener call event listener options).
Proof.
  unfold addListener.
  apply preserves_bind; [apply listeners_evolves|]. intros _.
  apply preserves_bind; [apply addListener_each_evolves|]. intros _.
  apply preserves_modify, check_leak_evolves.
Qed.

Lemma removeListener_each_evolves (event : string) (batch : list value) :
  forall index, preserves (removeListener_each call event batch index).
Proof.
  induction batch as [|v batch IH]; intros index; simpl.
  - apply preserves_ret.
  - intros st st' c.
    destruct (callback_of st v) as [f|].
    + destruct (findIndex _ _) as [pos|].
      * intros H. eapply evolves_trans.
        -- apply (evolves_shrink st event (splice1 pos (live event st))).
           ++ intros x. apply In_splice1.
           ++ apply NoDup_splice1.
        -- revert H. apply preserves_bind; [apply emit_evolves|].
           intros _. apply IH.
      * apply IH.
    + intros H. inversion H. apply evolves_refl.
Qed.

Lemma removeListener_evolves (event : string) (listener : value) :
  preserves (removeListener call event listener).
Proof.
  unfold removeListener.
  apply preserves_bind; [apply listeners_evolves|]. intros _.
  apply removeListener_each_evolves.
Qed.

Lemma removeAllListeners_evolves (event : string) :
  preserves (removeAllListeners call event).
Proof.
  unfold removeAllListeners.
  apply preserves_bind; [apply listeners_evolves|]. intros copy.
  apply preserves_bind; [apply listeners_evolves|]. intros _.
  apply removeListener_each_evolves.
Qed.

Lemma emit2_evolves (event : string) (args directive : value) :
  preserves (emit2 call event args directive).
Proof.
  unfold emit2. apply preserves_bind; [apply emit_evolves|].
  intros v. destruct (falsy v); apply preserves_ret.
Qed.

Lemma removeAll_walk_evolves (fuel : nat) :
  forall i, preserves (removeAll_walk call fuel i).
Proof.
  induction fuel as [|fuel IH]; intros i st st' c; simpl; [discriminate|].
  destruct (nth_error (_events st) i) as [[event l]|].
  - destruct (String.eqb event "removeListener"); [apply IH|].
    apply preserves_bind; [apply listeners_evolves|]. intros _.
    apply preserves_bind; [apply removeListener_each_evolves|]. intros _. apply IH.
  - intros H. inversion H. apply evolves_refl.
Qed.

Lemma removeAllListeners_all_evolves (fuel : nat) :
  preserves (removeAllListeners_all call fuel).
Proof.
  unfold removeAllListeners_all.
  apply preserves_bind; [apply removeAll_walk_evolves|]. intros _.
  apply removeAllListeners_evolves.
Qed.

Lemma run_evolves (c : code) : preserves (run call c).
Proof.
  induction c as [v|e|event args directive k IH|event listener options k IH
                 |event listener k IH|event k IH|n k IH|s k IH
                 |event args directive k IH|fuel k IH]; simpl.
  - apply preserves_ret.
  - apply preserves_throw.
  - apply preserves_and_then; [apply emit_evolves | exact IH].
  - apply preserves_and_then; [apply addListener_evolves | exact IH].
  - apply preserves_and_then; [apply removeListener_evolves | exact IH].
  - apply preserves_and_then; [apply removeAllListeners_evolves | exact IH].
  - apply preserves_and_then; [apply setMaxListeners_evolves | exact IH].
  - intros st st' c H. eapply evolves_trans; [|eapply IH; exact H].
    now apply evolves_same.
  - apply preserves_and_then; [|exact IH].
    apply preserves_bind; [apply emit2_evolves|]. intros _. apply preserves_ret.
  - apply preserves_and_then; [apply removeAllListeners_all_evolves | exact IH].
Qed.



Lemma emit_loop_expires (event : string) (args : list value) (directive : value)
  (x : nat) (snapshot : list nat) :
  forall results invoked st st' invoked' c,
    sound st -> x < List.length (heap st) -> below_one st x ->
    emit_loop call snapshot event args directive results invoked st
    = Some (st', invoked', c) ->
    In x invoked' -> In x invoked \/ ~ In x (live event st').
Proof.
  induction snapshot as [|r rest IH];
    intros results invoked st st' invoked' c Hs Hx Hb; simpl.
  - intros H. inversion H; subst. auto.
  - pose proof (expire_evolves event r st) as He.
    assert (Hgone : forall st2, evolves (expire event r st) st2 ->
                                r = x -> ~ In x (live event st2)).
    { intros st2 (Hl & _ & _ & Hi & _) -> Hin.
      apply (expire_removes event x st Hs Hx Hb).
      apply Hi; auto. destruct He as (Hle & _). lia. }
    assert (Hkeep : forall st2, evolves (expire event r st) st2 ->
                                sound st2 /\ x < List.length (heap st2)
                                /\ below_one st2 x).
    { intros st2 H2. pose proof (evolves_trans _ _ _ He H2) as (Hl & _ & Hb2 & _ & Hs2).
      repeat split; auto; try apply Hs2; auto. lia. }
    destruct (call _ _ _ _) as [[st2 [v|error]]|] eqn:C; [| |discriminate].
    + apply call_evolves in C. intros H Hin.
      destruct (Hkeep st2 C) as (Hs2 & Hx2 & Hb2).
      pose proof (emit_loop_evolves _ _ _ _ _ _ _ _ _ _ H) as Hrest.
      destruct (IH _ _ _ _ _ _ Hs2 Hx2 Hb2 H Hin) as [Hi|Hi]; [|auto].
      unfold push in Hi. apply in_app_or in Hi. destruct Hi as [Hi|[Hi|[]]]; [auto|].
      right. apply (Hgone st'); [|exact Hi]. eapply evolves_trans; eauto.
    + apply call_evolves in C.
      destruct (handleError _ _ _ _ _ _) as [[st3 [results'|e]]|] eqn:E;
        [| |discriminate]; apply handleError_evolves in E;
        pose proof (evolves_trans _ _ _ C E) as C3;
        destruct (Hkeep st3 C3) as (Hs3 & Hx3 & Hb3); intros H Hin.
      * pose proof (emit_loop_evolves _ _ _ _ _ _ _ _ _ _ H) as Hrest.
        destruct (IH _ _ _ _ _ _ Hs3 Hx3 Hb3 H Hin) as [Hi|Hi]; [|auto].
        unfold push in Hi. apply in_app_or in Hi.
        destruct Hi as [Hi|[Hi|[]]]; [auto|].
        right. apply (Hgone st'); [|exact Hi]. eapply evolves_trans; eauto.
      * inversion H; subst. unfold push in Hin. apply in_app_or in Hin.
        destruct Hin as [Hi|[Hi|[]]]; [auto|].
        right. now apply (Hgone st').
Qed.

End Evolution.

Lemma call_in_evolves (p : program) (fuel : nat) :
  forall f this args, preserves (call_in p fuel f this args).
Proof.
  induction fuel as [|fuel IH]; intros f this args; simpl.
  - intros st st' c H. discriminate.
  - apply run_evolves. exact IH.
Qed.

(** Every state that a client reaches from a new emitter is sound. *)
Lemma reachable_sound (p : program) (fuel : nat) (events : list string)
  (client : code) (st0 st : EventEmitter) (c : completion value) :
  constructor events = Normal st0 ->
  run (call_in p fuel) client st0 = Some (st, c) ->
  sound st.
Proof.
  intros Hc Hrun.
  apply (run_evolves _ (call_in_evolves p fuel)) in Hrun.
  apply Hrun. apply well_formed_sound.
  unfold constructor in Hc. destruct events as [|e events].
  - now inversion Hc.
  - destruct (declare _ _ _); inversion Hc. reflexivity.
Qed.

(** ** A record whose count is below one *)

Lemma NoDup_prefix {A} (l : list A) (n : nat) : NoDup l -> NoDup (firstn n l).
Proof.
  intros H. rewrite <- (firstn_skipn n l) in H. now apply NoDup_app_remove_r in H.
Qed.



(** ** The scenarios, run *)

(** C1, at a new emitter: [emit('message')] returns the empty array. *)
Lemma emit_without_listeners_witness :
  emit (call_in thrower 1) "message" VUndefined VUndefined fresh
  = Some (set_live fresh "message" [], Normal (VArr []))
  /\ VArr [] <> VNull
  /\ falsy (VArr []) = false.
Proof.
  apply (emit_without_listeners (call_in thrower 1) "message" VUndefined VUndefined
           fresh (set_live fresh "message" [])).
  reflexivity.
Defined.

(** C2, with a printing listener before and after the one that throws. *)
Lemma emit_propagates_witness :
  exists st2,
    emit_traced (call_in thrower 1) "message" VUndefined VUndefined
      (registered "message" [forever 1; forever 0; forever 1])
    = Some (st2, [0] ++ [1], Throw (VStr "boom"))
    /\ console st2 = ["called"].
Proof.
  eexists. split.
  - refine (proj1 (emit_propagates (call_in thrower 1) "message" VUndefined
                     (registered "message" [forever 1; forever 0; forever 1])
                     _ _ _ [0] [2] 1 _ _ (VStr "boom") _ _ _)); reflexivity.
  - reflexivity.
Defined.

(** C3, with a handler that returns a defined value for slot 0. *)
Lemma handleError_policy_witness :
  exists results',
    handleError (call_in two_promises 1) [VStr "a"; VStr "b"] (VStr "e")
      (VFun 7) (Some 0) fresh
    = Some (fresh, Normal results')
    /\ (VPromise 7 = VUndefined -> dropped (Some 0) [VStr "a"; VStr "b"] results')
    /\ (VPromise 7 <> VUndefined ->
        stored (Some 0) (VPromise 7) [VStr "a"; VStr "b"] results').
Proof.
  apply (proj2 (proj2 (handleError_policy (call_in two_promises 1)
                         [VStr "a"; VStr "b"] (VStr "e") (Some 0) fresh))).
  reflexivity.
Defined.

(** C4: two one-time listeners, the first of which emits the event again
    when it runs. One [emit] calls the second listener twice: once from
    the nested call, and once more from the outer call, whose snapshot
    still holds its record. *)
Theorem once_listener_called_twice :
  exists st v,
    (_ <- once (call_in reentrant 2) "message" (VFun 0) VUndefined;;
     _ <- once (call_in reentrant 2) "message" (VFun 1) VUndefined;;
     emit (call_in reentrant 2) "message" VUndefined VUndefined) fresh
    = Some (st, Normal v)
    /\ console st = ["one-time listener called"; "one-time listener called"]
    /\ live "message" st = [].
Proof.
  eexists. eexists. split; [vm_compute; reflexivity|]. split; reflexivity.
Qed.


(** The snapshot at work: the first listener removes the second one, which
    is called all the same by the [emit] under way, and not by the next. *)
Example removed_listener_still_called :
  exists st st',
    emit_traced (call_in remover 2) "message" VUndefined VUndefined
      (registered "message" [forever 0; forever 1])
    = Some (st, [0; 1], Normal (VArr [VUndefined; VUndefined]))
    /\ console st = ["called"]
    /\ live "message" st = [0]
    /\ emit_traced (call_in remover 2) "message" VUndefined VUndefined st
       = Some (st', [0], Normal (VArr [VUndefined])).
Proof.
  do 2 eexists. split; [vm_compute; reflexivity|].
  split; [reflexivity|]. split; [reflexivity|]. vm_compute. reflexivity.
Qed.

(** C6 as stated fails: of two pending entries, the first is rejected and
    nothing handles the error; the promise of [emit2] is rejected at that
    moment, while the continuation of the other entry is still waiting. *)
Lemma emit2_rejected_while_pending :
  exists st1 a st2 a',
    emit2 (call_in two_promises 1) "message" VUndefined VUndefined
      (registered "message" [forever 0; forever 1])
    = Some (st1, Normal (Async a))
    /\ returned a = Pending
    /\ settle (call_in two_promises 1) 0 (Reject (VStr "e")) a st1
       = Some (st2, Normal a')
    /\ returned a' = Rejected (VStr "e")
    /\ waiting a' = [{| promise := 1; index := 1 |}].
Proof.
  do 4 eexists. split; [vm_compute; reflexivity|].
  split; [reflexivity|]. split; [vm_compute; reflexivity|].
  split; reflexivity.
Qed.

(** C6 as amended, on the same two entries. *)
Lemma emit2_reconciliation_witness :
  exists st1 a,
    emit2 (call_in two_promises 1) "message" VUndefined VUndefined
      (registered "message" [forever 0; forever 1])
    = Some (st1, Normal (Async a))
    /\ forall schedule st2 a' rs,
        settle_all (call_in two_promises 1) schedule a st1 = Some (st2, Normal a') ->
        returned a' = Resolved rs -> waiting a' = [] /\ rs = results a'.
Proof.
  do 2 eexists. split; [vm_compute; reflexivity|].
  refine (proj1 (emit2_reconciliation (call_in two_promises 1) "message"
                   VUndefined VUndefined
                   (registered "message" [forever 0; forever 1]) _ _ _)).
  vm_compute. reflexivity.
Defined.

(** C7, on a callback registered twice. *)
Lemma removeListener_first_witness :
  removeListener (call_in thrower 1) "message" (VFun 1)
    (registered "message" [forever 1; forever 1])
  = (_ <- emit (call_in thrower 1) "removeListener"
            (VArr [VStr "message"; VFun 1]) VUndefined;;
     ret tt)
      (set_live (registered "message" [forever 1; forever 1]) "message" ([] ++ [1]))
  /\ live "message"
       (set_live (registered "message" [forever 1; forever 1]) "message" ([] ++ [1]))
     = [] ++ [1]
  /\ S (registrations "message" 1
          (set_live (registered "message" [forever 1; forever 1]) "message" ([] ++ [1])))
     = registrations "message" 1 (registered "message" [forever 1; forever 1]).
Proof.
  refine (proj2 (removeListener_first (call_in thrower 1) "message" 1
                   (registered "message" [forever 1; forever 1])
                   (registered "message" [forever 1; forever 1]) [0; 1] _)
            [] 0 [1] _ _ _).
  - reflexivity.
  - reflexivity.
  - reflexivity.
  - intros x [].
Defined.

(** C8, on an emitter that allows [message] only. *)
Lemma allow_list_enforced_witness :
  on (call_in thrower 1) "exit" (VFun 1) VUndefined
    (set_validEvents fresh ["newListener"; "removeListener"; "message"])
  = Some (set_validEvents fresh ["newListener"; "removeListener"; "message"],
          Throw (VError InvalidEventName [VStr "exit"])).
Proof.
  refine (proj1 (proj2 (proj1 (allow_list_enforced (call_in thrower 1) ["message"]
                                 (set_validEvents fresh
                                    ["newListener"; "removeListener"; "message"])
                                 (set_validEvents fresh
                                    ["newListener"; "removeListener"; "message"])
                                 _ _ _) "exit" _ _ _)) (VFun 1) VUndefined).
  - discriminate.
  - reflexivity.
  - reflexivity.
  - simpl. intros [H|[]]. discriminate.
  - discriminate.
  - discriminate.
Defined.

(** C9 as stated fails: 3/2 is accepted, and it is neither a whole number
    nor [Infinity]. *)
Lemma setMaxListeners_accepts_fraction :
  setMaxListeners (VNum (Finite (3 # 2))) fresh
  = Some (set_maxListeners fresh (Finite (3 # 2)), Normal tt)
  /\ ~ positive_integer_or_unlimited (VNum (Finite (3 # 2))).
Proof.
  split; [reflexivity|]. simpl. intros [H _]. discriminate.
Qed.

(** C9 as amended, at 5 and at 0. *)
Lemma setMaxListeners_accepts_witness :
  setMaxListeners (VNum (Finite 5)) fresh
  = Some (set_maxListeners fresh (Finite 5), Normal tt)
  /\ setMaxListeners (VNum (Finite 0)) fresh
     = Some (fresh, Throw (VError InvalidArgument [VNum (Finite 0)])).
Proof.
  split.
  - apply (proj1 (setMaxListeners_accepts (VNum (Finite 5)) fresh) (Finite 5)).
    + reflexivity.
    + unfold at_least_one, Qle. simpl. lia.
  - apply (proj1 (proj2 (setMaxListeners_accepts (VNum (Finite 0)) fresh)) (Finite 0));
      reflexivity.
Defined.



(** * Further properties *)

(** ** The constructor *)

Lemma declare_accepts (events : list string) :
  forall index valid,
    NoDup (valid ++ events) -> declare events index valid = Normal (valid ++ events).
Proof.
  induction events as [|e events IH]; intros index valid H; simpl.
  - now rewrite app_nil_r.
  - assert (Hnot : includes valid e = false).
    { apply includes_not_In. intros Hin.
      apply NoDup_remove_2 in H. apply H. apply in_or_app. now left. }
    rewrite Hnot. unfold push.
    replace (valid ++ e :: events) with ((valid ++ [e]) ++ events) in *
      by (now rewrite <- app_assoc).
    now apply IH.
Qed.

Lemma declare_rejects (events : list string) :
  forall index valid,
    NoDup valid -> ~ NoDup (valid ++ events) ->
    exists k e,
      declare events index valid
      = Throw (VError DuplicateEvent [VNum (of_nat (index + k)); VStr e])
      /\ nth_error events k = Some e
      /\ In e (valid ++ firstn k events)
      /\ NoDup (valid ++ firstn k events).
Proof.
  induction events as [|e events IH]; intros index valid Hv H; simpl.
  - exfalso. apply H. now rewrite app_nil_r.
  - destruct (includes valid e) eqn:E.
    + exists 0, e. rewrite Nat.add_0_r. simpl. rewrite app_nil_r.
      apply includes_In in E. auto.
    + apply includes_not_In in E.
      assert (Hv' : NoDup (valid ++ [e])).
      { apply NoDup_app; auto.
        - constructor; [intros [] | constructor].
        - intros x Hx [<-|[]]. contradiction. }
      destruct (IH (S index) (push valid e) Hv') as (k & e' & Hd & Hn & Hi & Hnd).
      { unfold push. now rewrite <- app_assoc. }
      exists (S k), e'. unfold push in *. simpl.
      rewrite <- app_assoc in Hi, Hnd. simpl in Hi, Hnd.
      replace (index + S k) with (S index + k) by lia. auto.
Qed.

(** X1: the constructor accepts a non-empty list of events exactly when it
    has no repetition and names neither [newListener] nor
    [removeListener]; otherwise it throws for the first name that is
    already on the list, with its index among the arguments. *)
Theorem constructor_checks (events : list string) :
  events <> [] ->
  (NoDup (reserved ++ events) ->
   constructor events = Normal (set_validEvents fresh (reserved ++ events)))
  /\ (~ NoDup (reserved ++ events) ->
      exists k e,
        constructor events
        = Throw (VError DuplicateEvent [VNum (of_nat k); VStr e])
        /\ nth_error events k = Some e
        /\ In e (reserved ++ firstn k events)
        /\ NoDup (reserved ++ firstn k events)).
Proof.
  intros Hne. destruct events as [|e0 events]; [congruence|].
  unfold constructor, reserved. split.
  - intros H. now rewrite (declare_accepts _ 0 _ H).
  - intros H.
    destruct (declare_rejects (e0 :: events) 0 ["newListener"; "removeListener"])
      as (k & e & Hd & Hrest); auto.
    + constructor; [intros [E|[]]; discriminate|].
      constructor; [intros [] | constructor].
    + exists k, e. rewrite Hd. auto.
Qed.

Lemma constructor_checks_witness :
  exists k e,
    constructor ["message"; "newListener"]
    = Throw (VError DuplicateEvent [VNum (of_nat k); VStr e])
    /\ nth_error ["message"; "newListener"] k = Some e
    /\ In e (reserved ++ firstn k ["message"; "newListener"])
    /\ NoDup (reserved ++ firstn k ["message"; "newListener"]).
Proof.
  apply (proj2 (constructor_checks ["message"; "newListener"] ltac:(discriminate))).
  intros H. inversion H as [|? ? Hin _]. apply Hin. simpl. auto.
Defined.

(** ** Registration of a batch *)

Lemma same_settings_refl (st : EventEmitter) : same_settings st st.
Proof. unfold same_settings. auto. Qed.

Lemma same_settings_trans (st1 st2 st3 : EventEmitter) :
  same_settings st1 st2 -> same_settings st2 st3 -> same_settings st1 st3.
Proof.
  unfold same_settings. intros (A1 & B1 & C1 & D1 & E1) (A2 & B2 & C2 & D2 & E2).
  rewrite A2, B2, C2, D2, E2. auto.
Qed.

Lemma listeners_frame (event : string) (st st0 : EventEmitter)
  (c : completion (list nat)) :
  listeners event st = Some (st0, c) ->
  heap st0 = heap st /\ same_settings st st0.
Proof.
  unfold listeners. destruct (_ && _).
  - intros H. inversion H; subst. split; [reflexivity | apply same_settings_refl].
  - destruct (get (_events st) event); intros H; inversion H; subst;
      (split; [reflexivity | unfold same_settings; auto]).
Qed.

Section Registration.

Variable call : nat -> receiver -> list value -> M value.

(** An event nobody listens to is emitted without any call. *)
Lemma emit_to_nobody (event : string) (args directive : value) (st : EventEmitter) :
  allowed event st = true -> live event st = [] ->
  exists st',
    emit call event args directive st = Some (st', Normal (VArr []))
    /\ heap st' = heap st
    /\ (forall other, live other st' = live other st)
    /\ same_settings st st'.
Proof.
  intros Ha Hl. destruct (listeners_allowed _ _ Ha) as (st0 & H & Hl0 & Hh & Hv & Ho).
  exists st0. unfold emit, erase, emit_traced. rewrite H, Hl0, Hl. simpl.
  repeat split; auto; apply (listeners_frame _ _ _ _ H).
Qed.

Lemma insert_frame (event : string) (f : nat) (options : value) (st : EventEmitter) :
  heap (insert event f options st)
  = heap st ++ [{| callback := f; count := option_count options |}]
  /\ live event (insert event f options st)
     = placed options (live event st) [List.length (heap st)]
  /\ (forall other, other <> event ->
                    live other (insert event f options st) = live other st)
  /\ same_settings st (insert event f options st).
Proof.
  unfold insert, placed. repeat split.
  - rewrite live_set_live_same. simpl.
    now destruct (option_prepend options).
  - intros other Hne. now rewrite live_set_live_other by auto.
Qed.

Lemma addListener_each_batch (event : string) (options : value)
  (tail : list value) (fs : list nat) :
  event <> "newListener" ->
  forall index st,
    allowed "newListener" st = true ->
    live "newListener" st = [] ->
    exists st',
      addListener_each call event (map VFun fs ++ tail) index options st
      = addListener_each call event tail (index + List.length fs) options st'
      /\ heap st' = heap st ++ records_for options fs
      /\ live event st'
         = placed options (live event st)
             (seq (List.length (heap st)) (List.length fs))
      /\ (forall other, other <> event -> live other st' = live other st)
      /\ same_settings st st'.
Proof.
  intros Hne. induction fs as [|f fs IH]; intros index st Han Hn.
  - exists st. simpl. rewrite Nat.add_0_r, app_nil_r. unfold placed.
    repeat split; auto using same_settings_refl.
    destruct (option_prepend options); simpl; now rewrite ?app_nil_r.
  - destruct (emit_to_nobody "newListener" (VArr [VStr event; VFun f; options])
                VUndefined st Han Hn) as (st1 & He & Hh1 & Hl1 & Hs1).
    destruct (insert_frame event f options st1) as (Hh2 & Hl2 & Ho2 & Hs2).
    set (st2 := insert event f options st1) in *.
    destruct (IH (S index) st2) as (st' & Hrun & Hh' & Hl' & Ho' & Hs').
    + unfold allowed in *. destruct Hs1 as (_ & Hv1 & _). destruct Hs2 as (_ & Hv2 & _).
      now rewrite Hv2, Hv1.
    + rewrite Ho2 by (intros E; now apply Hne). rewrite Hl1. exact Hn.
    + exists st'. split; [|split; [|split; [|split]]].
      * simpl. unfold bind at 1. rewrite He. unfold bind, modify at 1. fold st2.
        rewrite Hrun. f_equal. lia.
      * rewrite Hh', Hh2, Hh1. unfold records_for. simpl.
        now rewrite <- app_assoc.
      * rewrite Hl', Hl2, Hh2, Hh1, Hl1, length_app. simpl.
        rewrite Nat.add_1_r. unfold placed.
        destruct (option_prepend options); simpl.
        -- now rewrite <- app_assoc.
        -- now rewrite <- app_assoc.
      * intros other Ho. rewrite Ho', Ho2, Hl1; auto.
      * eapply same_settings_trans; [exact Hs1|].
        eapply same_settings_trans; [exact Hs2 | exact Hs'].
Qed.


(** The registrations of a first part of the batch, when they go through,
    leave the second part to be registered from where they ended. *)
Lemma addListener_each_app (event : string) (options : value) (tail : list value)
  (fs : list nat) :
  forall index st st1,
    addListener_each call event (map VFun fs) index options st = Some (st1, Normal tt) ->
    addListener_each call event (map VFun fs ++ tail) index options st
    = addListener_each call event tail (index + List.length fs) options st1.
Proof.
  induction fs as [|f fs IH]; intros index st st1; simpl.
  - intros H. inversion H; subst. now rewrite Nat.add_0_r.
  - unfold bind, modify.
    destruct (emit call "newListener" _ _ st) as [[s1 [v|e]]|]; try discriminate.
    intros H. rewrite (IH _ _ _ H). f_equal. lia.
Qed.

(** X3: an entry of the list that is not a function makes [addListener]
    throw [InvalidListener] with the position of that entry, once the
    entries before it have been registered, and in the very state their
    registration left: nothing is undone, the entries behind it are not
    looked at, and the check for too many listeners is not reached. When
    nobody listens to [newListener], the functions before the entry are
    thus in the live array, and no warning has been issued. *)
Theorem addListener_invalid_entry (event : string) (fs : list nat) (v : value)
  (rest : list value) (options : value) (st : EventEmitter) :
  is_function v = false ->
  (forall st0 l st1,
      listeners event st = Some (st0, Normal l) ->
      addListener_each call event (map VFun fs) 0 options st0 = Some (st1, Normal tt) ->
      addListener call event (VArr (map VFun fs ++ v :: rest)) options st
      = Some (st1, Throw (VError InvalidListener [VNum (of_nat (List.length fs)); v])))
  /\ (event <> "newListener" ->
      allowed event st = true ->
      allowed "newListener" st = true ->
      live "newListener" st = [] ->
      exists st',
        addListener call event (VArr (map VFun fs ++ v :: rest)) options st
        = Some (st', Throw (VError InvalidListener [VNum (of_nat (List.length fs)); v]))
        /\ live event st'
           = placed options (live event st)
               (seq (List.length (heap st)) (List.length fs))
        /\ _warnings st' = _warnings st
        /\ warned st' = warned st).
Proof.
  intros Hv. split.
  - intros st0 l st1 L Hrun.
    unfold addListener, bind at 1. rewrite L. simpl.
    unfold bind. rewrite (addListener_each_app _ _ _ _ _ _ _ Hrun). simpl.
    destruct v; try reflexivity. discriminate.
  - intros Hne Ha Han Hn.
    destruct (listeners_allowed _ _ Ha) as (st0 & H0 & Hl0 & Hh0 & Hv0 & Ho0).
    destruct (listeners_frame _ _ _ _ H0) as (_ & _ & _ & Hw0 & Hd0 & _).
    destruct (addListener_each_batch event options (v :: rest) fs Hne 0 st0)
      as (st1 & Hrun & Hh1 & Hl1 & Ho1 & (_ & _ & Hw1 & Hd1 & _)).
    + unfold allowed in *. now rewrite Hv0.
    + now rewrite Ho0.
    + exists st1. split; [|split; [|split]].
      * unfold addListener, bind at 1. rewrite H0. simpl.
        unfold bind. rewrite Hrun. simpl. destruct v; try reflexivity. discriminate.
      * now rewrite Hl1, Hl0, Hh0.
      * now rewrite Hw1, Hw0.
      * now rewrite Hd1, Hd0.
Qed.

Lemma addListener_batch_state (event : string) (fs : list nat) (options : value)
  (st : EventEmitter) :
  event <> "newListener" ->
  allowed event st = true ->
  allowed "newListener" st = true ->
  live "newListener" st = [] ->
  exists st1,
    addListener call event (VArr (map VFun fs)) options st
    = Some (check_leak event st1, Normal tt)
    /\ heap st1 = heap st ++ records_for options fs
    /\ live event st1
       = placed options (live event st)
           (seq (List.length (heap st)) (List.length fs))
    /\ (forall other, other <> event -> live other st1 = live other st)
    /\ same_settings st st1.
Proof.
  intros Hne Ha Han Hn.
  destruct (listeners_allowed _ _ Ha) as (st0 & H0 & Hl0 & Hh0 & Hv0 & Ho0).
  destruct (listeners_frame _ _ _ _ H0) as (_ & Hs0).
  destruct (addListener_each_batch event options [] fs Hne 0 st0)
    as (st1 & Hrun & Hh1 & Hl1 & Ho1 & Hs1).
  - unfold allowed in *. now rewrite Hv0.
  - now rewrite Ho0.
  - exists st1. split; [|split; [|split; [|split]]].
    + unfold addListener, bind at 1. rewrite H0. simpl.
      rewrite app_nil_r in Hrun. unfold bind. rewrite Hrun. reflexivity.
    + now rewrite Hh1, Hh0.
    + now rewrite Hl1, Hl0, Hh0.
    + intros other Ho. now rewrite Ho1, Ho0.
    + eapply same_settings_trans; eauto.
Qed.

Lemma placed_length (options : value) (old new : list nat) :
  List.length (placed options old new) = List.length old + List.length new.
Proof.
  unfold placed. destruct (option_prepend options);
    rewrite length_app, ?length_rev; lia.
Qed.

(** X4: [addListener] looks at the number of listeners once, after the
    whole list has been registered, and at the live array as it is then,
    whatever the listeners of [newListener] did to it. When that number
    exceeds the maximum and no warning was issued for the event before, one
    warning is issued, with that number, and the event is remembered;
    otherwise nothing is issued. When nobody listens to [newListener], the
    number is that of the listeners there were plus the length of the
    list. *)
Theorem addListener_warns (event : string) (fs : list nat) (options : value)
  (st : EventEmitter) :
  (forall st0 l st1,
      listeners event st = Some (st0, Normal l) ->
      addListener_each call event (map VFun fs) 0 options st0 = Some (st1, Normal tt) ->
      let n := List.length (live event st1) in
      exists st',
        addListener call event (VArr (map VFun fs)) options st = Some (st', Normal tt)
        /\ heap st' = heap st1
        /\ _events st' = _events st1
        /\ (gt (of_nat n) (_maxListeners st1) = true -> ~ In event (_warnings st1) ->
            warned st' = warned st1 ++ [leak_warning n event]
            /\ _warnings st' = _warnings st1 ++ [event])
        /\ (gt (of_nat n) (_maxListeners st1) = false \/ In event (_warnings st1) ->
            warned st' = warned st1 /\ _warnings st' = _warnings st1))
  /\ (event <> "newListener" ->
      allowed event st = true ->
      allowed "newListener" st = true ->
      live "newListener" st = [] ->
      let n := List.length (live event st) + List.length fs in
      exists st',
        addListener call event (VArr (map VFun fs)) options st = Some (st', Normal tt)
        /\ List.length (live event st') = n
        /\ (gt (of_nat n) (_maxListeners st) = true -> ~ In event (_warnings st) ->
            warned st' = warned st ++ [leak_warning n event]
            /\ _warnings st' = _warnings st ++ [event])
        /\ (gt (of_nat n) (_maxListeners st) = false \/ In event (_warnings st) ->
            warned st' = warned st /\ _warnings st' = _warnings st)).
Proof.
  split.
  - intros st0 l st1 L Hrun n.
    exists (check_leak event st1). split; [|split; [|split; [|split]]].
    + unfold addListener, bind at 1. rewrite L. simpl.
      unfold bind. rewrite Hrun. reflexivity.
    + apply check_leak_same.
    + apply check_leak_same.
    + intros Hgt Hnot. unfold check_leak. fold n. rewrite Hgt.
      apply includes_not_In in Hnot. rewrite Hnot. simpl. auto.
    + intros Hcase. unfold check_leak. fold n. destruct Hcase as [Hgt|Hin].
      * rewrite Hgt. simpl. auto.
      * apply includes_In in Hin. rewrite Hin, andb_false_r. auto.
  - intros Hne Ha Han Hn n.
    destruct (addListener_batch_state event fs options st Hne Ha Han Hn)
      as (st1 & Hrun & Hh & Hl & Ho & (Hm & Hv & Hw & Hd & Hc)).
    assert (Hlen : List.length (live event st1) = n).
    { rewrite Hl, placed_length, length_seq. reflexivity. }
    exists (check_leak event st1). split; [exact Hrun|]. split; [|split].
    + now rewrite live_check_leak.
    + intros Hgt Hnot. unfold check_leak. rewrite Hlen, Hm, Hgt, Hw.
      apply includes_not_In in Hnot. rewrite Hnot. simpl.
      unfold push, leak_warning. now rewrite Hd, Hw.
    + intros Hcase. unfold check_leak. rewrite Hlen, Hm, Hw.
      destruct Hcase as [Hgt|Hin].
      * rewrite Hgt. simpl. auto.
      * apply includes_In in Hin. rewrite Hin, andb_false_r. auto.
Qed.

End Registration.

Lemma of_nat_gt (a b : nat) : gt (of_nat a) (of_nat b) = (b <? a).
Proof.
  unfold gt, of_nat, lt.
  destruct (Nat.ltb_spec b a) as [H|H].
  - apply Qltb_lt. rewrite <- Zlt_Qlt. lia.
  - apply Qltb_ge. rewrite <- Zle_Qle. lia.
Qed.

Section Overflow.

Variable call : nat -> receiver -> list value -> M value.

Lemma on_as_batch (event : string) (f : nat) (options : value) :
  on call event (VFun f) options
  = addListener call event (VArr (map VFun [f])) (with_count options PosInfinity).
Proof. reflexivity. Qed.

(** X5: listeners are registered one at a time with [on], on an event that
    has not exceeded the maximum [m] and has had no warning. The warning is
    issued exactly once, by the registration that brings the number of
    listeners to [m + 1], and it carries that number; the registrations
    after it issue none. For an event that has had its warning, none is
    issued at all. *)
Theorem on_each_warns (event : string) (options : value) (m : nat) (fs : list nat) :
  event <> "newListener" ->
  forall st,
    allowed event st = true ->
    allowed "newListener" st = true ->
    live "newListener" st = [] ->
    _maxListeners st = of_nat m ->
    exists st',
      on_each call event fs options st = Some (st', Normal tt)
      /\ List.length (live event st') = List.length (live event st) + List.length fs
      /\ (In event (_warnings st) ->
          warned st' = warned st /\ _warnings st' = _warnings st)
      /\ (~ In event (_warnings st) ->
          List.length (live event st) <= m ->
          if m <? List.length (live event st) + List.length fs
          then warned st' = warned st ++ [leak_warning (S m) event]
               /\ _warnings st' = _warnings st ++ [event]
          else warned st' = warned st /\ _warnings st' = _warnings st).
Proof.
  intros Hne. induction fs as [|f fs IH]; intros st Ha Han Hn Hm.
  - exists st. simpl. rewrite Nat.add_0_r. repeat split; auto.
    intros _ Hle. destruct (Nat.ltb_spec m (List.length (live event st))); auto. lia.
  - destruct (addListener_batch_state call event [f] (with_count options PosInfinity)
                st Hne Ha Han Hn)
      as (st1 & Hrun & Hh1 & Hl1 & Ho1 & (Hm1 & Hv1 & Hw1 & Hd1 & Hc1)).
    assert (Hlen1 : List.length (live event st1) = S (List.length (live event st))).
    { rewrite Hl1, placed_length. simpl. lia. }
    set (st2 := check_leak event st1) in *.
    assert (Hlive2 : forall other, live other st2 = live other st1)
      by (intros; apply live_check_leak).
    destruct (check_leak_same event st1) as (Hh2 & _ & Hv2). fold st2 in Hh2, Hv2.
    assert (Hm2 : _maxListeners st2 = of_nat m).
    { unfold st2, check_leak. destruct (_ && _); simpl; now rewrite Hm1. }
    destruct (IH st2) as (st' & Hrest & Hlen' & Hin' & Hout').
    + unfold allowed in *. now rewrite Hv2, Hv1.
    + unfold allowed in *. now rewrite Hv2, Hv1.
    + rewrite Hlive2, Ho1 by (intros E; now apply Hne). exact Hn.
    + exact Hm2.
    + exists st'. split; [|split; [|split]].
      * simpl. unfold bind. rewrite on_as_batch, Hrun. exact Hrest.
      * rewrite Hlen', Hlive2, Hlen1. simpl. lia.
      * intros Hin.
        assert (H2 : warned st2 = warned st /\ _warnings st2 = _warnings st).
        { unfold st2, check_leak. rewrite Hw1.
          apply includes_In in Hin. rewrite Hin, andb_false_r. auto. }
        destruct H2 as [Hd2 Hw2]. rewrite <- Hd2, <- Hw2.
        apply Hin'. now rewrite Hw2.
      * intros Hnot Hle. rewrite Hlive2, Hlen1 in Hout'.
        pose proof Hnot as Hnot'. apply includes_not_In in Hnot'.
        destruct (Nat.ltb_spec m (List.length (live event st))) as [Hlt|Hge]; [lia|].
        destruct (Nat.eq_dec (List.length (live event st)) m) as [Heq|Hneq].
        -- (* this registration crosses the maximum *)
           assert (H2 : warned st2 = warned st ++ [leak_warning (S m) event]
                        /\ _warnings st2 = _warnings st ++ [event]).
           { unfold st2, check_leak. rewrite Hlen1, Hm1, Hm, Hw1, of_nat_gt, Hnot'.
             rewrite Heq. destruct (Nat.ltb_spec m (S m)) as [_|]; [|lia].
             simpl. unfold push, leak_warning. now rewrite Hd1, Hw1. }
           destruct H2 as [Hd2 Hw2].
           destruct (Nat.ltb_spec m (List.length (live event st) + List.length (f :: fs)))
             as [_|Hc]; [|simpl in Hc; lia].
           rewrite <- Hd2, <- Hw2. apply Hin'. rewrite Hw2.
           apply in_or_app. right. now left.
        -- (* still within the maximum *)
           assert (H2 : warned st2 = warned st /\ _warnings st2 = _warnings st).
           { unfold st2, check_leak. rewrite Hlen1, Hm1, Hm, Hw1, of_nat_gt.
             destruct (Nat.ltb_spec m (S (List.length (live event st)))) as [|_];
               [lia|]. simpl. auto. }
           destruct H2 as [Hd2 Hw2].
           rewrite Hw2 in Hout'. specialize (Hout' Hnot ltac:(lia)).
           replace (List.length (live event st) + List.length (f :: fs))
             with (S (List.length (live event st)) + List.length fs) by (simpl; lia).
           rewrite <- Hd2, <- Hw2.
           destruct (_ <? _); rewrite ?Hw2, ?Hd2 in *; exact Hout'.
Qed.

End Overflow.

(** ** Dispatch under a directive *)

Section Directives.

Variable call : nat -> receiver -> list value -> M value.





End Directives.

(** ** The bookkeeping of counts *)

Lemma filter_all {A} (p : A -> bool) (l : list A) :
  (forall x, In x l -> p x = true) -> filter p l = l.
Proof.
  induction l as [|y l IH]; simpl; intros H; [reflexivity|].
  rewrite (H y) by auto. f_equal. apply IH. auto.
Qed.

Lemma filter_filter {A} (p q : A -> bool) (l : list A) :
  filter p (filter q l) = filter (fun x => q x && p x) l.
Proof.
  induction l as [|y l IH]; simpl; [reflexivity|].
  destruct (q y); simpl; [destruct (p y)|]; now rewrite IH.
Qed.

Lemma splice1_indexOf (l : list nat) (r : nat) :
  forall i, NoDup l -> indexOf l r = Some i ->
            splice1 i l = filter (fun x => negb (x =? r)) l.
Proof.
  induction l as [|y l IH]; simpl; intros i Hnd H; [discriminate|].
  inversion Hnd; subst.
  destruct (Nat.eqb_spec y r) as [->|Hne].
  - inversion H; subst. rewrite splice1_0. simpl.
    symmetry. apply filter_all. intros x Hx.
    apply negb_true_iff, Nat.eqb_neq. intros ->. contradiction.
  - destruct (indexOf l r) as [j|] eqn:E; [|discriminate]. inversion H; subst.
    rewrite splice1_S. simpl. f_equal. now apply IH.
Qed.

Lemma expire_registry (event : string) (r : nat) (s s' : EventEmitter) :
  heap s' = heap s -> _events s' = _events s ->
  heap (expire event r s') = heap (expire event r s)
  /\ _events (expire event r s') = _events (expire event r s).
Proof.
  intros Hh He. unfold expire, set_count, lookup, live, set_live. simpl.
  rewrite Hh, He.
  destruct (lt _ one); simpl; rewrite ?Hh, ?He; auto.
  destruct (get (_events s) event) as [l|]; simpl.
  - destruct (indexOf l r); simpl; rewrite ?Hh, ?He; auto.
  - rewrite ?Hh, ?He; auto.
Qed.

Lemma expire_all_registry (event : string) (rs : list nat) :
  forall s s',
    heap s' = heap s -> _events s' = _events s ->
    heap (expire_all event rs s') = heap (expire_all event rs s)
    /\ _events (expire_all event rs s') = _events (expire_all event rs s).
Proof.
  induction rs as [|r rs IH]; intros s s' Hh He; simpl; [auto|].
  destruct (expire_registry event r s s' Hh He). now apply IH.
Qed.

Lemma expire_all_app (event : string) (rs1 rs2 : list nat) (st : EventEmitter) :
  expire_all event (rs1 ++ rs2) st = expire_all event rs2 (expire_all event rs1 st).
Proof. unfold expire_all. apply fold_left_app. Qed.

(** What one pass through the first lines of the loop body does. *)
Lemma expire_spec (event : string) (r : nat) (st : EventEmitter) :
  NoDup (live event st) -> r < List.length (heap st) ->
  List.length (heap (expire event r st)) = List.length (heap st)
  /\ (forall x, lookup (expire event r st) x
                = if x =? r then decremented st r else lookup st x)
  /\ live event (expire event r st)
     = filter (fun x => negb ((x =? r) && negb (remaining st r))) (live event st)
  /\ (forall other, other <> event ->
                    live other (expire event r st) = live other st).
Proof.
  intros Hnd Hr. unfold expire, remaining.
  set (c := decr (count (lookup st r))).
  set (st1 := set_count st r c).
  assert (Hlen : List.length (heap st1) = List.length (heap st))
    by (unfold st1, set_count; simpl; apply update_length).
  assert (Hlook : forall x, lookup st1 x
                            = if x =? r then decremented st r else lookup st x).
  { intros x. unfold st1, set_count, lookup. simpl.
    destruct (Nat.eqb_spec x r) as [->|Hne].
    - now rewrite nth_update_same.
    - now rewrite nth_update_other. }
  assert (Hl1 : forall ev, live ev st1 = live ev st) by reflexivity.
  destruct (lt c one) eqn:E; simpl.
  - destruct (indexOf (live event st1) r) as [i|] eqn:I.
    + repeat split; auto.
      * rewrite live_set_live_same, Hl1. rewrite Hl1 in I.
        rewrite (splice1_indexOf _ _ _ Hnd I).
        apply filter_ext. intros x. now rewrite andb_true_r.
      * intros other Hne. now rewrite live_set_live_other.
    + repeat split; auto.
      rewrite Hl1 in *. apply indexOf_none in I.
      symmetry. apply filter_all. intros x Hx.
      rewrite andb_true_r. apply negb_true_iff, Nat.eqb_neq. intros ->. contradiction.
  - repeat split; auto.
    rewrite Hl1. symmetry. apply filter_all. intros x _.
    now rewrite andb_false_r.
Qed.

Lemma expire_all_spec (event : string) (rs : list nat) :
  forall st,
    NoDup rs -> NoDup (live event st) ->
    (forall r, In r rs -> r < List.length (heap st)) ->
    List.length (heap (expire_all event rs st)) = List.length (heap st)
    /\ (forall x, lookup (expire_all event rs st) x
                  = if existsb (Nat.eqb x) rs then decremented st x else lookup st x)
    /\ live event (expire_all event rs st)
       = filter (fun x => negb (existsb (Nat.eqb x) rs && negb (remaining st x)))
           (live event st)
    /\ (forall other, other <> event ->
                      live other (expire_all event rs st) = live other st).
Proof.
  induction rs as [|r rs IH]; intros st Hrs Hnd Hb; simpl.
  - repeat split; auto. symmetry. apply filter_all. auto.
  - inversion Hrs as [|? ? Hnotin Hrs']; subst.
    destruct (expire_spec event r st Hnd (Hb r (or_introl eq_refl)))
      as (Hlen1 & Hlook1 & Hlive1 & Hother1).
    set (st1 := expire event r st) in *.
    destruct (IH st1 Hrs') as (Hlen & Hlook & Hlive & Hother).
    + rewrite Hlive1. apply NoDup_filter. exact Hnd.
    + intros x Hx. rewrite Hlen1. apply Hb. now right.
    + assert (Hfresh : forall x, existsb (Nat.eqb x) rs = true -> (x =? r) = false).
      { intros x Hx. apply Nat.eqb_neq. intros ->.
        apply existsb_exists in Hx. destruct Hx as (y & Hy & E).
        apply Nat.eqb_eq in E. subst. contradiction. }
      assert (Hdec : forall x, (x =? r) = false -> decremented st1 x = decremented st x).
      { intros x Hx. unfold decremented. now rewrite Hlook1, Hx. }
      assert (Hrem : forall x, (x =? r) = false -> remaining st1 x = remaining st x).
      { intros x Hx. unfold remaining. now rewrite Hlook1, Hx. }
      split; [lia|]. split; [|split].
      * intros x. rewrite Hlook, Hlook1.
        destruct (existsb (Nat.eqb x) rs) eqn:Ex.
        -- rewrite Hdec by auto. rewrite (Hfresh x Ex). reflexivity.
        -- destruct (x =? r) eqn:Exr; simpl.
           ++ apply Nat.eqb_eq in Exr. subst. reflexivity.
           ++ reflexivity.
      * rewrite Hlive, Hlive1, filter_filter. apply filter_ext. intros x.
        destruct (x =? r) eqn:Exr; simpl.
        -- apply Nat.eqb_eq in Exr. subst.
           destruct (existsb (Nat.eqb r) rs) eqn:Ex.
           ++ pose proof (Hfresh r Ex) as F. rewrite Nat.eqb_refl in F. discriminate.
           ++ simpl. now rewrite andb_true_r.
        -- rewrite Hrem by auto. reflexivity.
      * intros other Ho. rewrite Hother, Hother1; auto.
Qed.

Lemma listeners_throws (event : string) (st st0 : EventEmitter) (e : value) :
  listeners event st = Some (st0, Throw e) -> st0 = st.
Proof.
  unfold listeners. destruct (_ && _).
  - intros H. now inversion H.
  - destruct (get _ _); discriminate.
Qed.

Section Bookkeeping.

Variable call : nat -> receiver -> list value -> M value.

Hypothesis call_quiet : quiet call.

Lemma handleError_quiet (results : list value) (error directive : value)
  (index : option nat) (st st' : EventEmitter) (c : completion (list value)) :
  handleError call results error directive index st = Some (st', c) ->
  heap st' = heap st /\ _events st' = _events st.
Proof.
  unfold handleError.
  assert (H : forall k : value -> M (list value),
             (forall v s s' c', k v s = Some (s', c') -> s' = s) ->
             (retval <- invoke call directive ThisUndefined [error];; k retval) st
             = Some (st', c) ->
             heap st' = heap st /\ _events st' = _events st).
  { intros k Hk. unfold bind, invoke.
    destruct directive; try (intros H; inversion H; auto; fail).
    destruct (call f ThisUndefined [error] st) as [[s1 [v|e]]|] eqn:C;
      [| |discriminate].
    - intros H. apply Hk in H. subst. eapply call_quiet; eauto.
    - intros H. inversion H; subst. eapply call_quiet; eauto. }
  assert (Hk : forall v s s' c',
             match v with
             | VUndefined => ret (drop_slot results index)
             | _ => ret (setval results index v)
             end s = Some (s', c') -> s' = s).
  { intros v s s' c' E. destruct v; inversion E; auto. }
  destruct directive; try (apply H; exact Hk);
    try (intros E; inversion E; auto; fail).
  destruct b; [apply H; exact Hk | intros E; inversion E; auto].
Qed.

Lemma emit_loop_quiet (event : string) (args : list value) (directive : value)
  (snapshot : list nat) :
  forall results invoked st st' invoked' c reg,
    heap st = heap reg -> _events st = _events reg ->
    emit_loop call snapshot event args directive results invoked st
    = Some (st', invoked', c) ->
    exists n,
      invoked' = invoked ++ firstn n snapshot
      /\ heap st' = heap (expire_all event (firstn n snapshot) reg)
      /\ _events st' = _events (expire_all event (firstn n snapshot) reg).
Proof.
  induction snapshot as [|r rest IH];
    intros results invoked st st' invoked' c reg Hh He; simpl.
  - intros H. inversion H; subst. exists 0. simpl. now rewrite app_nil_r.
  - destruct (expire_registry event r reg st Hh He) as [Hh1 He1].
    assert (Hstep : forall st2 results2,
               heap st2 = heap (expire event r st) ->
               _events st2 = _events (expire event r st) ->
               emit_loop call rest event args directive results2 (push invoked r) st2
               = Some (st', invoked', c) ->
               exists n,
                 invoked' = invoked ++ firstn n (r :: rest)
                 /\ heap st' = heap (expire_all event (firstn n (r :: rest)) reg)
                 /\ _events st' = _events (expire_all event (firstn n (r :: rest)) reg)).
    { intros st2 results2 Hh2 He2 H.
      apply (IH _ _ _ _ _ _ (expire event r reg)) in H;
        [|now rewrite Hh2 | now rewrite He2].
      destruct H as (n & -> & Hh' & He').
      exists (S n). unfold push. rewrite <- app_assoc. simpl. auto. }
    destruct (call _ _ _ _) as [[st2 [v|error]]|] eqn:C; [| |discriminate];
      apply call_quiet in C; destruct C as [Hh2 He2].
    + apply Hstep; auto.
    + destruct (handleError _ _ _ _ _ _) as [[st3 [results'|e]]|] eqn:E;
        [| |discriminate]; apply handleError_quiet in E; destruct E as [Hh3 He3].
      * apply Hstep; congruence.
      * intros H. inversion H; subst. exists 1. simpl. unfold push.
        repeat split; congruence.
Qed.

Lemma emit_registry_effect (event : string) (args directive : value)
  (st st' : EventEmitter) (invoked : list nat) (c : completion value) :
  sound st ->
  emit_traced call event args directive st = Some (st', invoked, c) ->
  (forall x, lookup st' x
             = if existsb (Nat.eqb x) invoked then decremented st x else lookup st x)
  /\ live event st'
     = filter (fun x => negb (existsb (Nat.eqb x) invoked && negb (remaining st x)))
         (live event st)
  /\ (forall other, other <> event -> live other st' = live other st)
  /\ ((exists v, c = Normal v) ->
      live event st' = filter (remaining st) (live event st)).
Proof.
  intros Hs H.
  assert (Hreg : exists st0 n,
             invoked = firstn n (live event st)
             /\ heap st0 = heap st
             /\ (forall ev, live ev st0 = live ev st)
             /\ heap st' = heap (expire_all event invoked st0)
             /\ _events st' = _events (expire_all event invoked st0)).
  { unfold emit_traced in H.
    destruct (listeners event st) as [[st0 [l|e]]|] eqn:L; [| |discriminate].
    - destruct (listeners_live _ _ _ _ L) as [-> Ha].
      destruct (listeners_allowed _ _ Ha) as (st0' & L' & Hl0 & Hh0 & _ & Ho0).
      rewrite L in L'. inversion L'; subst st0'.
      destruct (emit_loop _ _ _ _ _ _ _ _) as [[[st1 inv] c1]|] eqn:E; [|discriminate].
      assert (inv = invoked /\ st1 = st') as [-> ->]
        by (destruct c1; inversion H; auto).
      destruct (emit_loop_quiet _ _ _ _ _ _ _ _ _ _ st0 eq_refl eq_refl E)
        as (n & Hi & Hh & He).
      simpl in Hi. exists st0, n. rewrite Hi, <- Hl0. repeat split; auto.
    - apply listeners_throws in L. inversion H; subst.
      exists st', 0. simpl. repeat split; auto. }
  destruct Hreg as (st0 & n & Hinv & Hh0 & Hl0 & Hh & He).
  assert (Hnd : NoDup invoked).
  { rewrite Hinv. apply NoDup_prefix, Hs. }
  destruct (expire_all_spec event invoked st0 Hnd) as (_ & Hlook & Hlive & Hother).
  - rewrite Hl0. apply Hs.
  - intros r Hr. rewrite Hh0. apply (Hs event). rewrite Hinv in Hr.
    rewrite <- (firstn_skipn n (live event st)). apply in_or_app. now left.
  - assert (Hk0 : forall x, lookup st0 x = lookup st x)
      by (intros; unfold lookup; now rewrite Hh0).
    assert (Hk : forall x, lookup st' x = lookup (expire_all event invoked st0) x)
      by (intros; unfold lookup; now rewrite Hh).
    assert (Hl : forall ev, live ev st' = live ev (expire_all event invoked st0))
      by (intros; unfold live; now rewrite He).
    assert (Hd : forall x, decremented st0 x = decremented st x)
      by (intros; unfold decremented; now rewrite Hk0).
    assert (Hr : forall x, remaining st0 x = remaining st x)
      by (intros; unfold remaining; now rewrite Hk0).
    assert (Hlive' : live event st'
                     = filter (fun x => negb (existsb (Nat.eqb x) invoked
                                              && negb (remaining st x)))
                         (live event st)).
    { rewrite Hl, Hlive, Hl0. apply filter_ext. intros x. now rewrite Hr. }
    split; [|split; [exact Hlive' | split]].
    + intros x. rewrite Hk, Hlook, Hd, Hk0. reflexivity.
    + intros other Ho. rewrite Hl, Hother, Hl0; auto.
    + intros Hc. rewrite Hlive'.
      destruct (emit_traced_prefix _ _ _ _ _ _ _ _ H) as (_ & Hall).
      destruct Hc as [v Hv]. rewrite (Hall v Hv).
      apply filter_ext_in. intros x Hx.
      assert (Hex : existsb (Nat.eqb x) (live event st) = true).
      { apply existsb_exists. exists x. split; [exact Hx | apply Nat.eqb_refl]. }
      rewrite Hex. simpl. now rewrite negb_involutive.
Qed.

(** X7: listeners that leave the registry alone. When a call of [emit]
    returns, every listener of the array taken at the start has been
    called, in turn, and what the call has done to the registry is the
    bookkeeping of the loop alone: each record of that array has had its
    count decremented once, by [--count], and keeps its callback, every
    other record is untouched, the live array of the event is what is left
    of it when the records whose count fell below one are taken out, the
    others staying in place, and the other events keep their listeners. When
    the call throws, this holds of the records of an initial part of the
    array, those the loop had reached. *)
Theorem emit_bookkeeping (event : string) (args directive : value)
  (st st0 st' : EventEmitter) (snapshot : list nat) (c : completion value) :
  sound st ->
  listeners event st = Some (st0, Normal snapshot) ->
  emit call event args directive st = Some (st', c) ->
  (forall other, other <> event -> live other st' = live other st)
  /\ (forall v,
        c = Normal v ->
        (exists outs results,
            v = VArr results
            /\ List.length outs = List.length snapshot
            /\ dispatched call event (arguments args) directive snapshot [] st0
                 outs results st')
        /\ (forall x, lookup st' x
                      = if existsb (Nat.eqb x) snapshot
                        then decremented st x else lookup st x)
        /\ live event st' = filter (remaining st) (live event st))
  /\ (forall e,
        c = Throw e ->
        exists reached rest,
          snapshot = reached ++ rest
          /\ (forall x, lookup st' x
                        = if existsb (Nat.eqb x) reached
                          then decremented st x else lookup st x)
          /\ live event st'
             = filter (fun x => negb (existsb (Nat.eqb x) reached
                                      && negb (remaining st x)))
                 (live event st)).
Proof.
  intros Hs L H.
  assert (Hsnap : snapshot = live event st).
  { destruct (listeners_live _ _ _ _ L) as [-> Ha].
    destruct (listeners_allowed _ _ Ha) as (st1 & L' & Hl & _).
    rewrite L in L'. inversion L'; subst st1. exact Hl. }
  assert (Ht : exists invoked,
             emit_traced call event args directive st = Some (st', invoked, c)).
  { unfold emit, erase in H.
    destruct (emit_traced _ _ _ _ _) as [[[s1 inv] c1]|]; inversion H.
    now exists inv. }
  destruct Ht as (invoked & Ht).
  destruct (emit_registry_effect _ _ _ _ _ _ _ Hs Ht) as (Hk & Hl & Ho & Hn).
  destruct (emit_traced_prefix _ _ _ _ _ _ _ _ Ht) as ((n & Hpre) & Hall).
  split; [exact Ho | split].
  - intros v ->. rewrite <- (Hall v eq_refl) in Hsnap. subst invoked.
    split; [|split; [exact Hk | apply Hn; now exists v]].
    destruct (emit_by_calls call event args directive st st0 snapshot L) as [_ Hfrom].
    destruct (Hfrom st' v H) as (outs & results & -> & D).
    exists outs, results. split; [reflexivity|]. split; [|exact D].
    exact (dispatched_length call _ _ _ _ _ _ _ _ _ D).
  - intros e _. exists invoked, (skipn n snapshot).
    split; [|split; [exact Hk | exact Hl]].
    rewrite Hpre, Hsnap. symmetry. apply firstn_skipn.
Qed.

Lemma quiet_evolves (f : nat) (this : receiver) (args : list value) :
  preserves (call f this args).
Proof.
  intros st st' c H. apply call_quiet in H. destruct H. now apply evolves_same.
Qed.

Lemma decr_of_nat (n : nat) :
  (Z.of_nat n < 2 ^ 53)%Z -> decr (of_nat (S n)) = of_nat n.
Proof.
  intros Hn. unfold decr, of_nat. f_equal.
  rewrite to_double_integer.
  - f_equal. unfold Qminus, Qplus, Qopp, inject_Z. cbn [Qnum Qden]. lia.
  - reflexivity.
  - unfold Qminus, Qplus, Qopp, inject_Z. cbn [Qnum Qden]. lia.
Qed.

(** From [2^53] on, not every whole number is a double: a count of [2^54]
    is left as it is by [--count], and one of [2^53 + 2] loses two. *)
Example decr_rounds :
  decr (Finite (inject_Z (2 ^ 54))) = Finite (inject_Z (2 ^ 54))
  /\ decr (Finite (inject_Z (2 ^ 53 + 2))) = Finite (inject_Z (2 ^ 53))
  /\ decr (Finite (1 # 2)) = Finite (- 1 # 2).
Proof. repeat split; vm_compute; reflexivity. Qed.

Lemma of_nat_below_one (n : nat) : lt (of_nat n) one = (n <? 1).
Proof. change one with (of_nat 1). apply (of_nat_gt 1 n). Qed.

(** A record that is not in the live array is not called by later calls
    of [emit], and stays out. *)
Lemma emit_times_absent (event : string) (args directive : value) (r : nat)
  (k : nat) :
  forall st st' invoked c,
    sound st -> ~ In r (live event st) ->
    emit_times call event args directive k st = Some (st', invoked, c) ->
    ~ In r invoked /\ ~ In r (live event st').
Proof.
  induction k as [|k IH]; intros st st' invoked c Hs Hout; simpl.
  - intros H. inversion H; subst. auto.
  - destruct (emit_traced call event args directive st)
      as [[[st1 inv] [v|e]]|] eqn:E; [| |discriminate].
    + pose proof (emit_traced_evolves call quiet_evolves _ _ _ _ _ _ _ E)
        as (_ & _ & _ & _ & Hs1).
      destruct (emit_traced_prefix _ _ _ _ _ _ _ _ E) as ((n & Hn) & _).
      destruct (emit_registry_effect _ _ _ _ _ _ _ Hs E) as (_ & Hl & _).
      assert (Hout1 : ~ In r (live event st1)).
      { rewrite Hl. intros Hin. apply filter_In in Hin. tauto. }
      destruct (emit_times _ _ _ _ k st1) as [[[st2 inv2] c2]|] eqn:T; [|discriminate].
      intros H. inversion H; subst.
      destruct (IH _ _ _ _ (Hs1 Hs) Hout1 T) as [Hi Ho].
      split; [|exact Ho]. intros Hin. apply in_app_or in Hin.
      destruct Hin as [Hin|Hin]; [|contradiction].
      apply Hout. rewrite <- (firstn_skipn n (live event st)).
      apply in_or_app. now left.
    + intros H. inversion H; subst.
      destruct (emit_traced_prefix _ _ _ _ _ _ _ _ E) as ((n & Hn) & _).
      destruct (emit_registry_effect _ _ _ _ _ _ _ Hs E) as (_ & Hl & _).
      split.
      * intros Hin. apply Hout. rewrite <- (firstn_skipn n (live event st)).
        apply in_or_app. left. now rewrite <- Hn.
      * rewrite Hl. intros Hin. apply filter_In in Hin. tauto.
Qed.

(** What [k] calls of [emit] in a row do to a record with a whole count
    [n]: the record is among those called [min k n] times. *)
Lemma emit_times_counts (event : string) (args directive : value)
  (r : nat) (k : nat) :
  forall n st st' invoked,
    sound st ->
    In r (live event st) ->
    0 < n ->
    (Z.of_nat n <= 2 ^ 53)%Z ->
    count (lookup st r) = of_nat n ->
    emit_times call event args directive k st = Some (st', invoked, Normal tt) ->
    count_occ Nat.eq_dec invoked r = Nat.min k n
    /\ (k < n -> In r (live event st')
                 /\ count (lookup st' r) = of_nat (n - k))
    /\ (n <= k -> ~ In r (live event st')).
Proof.
  induction k as [|k IH]; intros n st st' invoked Hs Hin Hn Hmax Hc; cbn [emit_times].
  - intros H. inversion H; subst. rewrite Nat.sub_0_r.
    repeat split; auto. lia.
  - destruct (emit_traced call event args directive st)
      as [[[st1 inv] [v|e]]|] eqn:E; [| |discriminate].
    2:{ intros H. inversion H. }
    pose proof (emit_traced_evolves call quiet_evolves _ _ _ _ _ _ _ E)
      as (_ & _ & _ & _ & Hs1).
    destruct (emit_traced_prefix _ _ _ _ _ _ _ _ E) as (_ & Hall).
    specialize (Hall v eq_refl). subst inv.
    destruct (emit_registry_effect _ _ _ _ _ _ _ Hs E) as (Hk & _ & _ & Hl).
    specialize (Hl (ex_intro _ v eq_refl)).
    assert (Hex : existsb (Nat.eqb r) (live event st) = true).
    { apply existsb_exists. exists r. split; [exact Hin | apply Nat.eqb_refl]. }
    assert (Hc1 : count (lookup st1 r) = of_nat (n - 1)).
    { rewrite Hk, Hex. unfold decremented. simpl. rewrite Hc.
      destruct n as [|n]; [lia|]. rewrite decr_of_nat by lia. f_equal. lia. }
    assert (Hrem : remaining st r = (2 <=? n)).
    { unfold remaining. rewrite Hc. destruct n as [|n]; [lia|].
      rewrite decr_of_nat by lia. rewrite of_nat_below_one.
      destruct n; reflexivity. }
    assert (Hocc : count_occ Nat.eq_dec (live event st) r = 1).
    { apply NoDup_count_occ'; [apply Hs | exact Hin]. }
    destruct (emit_times _ _ _ _ k st1) as [[[st2 inv2] c2]|] eqn:T; [|discriminate].
    intros H. inversion H; subst. clear H.
    rewrite count_occ_app, Hocc.
    destruct (Nat.leb_spec 2 n) as [Hge|Hlt].
    + assert (Hin1 : In r (live event st1)).
      { rewrite Hl. apply filter_In. split; [exact Hin | exact Hrem]. }
      destruct (IH (n - 1) st1 st' inv2 (Hs1 Hs) Hin1 ltac:(lia) ltac:(lia) Hc1 T)
        as (Ho & Hlt' & Hge').
      split; [rewrite Ho; lia|]. split.
      * intros Hkn. destruct (Hlt' ltac:(lia)) as [Hi Hcnt].
        split; [exact Hi|]. rewrite Hcnt. f_equal. lia.
      * intros Hkn. apply Hge'. lia.
    + assert (Hout1 : ~ In r (live event st1)).
      { rewrite Hl. intros Hf. apply filter_In in Hf. destruct Hf. congruence. }
      destruct (emit_times_absent _ _ _ _ _ _ _ _ _ (Hs1 Hs) Hout1 T) as [Hni Hno].
      apply (count_occ_not_In Nat.eq_dec) in Hni.
      split; [rewrite Hni; lia|]. split; [lia | auto].
Qed.

(** The records called by calls of [emit] in a row were in the live array
    at the start, and the records keep their callbacks. *)
Lemma emit_times_within (event : string) (args directive : value) (k : nat) :
  forall st st' invoked c,
    sound st ->
    emit_times call event args directive k st = Some (st', invoked, c) ->
    (forall x, In x invoked -> In x (live event st))
    /\ (forall x, callback (lookup st' x) = callback (lookup st x)).
Proof.
  induction k as [|k IH]; intros st st' invoked c Hs; cbn [emit_times].
  - intros H. inversion H; subst. split; [intros x []|reflexivity].
  - destruct (emit_traced call event args directive st)
      as [[[st1 inv] c1]|] eqn:E; [|discriminate].
    pose proof (emit_traced_evolves call quiet_evolves _ _ _ _ _ _ _ E)
      as (_ & _ & _ & _ & Hs1).
    destruct (emit_traced_prefix _ _ _ _ _ _ _ _ E) as ((n & Hn) & _).
    destruct (emit_registry_effect _ _ _ _ _ _ _ Hs E) as (Hk & Hl & _).
    assert (Hin1 : forall x, In x inv -> In x (live event st)).
    { intros x Hx. rewrite Hn in Hx.
      rewrite <- (firstn_skipn n (live event st)). apply in_or_app. now left. }
    assert (Hcb1 : forall x, callback (lookup st1 x) = callback (lookup st x)).
    { intros x. rewrite Hk. now destruct (existsb _ _). }
    destruct c1 as [v|e].
    + destruct (emit_times _ _ _ _ k st1) as [[[st2 inv2] c2]|] eqn:T; [|discriminate].
      intros H. inversion H; subst.
      destruct (IH _ _ _ _ (Hs1 Hs) T) as [Hin2 Hcb2]. split.
      * intros x Hx. apply in_app_or in Hx. destruct Hx as [Hx|Hx]; [auto|].
        apply Hin2 in Hx. rewrite Hl in Hx. now apply filter_In in Hx.
      * intros x. now rewrite Hcb2.
    + intros H. inversion H; subst. auto.
Qed.

End Bookkeeping.

(** *** Counting the runs of a listener *)

Lemma emit_repeatedly_times (call : nat -> receiver -> list value -> M value)
  (event : string) (args directive : value) (k : nat) :
  forall st,
    emit_repeatedly call event args directive k st
    = erase (emit_times call event args directive k) st.
Proof.
  induction k as [|k IH]; intros st; [reflexivity|].
  cbn [emit_repeatedly emit_times]. unfold bind, emit, erase.
  destruct (emit_traced call event args directive st) as [[[st1 inv] [v|e]]|];
    try reflexivity.
  rewrite IH. unfold erase.
  now destruct (emit_times call event args directive k st1) as [[[st2 inv2] c2]|].
Qed.

Lemma filter_count_occ (p : nat -> bool) (r : nat) (l : list nat) :
  (forall x, In x l -> p x = (x =? r)) ->
  List.length (filter p l) = count_occ Nat.eq_dec l r.
Proof.
  induction l as [|y l IH]; intros H; simpl; [reflexivity|].
  rewrite (H y) by now left.
  destruct (Nat.eqb_spec y r) as [Heq|Hne]; destruct (Nat.eq_dec y r) as [E|E];
    try congruence; simpl; rewrite IH; auto; intros x Hx; apply H; now right.
Qed.

Section Tally.

Variable call : nat -> receiver -> list value -> M value.
Variable mark : string.
Variable f0 : nat.

Hypothesis call_quiet : quiet call.
Hypothesis call_unmarked : unmarked mark call.

Lemma tallied_quiet : quiet (tallied mark f0 call).
Proof.
  intros f this args st st' c H. unfold tallied in H.
  apply call_quiet in H. now destruct (f =? f0).
Qed.

Lemma tallied_marks (f : nat) (this : receiver) (args : list value)
  (st st' : EventEmitter) (c : completion value) :
  tallied mark f0 call f this args st = Some (st', c) ->
  marks mark st' = marks mark st + (if f =? f0 then 1 else 0).
Proof.
  unfold tallied. intros H. apply call_unmarked in H. rewrite H.
  destruct (f =? f0); [|lia].
  unfold marks, print, push. simpl. rewrite count_occ_app. simpl.
  destruct (string_dec mark mark); [reflexivity | contradiction].
Qed.

Lemma handleError_marks (results : list value) (error directive : value)
  (index : option nat) (st st' : EventEmitter) (c : completion (list value)) :
  directive <> VFun f0 ->
  handleError (tallied mark f0 call) results error directive index st = Some (st', c) ->
  marks mark st' = marks mark st.
Proof.
  intros Hd. unfold handleError, invoke, bind, ret, throw.
  destruct directive as [| |[|]| | |h| | | | | |]; intros H;
    try (inversion H; reflexivity).
  destruct (tallied mark f0 call h ThisUndefined [error] st)
    as [[s1 [v|e]]|] eqn:C; [| |discriminate].
  - apply tallied_marks in C.
    destruct (Nat.eqb_spec h f0) as [->|Hne]; [congruence|].
    assert (s1 = st') by (destruct v; inversion H; reflexivity). subst. lia.
  - apply tallied_marks in C.
    destruct (Nat.eqb_spec h f0) as [->|Hne]; [congruence|].
    inversion H; subst. lia.
Qed.

Lemma emit_loop_marks (event : string) (args : list value) (directive : value)
  (cb : nat -> nat) (snapshot : list nat) :
  directive <> VFun f0 ->
  forall results invoked st st' invoked' c,
    (forall x, callback (lookup st x) = cb x) ->
    emit_loop (tallied mark f0 call) snapshot event args directive results invoked st
    = Some (st', invoked', c) ->
    exists called,
      invoked' = invoked ++ called
      /\ marks mark st'
         = marks mark st + List.length (filter (fun x => cb x =? f0) called).
Proof.
  intros Hd. induction snapshot as [|r rest IH];
    intros results invoked st st' invoked' c Hcb; simpl.
  - intros H. inversion H; subst. exists []. simpl. now rewrite app_nil_r.
  - destruct (expire_callback event r st) as [Hcon Hkeep].
    rewrite Hkeep, Hcb.
    assert (Hm1 : marks mark (expire event r st) = marks mark st)
      by (unfold marks; now rewrite Hcon).
    assert (Hstep : forall st2 results2,
               heap st2 = heap (expire event r st) ->
               marks mark st2 = marks mark st + (if cb r =? f0 then 1 else 0) ->
               emit_loop (tallied mark f0 call) rest event args directive results2
                 (push invoked r) st2
               = Some (st', invoked', c) ->
               exists called,
                 invoked' = invoked ++ called
                 /\ marks mark st'
                    = marks mark st
                      + List.length (filter (fun x => cb x =? f0) called)).
    { intros st2 results2 Hh Hm H. apply IH in H.
      - destruct H as (called & -> & Hm').
        exists (r :: called). unfold push. rewrite <- app_assoc. split; [reflexivity|].
        rewrite Hm', Hm. simpl. destruct (cb r =? f0); simpl; lia.
      - intros x. unfold lookup. rewrite Hh. fold (lookup (expire event r st) x).
        now rewrite Hkeep. }
    destruct (tallied mark f0 call (cb r) _ _ _) as [[st2 [v|error]]|] eqn:C;
      [| |discriminate].
    + pose proof (tallied_marks _ _ _ _ _ _ C) as Hm.
      apply tallied_quiet in C. destruct C as [Hh _].
      apply Hstep; [exact Hh | lia].
    + pose proof (tallied_marks _ _ _ _ _ _ C) as Hm.
      apply tallied_quiet in C. destruct C as [Hh _].
      destruct (handleError _ _ _ _ _ _) as [[st3 [results'|e]]|] eqn:E;
        [| |discriminate].
      * pose proof (handleError_marks _ _ _ _ _ _ _ Hd E) as Hm3.
        apply (handleError_quiet _ tallied_quiet) in E. destruct E as [Hh3 _].
        apply Hstep; [congruence | lia].
      * pose proof (handleError_marks _ _ _ _ _ _ _ Hd E) as Hm3.
        intros H. inversion H; subst. exists [r]. split; [reflexivity|].
        simpl. destruct (cb r =? f0); simpl; lia.
Qed.

Lemma emit_traced_marks (event : string) (args directive : value)
  (st st' : EventEmitter) (invoked : list nat) (c : completion value) :
  directive <> VFun f0 ->
  emit_traced (tallied mark f0 call) event args directive st = Some (st', invoked, c) ->
  marks mark st'
  = marks mark st
    + List.length (filter (fun x => callback (lookup st x) =? f0) invoked).
Proof.
  intros Hd. unfold emit_traced.
  destruct (listeners event st) as [[st0 [l|e]]|] eqn:L; [| |discriminate].
  - destruct (listeners_frame _ _ _ _ L) as (Hh & _ & _ & _ & _ & Hc).
    destruct (emit_loop _ _ _ _ _ _ _ _) as [[[st1 inv] c1]|] eqn:E; [|discriminate].
    apply (emit_loop_marks _ _ _ (fun x => callback (lookup st x)) _ Hd) in E.
    + destruct E as (called & -> & Hm). simpl.
      unfold marks in *. rewrite Hc in Hm.
      intros H. assert (st1 = st' /\ called = invoked) as [-> ->]
        by (destruct c1; inversion H; auto).
      exact Hm.
    + intros x. unfold lookup. now rewrite Hh.
  - destruct (listeners_frame _ _ _ _ L) as (_ & _ & _ & _ & _ & Hc).
    intros H. inversion H; subst. unfold marks. rewrite Hc. simpl. lia.
Qed.

Lemma emit_times_marks (event : string) (args directive : value) (k : nat) :
  directive <> VFun f0 ->
  forall st st' invoked c,
    sound st ->
    emit_times (tallied mark f0 call) event args directive k st
    = Some (st', invoked, c) ->
    marks mark st'
    = marks mark st
      + List.length (filter (fun x => callback (lookup st x) =? f0) invoked).
Proof.
  intros Hd. induction k as [|k IH]; intros st st' invoked c Hs; cbn [emit_times].
  - intros H. inversion H; subst. simpl. lia.
  - destruct (emit_traced _ event args directive st) as [[[st1 inv] c1]|] eqn:E;
      [|discriminate].
    pose proof (emit_traced_marks _ _ _ _ _ _ _ Hd E) as Hm.
    pose proof (emit_traced_evolves _ (quiet_evolves _ tallied_quiet) _ _ _ _ _ _ _ E)
      as (_ & _ & _ & _ & Hs1).
    destruct (emit_registry_effect _ tallied_quiet _ _ _ _ _ _ _ Hs E) as (Hk & _).
    destruct c1 as [v|e].
    + destruct (emit_times _ _ _ _ k st1) as [[[st2 inv2] c2]|] eqn:T; [|discriminate].
      intros H. inversion H; subst.
      rewrite (IH _ _ _ _ (Hs1 Hs) T), Hm, filter_app, length_app.
      rewrite (filter_ext (fun x => callback (lookup st1 x) =? f0)
                          (fun x => callback (lookup st x) =? f0)); [lia|].
      intros x. rewrite Hk. now destruct (existsb _ _).
    + intros H. inversion H; subst. exact Hm.
Qed.

(** X8: a function [f0] is registered once for the event, with a whole
    count [n] from one to [2^53], and is made to leave a mark on the
    console whenever it runs; the listeners leave the registry alone. After
    [k] calls of [emit] in a row that all return, there are exactly
    [min k n] more marks: [f0] has run once in each of the first [n] calls
    and in none after. Before the [n]-th call has run, its record is in the
    live array with the count [n - k]; from then on it is out of it. *)
Theorem count_is_number_of_calls (event : string) (args directive : value)
  (r k n : nat) (st st' : EventEmitter) :
  directive <> VFun f0 ->
  sound st ->
  In r (live event st) ->
  callback (lookup st r) = f0 ->
  (forall x, In x (live event st) -> x <> r -> callback (lookup st x) <> f0) ->
  0 < n ->
  (Z.of_nat n <= 2 ^ 53)%Z ->
  count (lookup st r) = of_nat n ->
  emit_repeatedly (tallied mark f0 call) event args directive k st
  = Some (st', Normal tt) ->
  marks mark st' = marks mark st + Nat.min k n
  /\ (k < n -> In r (live event st')
               /\ count (lookup st' r) = of_nat (n - k))
  /\ (n <= k -> ~ In r (live event st')).
Proof.
  intros Hd Hs Hin Hcb Honly Hn Hmax Hc H.
  rewrite emit_repeatedly_times in H. unfold erase in H.
  destruct (emit_times _ _ _ _ k st) as [[[s1 invoked] c1]|] eqn:T; [|discriminate].
  assert (s1 = st' /\ c1 = Normal tt) as [-> ->] by (inversion H; auto). clear H.
  destruct (emit_times_counts _ tallied_quiet _ _ _ _ _ _ _ _ _ Hs Hin Hn Hmax Hc T)
    as (Hocc & Hlt & Hge).
  split; [|split; [exact Hlt | exact Hge]].
  rewrite (emit_times_marks _ _ _ _ Hd _ _ _ _ Hs T). f_equal.
  rewrite <- Hocc. apply filter_count_occ.
  intros x Hx.
  destruct (emit_times_within _ tallied_quiet _ _ _ _ _ _ _ _ Hs T) as [Hwithin _].
  apply Hwithin in Hx.
  destruct (Nat.eqb_spec x r) as [->|Hne].
  - now apply Nat.eqb_eq.
  - apply Nat.eqb_neq. now apply Honly.
Qed.

End Tally.

(** ** Reconciliation when every promise is fulfilled *)

Lemma attach_sound (rs : list value) (n : nat) (w : reaction) :
  In w (attach rs n) ->
  index w < n /\ nth (index w) rs VUndefined = VPromise (promise w).
Proof.
  induction n as [|n IH]; simpl; [tauto|].
  destruct (nth n rs VUndefined) eqn:E;
    try (intros H; apply IH in H; destruct H; split; [lia | assumption]).
  intros [<-|H]; simpl.
  - split; [lia | exact E].
  - apply IH in H. destruct H. split; [lia | assumption].
Qed.

Lemma attach_complete (rs : list value) (n i p : nat) :
  i < n -> nth i rs VUndefined = VPromise p ->
  In {| promise := p; index := i |} (attach rs n).
Proof.
  induction n as [|n IH]; intros Hi Hp; [lia|]. simpl.
  destruct (Nat.eq_dec i n) as [->|Hne].
  - rewrite Hp. now left.
  - assert (Hin : In {| promise := p; index := i |} (attach rs n))
      by (apply IH; [lia | exact Hp]).
    destruct (nth n rs VUndefined); auto. now right.
Qed.

Section Fulfilment.

Variable call : nat -> receiver -> list value -> M value.

(** A fulfilled promise writes its value into the slots of its
    continuations and leaves the emitter alone. *)
Lemma react_resolve (p : nat) (v directive : value) (todo : list reaction) :
  forall kept results failed st,
    (forall w, In w todo -> index w < List.length results) ->
    exists results',
      react call p (Resolve v) directive todo kept results failed st
      = Some (st, Normal (results',
                          kept ++ filter (fun w => negb (promise w =? p)) todo,
                          failed))
      /\ List.length results' = List.length results
      /\ forall i, nth_error results' i
                   = if existsb (fun w => (promise w =? p) && (index w =? i)) todo
                     then Some v
                     else nth_error results i.
Proof.
  induction todo as [|w todo IH]; intros kept results failed st Hb; simpl.
  - exists results. rewrite app_nil_r. auto.
  - destruct (promise w =? p) eqn:E; simpl.
    + assert (Hw : index w < List.length results) by (apply Hb; now left).
      rewrite (assign_in_range _ _ _ Hw).
      destruct (IH kept (update results (index w) v) failed st)
        as (results' & Hr & Hlen & Hnth).
      { intros w' Hw'. rewrite update_length. apply Hb. now right. }
      exists results'. split; [exact Hr|]. split.
      * now rewrite Hlen, update_length.
      * intros i. rewrite Hnth.
        destruct (existsb _ todo); [now rewrite orb_true_r|].
        rewrite orb_false_r.
        destruct (Nat.eqb_spec (index w) i) as [<-|Hne].
        -- now apply update_same.
        -- apply update_other. auto.
    + destruct (IH (push kept w) results failed st) as (results' & Hr & Hlen & Hnth).
      { intros w' Hw'. apply Hb. now right. }
      exists results'. split; [|split; [exact Hlen | exact Hnth]].
      rewrite Hr. unfold push. now rewrite <- app_assoc.
Qed.

Lemma substituted_nil (val : nat -> value) (rs : list value) :
  map (substituted val []) rs = rs.
Proof.
  rewrite <- (map_id rs) at 2. apply map_ext. intros v. now destruct v.
Qed.

Lemma settle_fulfilled (rs : list value) (directive : value) (val : nat -> value)
  (settled : list nat) (p : nat) (st : EventEmitter) :
  settle call p (Resolve (val p)) (reconciled rs directive val settled) st
  = Some (st, Normal (reconciled rs directive val (p :: settled))).
Proof.
  unfold settle, bind. cbn [reconciled results waiting onError returned].
  destruct (react_resolve p (val p) directive (pending_on rs settled) []
              (map (substituted val settled) rs) None st)
    as (results' & Hr & Hlen & Hnth).
  { intros w Hw. unfold pending_on in Hw. apply filter_In in Hw.
    destruct Hw as [Hw _]. apply attach_sound in Hw. rewrite length_map. tauto. }
  rewrite Hr. simpl app.
  assert (Hwait : filter (fun w => negb (promise w =? p)) (pending_on rs settled)
                  = pending_on rs (p :: settled)).
  { unfold pending_on. rewrite filter_filter. apply filter_ext. intros w. simpl.
    rewrite negb_orb, andb_comm. reflexivity. }
  assert (Hres : results' = map (substituted val (p :: settled)) rs).
  { apply nth_error_ext. intros i. rewrite Hnth, !nth_error_map.
    destruct (existsb _ (pending_on rs settled)) eqn:Ex.
    - apply existsb_exists in Ex. destruct Ex as (w & Hw & Hpi).
      apply andb_prop in Hpi. destruct Hpi as [Hp Hi].
      apply Nat.eqb_eq in Hp. apply Nat.eqb_eq in Hi. subst.
      unfold pending_on in Hw. apply filter_In in Hw. destruct Hw as [Hw _].
      apply attach_sound in Hw. destruct Hw as [Hlt Hn].
      rewrite (nth_error_nth' rs VUndefined Hlt), Hn. simpl.
      now rewrite Nat.eqb_refl.
    - destruct (nth_error rs i) as [v|] eqn:En; [|reflexivity]. simpl. f_equal.
      destruct v; try reflexivity. simpl.
      destruct (Nat.eqb_spec p0 p) as [->|Hne]; [|reflexivity].
      destruct (existsb (Nat.eqb p) settled) eqn:Es; [reflexivity|].
      (* the slot would still have a continuation of [p] waiting *)
      exfalso.
      assert (Hi : i < List.length rs) by (apply nth_error_Some; congruence).
      assert (Hin : In {| promise := p; index := i |} (pending_on rs settled)).
      { unfold pending_on. apply filter_In. split.
        - apply attach_complete; [exact Hi|].
          now rewrite (nth_error_nth rs i VUndefined En).
        - simpl. now rewrite Es. }
      assert (Ht : existsb (fun w => (promise w =? p) && (index w =? i))
                     (pending_on rs settled) = true).
      { apply existsb_exists. eexists. split; [exact Hin|]. simpl.
        now rewrite !Nat.eqb_refl. }
      congruence. }
  assert (Hret : conclude (conclude Pending None (pending_on rs settled)
                             (map (substituted val settled) rs))
                   None
                   (filter (fun w => negb (promise w =? p)) (pending_on rs settled))
                   results'
                 = conclude Pending None
                     (filter (fun w => negb (promise w =? p)) (pending_on rs settled))
                     results').
  { destruct (pending_on rs settled) as [|w ws]; [|reflexivity].
    simpl. f_equal. symmetry. apply nth_error_ext. intros i.
    rewrite Hnth. reflexivity. }
  unfold ret. rewrite Hret, Hwait, Hres. reflexivity.
Qed.

Lemma settle_all_fulfilled (rs : list value) (directive : value)
  (val : nat -> value) (ps : list nat) :
  forall settled st,
    settle_all call (fulfilments val ps) (reconciled rs directive val settled) st
    = Some (st, Normal (reconciled rs directive val (rev ps ++ settled))).
Proof.
  induction ps as [|p ps IH]; intros settled st; simpl.
  - reflexivity.
  - unfold bind. rewrite settle_fulfilled, IH. now rewrite <- app_assoc.
Qed.

(** X9: when the promises among the results of [emit2] are all fulfilled,
    in whatever order, the returned
    promise is resolved with the results in which every promise has been
    replaced, in its own slot, by the value it was fulfilled with; the
    array keeps its length and no continuation is left. The emitter is not
    touched by the settlements. *)
Theorem emit2_all_fulfilled (event : string) (args directive : value)
  (val : nat -> value) (ps : list nat) (st st1 : EventEmitter)
  (a : reconciliation) :
  emit2 call event args directive st = Some (st1, Normal (Async a)) ->
  (forall p, In (VPromise p) (results a) -> In p ps) ->
  exists a',
    settle_all call (fulfilments val ps) a st1 = Some (st1, Normal a')
    /\ results a'
       = map (fun v => match v with VPromise p => val p | _ => v end) (results a)
    /\ waiting a' = []
    /\ returned a' = Resolved (results a').
Proof.
  intros He Hall.
  assert (Ha : a = reconciled (results a) directive val []).
  { unfold emit2, bind in He.
    destruct (emit call event args directive st) as [[s [v|e]]|];
      [| discriminate | discriminate].
    destruct (falsy v); inversion He; subst. cbn [results].
    unfold reconciled, pending_on.
    rewrite substituted_nil, filter_all by (intros; reflexivity). reflexivity. }
  set (rs := results a) in *.
  assert (Hnone : pending_on rs (rev ps ++ []) = []).
  { unfold pending_on.
    destruct (filter _ _) as [|w ws] eqn:F; [reflexivity|]. exfalso.
    assert (Hw : In w (w :: ws)) by now left.
    rewrite <- F in Hw. apply filter_In in Hw. destruct Hw as [Hw Hn].
    apply attach_sound in Hw. destruct Hw as [Hlt Hp].
    assert (Hin : In (VPromise (promise w)) rs).
    { rewrite <- Hp. now apply nth_In. }
    apply Hall in Hin. apply negb_true_iff in Hn.
    assert (Ht : existsb (Nat.eqb (promise w)) (rev ps ++ []) = true).
    { apply existsb_exists. exists (promise w). split; [|apply Nat.eqb_refl].
      rewrite app_nil_r. now apply in_rev in Hin. }
    congruence. }
  exists (reconciled rs directive val (rev ps ++ [])).
  split; [rewrite Ha at 1; apply settle_all_fulfilled|].
  unfold reconciled. simpl. rewrite Hnone. simpl.
  assert (Hmap : map (substituted val (rev ps ++ [])) rs
                 = map (fun v => match v with VPromise p => val p | _ => v end) rs).
  { apply map_ext_in. intros v Hv. destruct v; try reflexivity. simpl.
    assert (Ht : existsb (Nat.eqb p) (rev ps ++ []) = true).
    { apply existsb_exists. exists p. split; [|apply Nat.eqb_refl].
      rewrite app_nil_r. apply in_rev. rewrite rev_involutive. now apply Hall. }
    now rewrite Ht. }
  rewrite Hmap. auto.
Qed.

End Fulfilment.

(** ** Reconciliation from the last slot to the first *)

Lemma firstn_succ {A} (d : A) (l : list A) :
  forall n, n < List.length l -> firstn (S n) l = firstn n l ++ [nth n l d].
Proof.
  induction l as [|x l IH]; intros n Hn; simpl in Hn; [lia|].
  destruct n as [|n]; [reflexivity|].
  change (firstn (S (S n)) (x :: l)) with (x :: firstn (S n) l).
  rewrite IH by lia. reflexivity.
Qed.

Lemma assign_middle (l1 tail : list value) (v x : value) :
  assign (l1 ++ v :: tail) (List.length l1) x = l1 ++ x :: tail.
Proof.
  rewrite assign_in_range by (rewrite length_app; simpl; lia).
  induction l1 as [|y l1 IH]; simpl; [reflexivity|]. now rewrite IH.
Qed.

Lemma attach_free_prefix (rs : list value) (directive : value)
  (outcome : nat -> settlement) :
  forall k, attach rs k = [] ->
            flat_map (slot_after directive outcome) (firstn k rs) = firstn k rs.
Proof.
  induction k as [|k IH]; intros Ek; [reflexivity|].
  simpl in Ek.
  destruct (Nat.lt_ge_cases k (List.length rs)) as [Hlt|Hge].
  - rewrite (firstn_succ VUndefined) by lia. rewrite flat_map_app.
    destruct (nth k rs VUndefined) eqn:En; try discriminate;
      rewrite IH by assumption; reflexivity.
  - rewrite firstn_all2 by lia. rewrite firstn_all2 in IH by lia.
    apply IH. destruct (nth k rs VUndefined); try discriminate; assumption.
Qed.

Section Descending.

Variable call : nat -> receiver -> list value -> M value.

Lemma settle_descending (rs : list value) (directive : value)
  (outcome : nat -> settlement) :
  directive = VNull \/ directive = VBool false ->
  forall n tail h st,
    n <= List.length rs ->
    NoDup (map promise (attach rs n)) ->
    settle_all call (settlements outcome (attach rs n))
      {| results := firstn n rs ++ tail; waiting := attach rs n;
         onError := directive; returned := h |} st
    = Some (st, Normal
              {| results := flat_map (slot_after directive outcome) (firstn n rs)
                            ++ tail;
                 waiting := [];
                 onError := directive;
                 returned :=
                   match attach rs n with
                   | [] => h
                   | _ => conclude h None []
                            (flat_map (slot_after directive outcome) (firstn n rs)
                             ++ tail)
                   end |}).
Proof.
  intros Hd. induction n as [|n IH]; intros tail h st Hn Hnd.
  - reflexivity.
  - rewrite (firstn_succ VUndefined) by lia.
    rewrite flat_map_app, <- !app_assoc. simpl flat_map. rewrite app_nil_r.
    assert (Hlen : List.length (firstn n rs) = n) by (apply firstn_length_le; lia).
    revert Hnd. cbn [attach].
    destruct (nth n rs VUndefined) as [| |b|num|str|fn|rec|p|cnt pre|arr|kind ar|] eqn:E;
      intros Hnd;
      try (cbn [slot_after]; apply IH; [lia | exact Hnd]).
    (* the last slot holds a promise: its continuation runs first *)
    cbn [settlements map settle_all promise].
    simpl in Hnd. inversion Hnd as [|? ? Hfresh Hnd']; subst.
    assert (Hothers : forall w, In w (attach rs n) -> promise w <> p).
    { intros w Hw Heq. apply Hfresh. apply in_map_iff. now exists w. }
    assert (Hstep : exists results1,
               settle call p (outcome p)
                 {| results := firstn n rs ++ VPromise p :: tail;
                    waiting := {| promise := p; index := n |} :: attach rs n;
                    onError := directive; returned := h |} st
               = Some (st, Normal
                         {| results := results1; waiting := attach rs n;
                            onError := directive;
                            returned := conclude h None (attach rs n) results1 |})
               /\ results1 = firstn n rs ++ slot_after directive outcome (VPromise p)
                                         ++ tail).
    { unfold settle, bind. cbn [results waiting onError returned react promise index].
      rewrite Nat.eqb_refl. simpl slot_after.
      destruct (outcome p) as [x|e].
      - pose proof (assign_middle (firstn n rs) tail (VPromise p) x) as Hm.
        rewrite Hlen in Hm. rewrite Hm.
        rewrite (react_others call p (Resolve x) directive _ Hothers). simpl.
        eexists. split; reflexivity.
      - destruct Hd as [-> | ->]; simpl.
        + pose proof (splice1_middle (firstn n rs) tail (VPromise p)) as Hm.
          rewrite Hlen in Hm. rewrite Hm.
          rewrite (react_others call p (Reject e) VNull _ Hothers). simpl.
          eexists. split; reflexivity.
        + pose proof (assign_middle (firstn n rs) tail (VPromise p) e) as Hm.
          rewrite Hlen in Hm. rewrite Hm.
          rewrite (react_others call p (Reject e) (VBool false) _ Hothers). simpl.
          eexists. split; reflexivity. }
    destruct Hstep as (results1 & Hs & ->).
    change ([VPromise p] ++ tail) with (VPromise p :: tail).
    unfold bind. rewrite Hs. rewrite IH by (lia || exact Hnd').
    do 3 f_equal.
    destruct (attach rs n) as [|w ws] eqn:Ea.
    + rewrite (attach_free_prefix rs directive outcome n Ea). reflexivity.
    + destruct h; reflexivity.
Qed.

(** X10: the directive is [null] or [false], the pending entries are
    distinct promises, and they settle from the last slot to the first,
    which is the order in which [emit2] attached its continuations. The
    returned promise is then resolved, once the first slot has settled,
    with the results in which each fulfilled promise is replaced by its
    value and each rejected one is removed under [null], or replaced by its
    error under [false]; the other entries stay, in their order. *)
Theorem emit2_settles_backwards (event : string) (args directive : value)
  (outcome : nat -> settlement) (st st1 : EventEmitter) (a : reconciliation) :
  directive = VNull \/ directive = VBool false ->
  emit2 call event args directive st = Some (st1, Normal (Async a)) ->
  NoDup (map promise (waiting a)) ->
  exists a',
    settle_all call (settlements outcome (waiting a)) a st1 = Some (st1, Normal a')
    /\ results a' = flat_map (slot_after directive outcome) (results a)
    /\ waiting a' = []
    /\ returned a' = Resolved (results a').
Proof.
  intros Hd He Hnd.
  assert (Ha : a = {| results := firstn (List.length (results a)) (results a) ++ [];
                      waiting := attach (results a) (List.length (results a));
                      onError := directive;
                      returned := conclude Pending None
                                    (attach (results a) (List.length (results a)))
                                    (results a) |}).
  { unfold emit2, bind in He.
    destruct (emit call event args directive st) as [[s [v|e]]|];
      [| discriminate | discriminate].
    destruct (falsy v); inversion He; subst. cbn [results].
    now rewrite firstn_all, app_nil_r. }
  set (rs := results a) in *.
  assert (Hw : waiting a = attach rs (List.length rs)) by (rewrite Ha; reflexivity).
  rewrite Hw in *.
  pose proof (settle_descending rs directive outcome Hd (List.length rs) []
                (conclude Pending None (attach rs (List.length rs)) rs) st1
                (Nat.le_refl _) Hnd) as Hrun.
  rewrite <- Ha in Hrun.
  eexists. split; [exact Hrun|]. cbn [results waiting returned].
  rewrite firstn_all, app_nil_r. repeat split.
  destruct (attach rs (List.length rs)) as [|w ws] eqn:Ea; [|reflexivity].
  simpl. f_equal.
  pose proof (attach_free_prefix rs directive outcome _ Ea) as Hfree.
  rewrite firstn_all in Hfree. now rewrite Hfree.
Qed.

End Descending.

(** ** Removal *)

Lemma findIndex_some {A} (p : A -> bool) (l : list A) :
  (exists x, In x l /\ p x = true) ->
  exists before x after,
    l = before ++ x :: after
    /\ p x = true
    /\ findIndex p l = Some (List.length before).
Proof.
  induction l as [|y l IH]; intros (x & Hin & Hp); [destruct Hin|].
  simpl. destruct (p y) eqn:E.
  - exists [], y, l. auto.
  - destruct IH as (before & x' & after & -> & Hp' & Hf).
    + destruct Hin as [->|Hin]; [congruence | eauto].
    + exists (y :: before), x', after. rewrite Hf. auto.
Qed.

Lemma get_keys (m : list (string * list nat)) (event : string) :
  get m event = None <-> ~ In event (map fst m).
Proof.
  induction m as [|[k l] m IH]; simpl; [tauto|].
  destruct (String.eqb_spec k event) as [->|Hne].
  - split; [discriminate | intros H; exfalso; auto].
  - rewrite IH. tauto.
Qed.

Lemma set_keys_old (st : EventEmitter) (event : string) (l : list nat) :
  In event (keys st) -> keys (set_live st event l) = keys st.
Proof.
  unfold keys, set_live. simpl.
  induction (_events st) as [|[k l0] m IH]; simpl; [tauto|].
  destruct (String.eqb_spec k event) as [->|Hne]; simpl; [reflexivity|].
  intros [E|Hin]; [congruence | now rewrite IH].
Qed.

Lemma set_keys_new (st : EventEmitter) (event : string) (l : list nat) :
  ~ In event (keys st) -> keys (set_live st event l) = keys st ++ [event].
Proof.
  unfold keys, set_live. simpl.
  induction (_events st) as [|[k l0] m IH]; simpl; [reflexivity|].
  destruct (String.eqb_spec k event) as [->|Hne]; simpl; [tauto|].
  intros H. rewrite IH; tauto.
Qed.

Lemma listeners_keys (event : string) (st st0 : EventEmitter)
  (c : completion (list nat)) :
  listeners event st = Some (st0, c) -> grown_by event st st0.
Proof.
  unfold listeners. destruct (_ && _).
  - intros H. inversion H. now left.
  - destruct (get (_events st) event) as [l|] eqn:G; intros H; inversion H.
    + now left.
    + apply get_keys in G. right. split; [now apply set_keys_new | exact G].
Qed.

Lemma grown_by_trans (event : string) (st1 st2 st3 : EventEmitter) :
  grown_by event st1 st2 -> grown_by event st2 st3 -> grown_by event st1 st3.
Proof.
  unfold grown_by. intros [E|[E N]] [E'|[E' N']].
  - left. congruence.
  - right. rewrite E', E. split; [reflexivity | now rewrite <- E].
  - right. rewrite E', E. auto.
  - exfalso. apply N'. rewrite E. apply in_or_app. right. now left.
Qed.


Section Removal.

Variable call : nat -> receiver -> list value -> M value.

Lemma emit_to_nobody_keys (event : string) (args directive : value)
  (st st' : EventEmitter) (c : completion value) :
  emit call event args directive st = Some (st', c) ->
  live event st = [] ->
  grown_by event st st'.
Proof.
  unfold emit, erase, emit_traced. intros H Hl.
  destruct (listeners event st) as [[st0 [l|e]]|] eqn:L; [| |discriminate].
  - assert (G := listeners_keys _ _ _ _ L).
    assert (l = []).
    { unfold listeners in L. destruct (_ && _); [discriminate|].
      unfold live in Hl. destruct (get (_events st) event); inversion L; congruence. }
    subst l. simpl in H. inversion H; subst. exact G.
  - simpl in H. inversion H; subst. apply (listeners_keys _ _ _ _ L).
Qed.

Lemma removeListener_each_all (event : string) (batch : list nat) :
  event <> "removeListener" ->
  forall index st,
    allowed "removeListener" st = true ->
    live "removeListener" st = [] ->
    Permutation (map (fun r => callback (lookup st r)) (live event st))
                (map (fun r => callback (lookup st r)) batch) ->
    exists st',
      removeListener_each call event (map VListener batch) index st
      = Some (st', Normal tt)
      /\ live event st' = []
      /\ heap st' = heap st
      /\ (forall other, other <> event -> live other st' = live other st)
      /\ same_settings st st'
      /\ (In event (keys st) -> grown_by "removeListener" st st').
Proof.
  intros Hne. induction batch as [|r batch IH]; intros index st Ha Hn Hperm.
  - exists st. simpl in *. apply Permutation_sym, Permutation_nil in Hperm.
    apply map_eq_nil in Hperm.
    repeat split; auto using same_settings_refl. intros _. now left.
  - cbn [map removeListener_each callback_of].
    set (f := callback (lookup st r)) in *.
    destruct (findIndex_some (fun x => callback (lookup st x) =? f) (live event st))
      as (before & x & after & Hl & Hx & Hfind).
    { assert (Hin : In f (map (fun r0 => callback (lookup st r0)) (live event st))).
      { apply (Permutation_in f (Permutation_sym Hperm)). now left. }
      apply in_map_iff in Hin. destruct Hin as (x & Hx & Hin).
      exists x. split; [exact Hin | now apply Nat.eqb_eq]. }
    apply Nat.eqb_eq in Hx.
    rewrite Hfind, Hl, splice1_middle.
    set (st1 := set_live st event (before ++ after)).
    assert (Hl1 : live event st1 = before ++ after) by apply live_set_live_same.
    assert (Ho1 : forall other, other <> event -> live other st1 = live other st)
      by (intros; now apply live_set_live_other).
    destruct (emit_to_nobody call "removeListener" (VArr [VStr event; VFun f])
                VUndefined st1) as (st2 & He & Hh2 & Hl2 & Hs2).
    { exact Ha. }
    { rewrite Ho1 by (intros E; now apply Hne). exact Hn. }
    assert (Hk : forall y, lookup st2 y = lookup st y)
      by (intros; unfold lookup; now rewrite Hh2).
    destruct (IH (S index) st2) as (st' & Hrun & Hempty & Hh' & Ho' & Hs' & Hk').
    + unfold allowed in *. destruct Hs2 as (_ & Hv & _). now rewrite Hv.
    + rewrite Hl2, Ho1 by (intros E; now apply Hne). exact Hn.
    + rewrite Hl2, Hl1.
      rewrite (map_ext _ (fun r0 => callback (lookup st r0)))
        by (intros; now rewrite Hk).
      rewrite (map_ext (fun r0 => callback (lookup st2 r0))
                       (fun r0 => callback (lookup st r0)))
        by (intros; now rewrite Hk).
      rewrite Hl in Hperm. rewrite map_app in *. simpl in Hperm. rewrite Hx in Hperm.
      apply Permutation_sym, Permutation_cons_app_inv in Hperm.
      now apply Permutation_sym.
    + exists st'. split; [|split; [exact Hempty | split; [|split; [|split]]]].
      * unfold bind. rewrite He. exact Hrun.
      * now rewrite Hh', Hh2.
      * intros other Ho. rewrite Ho', Hl2, Ho1; auto.
      * eapply same_settings_trans; [|exact Hs'].
        eapply same_settings_trans; [|exact Hs2]. unfold same_settings. auto.
      * intros Hin.
        assert (K1 : keys st1 = keys st) by (apply set_keys_old; exact Hin).
        assert (G2 : grown_by "removeListener" st1 st2).
        { apply (emit_to_nobody_keys "removeListener" (VArr [VStr event; VFun f])
                   VUndefined st1 st2 _ He).
          rewrite Ho1 by (intros E; now apply Hne). exact Hn. }
        assert (G : grown_by "removeListener" st st2).
        { unfold grown_by in *. now rewrite K1 in G2. }
        apply (grown_by_trans _ _ _ _ G). apply Hk'.
        destruct G as [E|[E _]]; rewrite E; [exact Hin|].
        apply in_or_app. now left.
Qed.

(** X11: when nobody listens to [removeListener],
    [removeAllListeners(event)] leaves the event without any listener,
    also when a callback is registered several times, and changes nothing
    else: the records stay in the store and the other events keep their
    listeners. *)
Theorem removeAllListeners_empties (event : string) (st : EventEmitter) :
  allowed event st = true ->
  allowed "removeListener" st = true ->
  live "removeListener" st = [] ->
  exists st',
    removeAllListeners call event st = Some (st', Normal tt)
    /\ live event st' = []
    /\ heap st' = heap st
    /\ (forall other, other <> event -> live other st' = live other st).
Proof.
  intros Ha Har Hn.
  destruct (listeners_allowed _ _ Ha) as (st0 & H0 & Hl0 & Hh0 & Hv0 & Ho0).
  assert (H0' : listeners event st0 = Some (st0, Normal (live event st0))).
  { unfold listeners in *.
    destruct (_ && _) eqn:E; [discriminate|].
    rewrite Hv0, E. unfold live in *.
    destruct (get (_events st) event) as [l|] eqn:G.
    - inversion H0; subst. now rewrite G.
    - inversion H0; subst. simpl. now rewrite get_set_same. }
  destruct (String.eqb_spec event "removeListener") as [->|Hne].
  - exists st0. rewrite Ho0, Hn in *.
    unfold removeAllListeners, bind. rewrite H0, H0'. simpl.
    repeat split; auto.
  - destruct (removeListener_each_all event (live event st0) Hne 0 st0)
      as (st' & Hrun & Hempty & Hh' & Ho' & _).
    + unfold allowed in *. now rewrite Hv0.
    + now rewrite Ho0.
    + apply Permutation_refl.
    + exists st'. unfold removeAllListeners, bind. rewrite H0, H0', Hrun.
      repeat split; auto; [congruence|]. intros other Ho. now rewrite Ho', Ho0.
Qed.

(** X12: [removeListener] given a listener record removes the first record
    of the live array that has the callback of the given one, which need
    not be the given record, and emits [removeListener] with that
    callback. *)
Theorem removeListener_by_record (event : string) (r : nat)
  (st st0 : EventEmitter) (l before after : list nat) (first : nat) :
  listeners event st = Some (st0, Normal l) ->
  live event st0 = before ++ first :: after ->
  callback (lookup st0 first) = callback (lookup st0 r) ->
  (forall x, In x before -> callback (lookup st0 x) <> callback (lookup st0 r)) ->
  removeListener call event (VListener r) st
  = (_ <- emit call "removeListener"
            (VArr [VStr event; VFun (callback (lookup st0 r))]) VUndefined;;
     ret tt) (set_live st0 event (before ++ after)).
Proof.
  intros Hl Hlive Hfirst Hbefore.
  unfold removeListener, bind at 1. rewrite Hl. simpl. rewrite Hlive.
  rewrite findIndex_first.
  - rewrite splice1_middle. unfold bind.
    destruct (emit call _ _ _ _) as [[st2 [v|e]]|]; reflexivity.
  - intros y Hy. apply Nat.eqb_neq. auto.
  - now apply Nat.eqb_eq.
Qed.

End Removal.

(** ** Removal from every event *)


Section Sweep.

Variable call : nat -> receiver -> list value -> M value.




End Sweep.

(** ** What no method changes *)

(** Every method is made of the same few updates of the state; a relation
    that holds across each of them holds across every method. *)
Section Respect.

Variable R : EventEmitter -> EventEmitter -> Prop.

Hypothesis R_refl : forall st, R st st.
Hypothesis R_trans : forall st1 st2 st3, R st1 st2 -> R st2 st3 -> R st1 st3.
Hypothesis R_set_live : forall st event l, R st (set_live st event l).
Hypothesis R_set_count : forall st r c, R st (set_count st r c).
Hypothesis R_insert : forall st event f options, R st (insert event f options st).
Hypothesis R_check_leak : forall st event, R st (check_leak event st).
Hypothesis R_print : forall st s, R st (print st s).
Hypothesis R_set_maxListeners : forall st n, R st (set_maxListeners st n).

Lemma respects_ret {A} (a : A) : respects R (ret a).
Proof. intros st st' c H. inversion H. apply R_refl. Qed.

Lemma respects_throw {A} (e : value) : respects R (@throw A e).
Proof. intros st st' c H. inversion H. apply R_refl. Qed.

Lemma respects_bind {A B} (m : M A) (k : A -> M B) :
  respects R m -> (forall a, respects R (k a)) -> respects R (bind m k).
Proof.
  intros Hm Hk st st' c. unfold bind.
  destruct (m st) as [[st1 [a|e]]|] eqn:E; [| |discriminate].
  - intros H. eapply R_trans; [eapply Hm | eapply Hk]; eauto.
  - intros H. inversion H; subst. eapply Hm; eauto.
Qed.

Lemma respects_modify (f : EventEmitter -> EventEmitter) :
  (forall st, R st (f st)) -> respects R (modify f).
Proof. intros Hf st st' c H. inversion H. apply Hf. Qed.

Lemma respects_and_then {A} (m : M A) (k : completion A -> M value) :
  respects R m -> (forall c, respects R (k c)) -> respects R (and_then m k).
Proof.
  intros Hm Hk st st' c. unfold and_then.
  destruct (m st) as [[st1 c1]|] eqn:E; [|discriminate].
  intros H. eapply R_trans; [eapply Hm | eapply Hk]; eauto.
Qed.

Lemma listeners_respects (event : string) : respects R (listeners event).
Proof.
  intros st st' c. unfold listeners. destruct (_ && _).
  - intros H. inversion H. apply R_refl.
  - destruct (get (_events st) event); intros H; inversion H; subst;
      [apply R_refl | apply R_set_live].
Qed.

Lemma setMaxListeners_respects (n : value) : respects R (setMaxListeners n).
Proof.
  unfold setMaxListeners. destruct n; try apply respects_throw.
  destruct (lt n one); [apply respects_throw|].
  apply respects_modify. intros st. apply R_set_maxListeners.
Qed.

Lemma expire_respects (event : string) (r : nat) (st : EventEmitter) :
  R st (expire event r st).
Proof.
  unfold expire. destruct (lt _ one); [|apply R_set_count].
  destruct (indexOf _ r); [|apply R_set_count].
  eapply R_trans; [apply R_set_count | apply R_set_live].
Qed.

Variable call : nat -> receiver -> list value -> M value.

Hypothesis call_respects : forall f this args, respects R (call f this args).

Lemma handleError_respects (results : list value) (error directive : value)
  (index : option nat) :
  respects R (handleError call results error directive index).
Proof.
  unfold handleError.
  assert (H : respects R
                (retval <- invoke call directive ThisUndefined [error];;
                 match retval with
                 | VUndefined => ret (drop_slot results index)
                 | _ => ret (setval results index retval)
                 end)).
  { apply respects_bind.
    - unfold invoke. destruct directive; try apply respects_throw.
      apply call_respects.
    - intros a. destruct a; apply respects_ret. }
  destruct directive; try exact H;
    try apply respects_throw; try apply respects_ret.
  destruct b; [exact H | apply respects_ret].
Qed.

Lemma emit_loop_respects (event : string) (args : list value) (directive : value)
  (snapshot : list nat) :
  forall results invoked st st' invoked' c,
    emit_loop call snapshot event args directive results invoked st
    = Some (st', invoked', c) ->
    R st st'.
Proof.
  induction snapshot as [|r rest IH]; intros results invoked st st' inv c; simpl.
  - intros H. inversion H. apply R_refl.
  - pose proof (expire_respects event r st) as He.
    destruct (call _ _ _ _) as [[st2 [v|error]]|] eqn:C; [| |discriminate];
      apply call_respects in C.
    + intros H. apply IH in H. eauto.
    + destruct (handleError _ _ _ _ _ _) as [[st3 [results'|e]]|] eqn:E;
        [| |discriminate]; apply handleError_respects in E; intros H.
      * apply IH in H. eauto.
      * inversion H; subst. eauto.
Qed.

Lemma emit_traced_respects (event : string) (args directive : value)
  (st st' : EventEmitter) (invoked : list nat) (c : completion value) :
  emit_traced call event args directive st = Some (st', invoked, c) -> R st st'.
Proof.
  unfold emit_traced.
  destruct (listeners event st) as [[st0 [l|e]]|] eqn:L; [| |discriminate];
    apply listeners_respects in L.
  - destruct (emit_loop _ _ _ _ _ _ _ _) as [[[st1 inv1] [rs|e]]|] eqn:E;
      [| |discriminate]; apply emit_loop_respects in E;
      intros H; inversion H; subst; eauto.
  - intros H. now inversion H; subst.
Qed.

Lemma emit_respects (event : string) (args directive : value) :
  respects R (emit call event args directive).
Proof.
  intros st st' c. unfold emit, erase.
  destruct (emit_traced _ _ _ _ _) as [[[st1 inv] c1]|] eqn:E; [|discriminate].
  intros H. inversion H; subst. eapply emit_traced_respects; eauto.
Qed.

Lemma addListener_respects (event : string) (listener options : value) :
  respects R (addListener call event listener options).
Proof.
  unfold addListener.
  apply respects_bind; [apply listeners_respects|]. intros _.
  apply respects_bind; [|intros _; apply respects_modify; intros; apply R_check_leak].
  generalize 0. induction (batch_of listener) as [|v batch IH]; intros index; simpl.
  - apply respects_ret.
  - destruct v; try apply respects_throw.
    apply respects_bind; [apply emit_respects|]. intros _.
    apply respects_bind; [apply respects_modify; intros; apply R_insert|].
    intros _. apply IH.
Qed.

Lemma removeListener_each_respects (event : string) (batch : list value) :
  forall index, respects R (removeListener_each call event batch index).
Proof.
  induction batch as [|v batch IH]; intros index; simpl.
  - apply respects_ret.
  - intros st st' c. destruct (callback_of st v) as [f|].
    + destruct (findIndex _ _) as [pos|].
      * pose proof (respects_bind
                      (emit call "removeListener" (VArr [VStr event; VFun f]) VUndefined)
                      (fun _ => removeListener_each call event batch (S index))
                      (emit_respects _ _ _) (fun _ => IH (S index))) as Hb.
        intros H. eapply R_trans; [apply R_set_live | exact (Hb _ _ _ H)].
      * apply IH.
    + intros H. inversion H. apply R_refl.
Qed.

Lemma removeAll_walk_respects (fuel : nat) :
  forall i, respects R (removeAll_walk call fuel i).
Proof.
  induction fuel as [|fuel IH]; intros i st st' c; simpl; [discriminate|].
  destruct (nth_error (_events st) i) as [[event l]|].
  - destruct (String.eqb event "removeListener"); [apply IH|].
    apply respects_bind; [apply listeners_respects|]. intros _.
    apply respects_bind; [apply removeListener_each_respects|]. intros _. apply IH.
  - intros H. inversion H. apply R_refl.
Qed.

Lemma run_respects (c : code) : respects R (run call c).
Proof.
  induction c as [v|e|event args directive k IH|event listener options k IH
                 |event listener k IH|event k IH|n k IH|s k IH
                 |event args directive k IH|fuel k IH]; simpl.
  - apply respects_ret.
  - apply respects_throw.
  - apply respects_and_then; [apply emit_respects | exact IH].
  - apply respects_and_then; [apply addListener_respects | exact IH].
  - apply respects_and_then; [|exact IH]. unfold removeListener.
    apply respects_bind; [apply listeners_respects|]. intros _.
    apply removeListener_each_respects.
  - apply respects_and_then; [|exact IH]. unfold removeAllListeners.
    apply respects_bind; [apply listeners_respects|]. intros copy.
    apply respects_bind; [apply listeners_respects|]. intros _.
    apply removeListener_each_respects.
  - apply respects_and_then; [apply setMaxListeners_respects | exact IH].
  - intros st st' c H. eapply R_trans; [apply R_print | eapply IH; exact H].
  - apply respects_and_then; [|exact IH].
    apply respects_bind; [|intros _; apply respects_ret].
    unfold emit2. apply respects_bind; [apply emit_respects|].
    intros v. destruct (falsy v); apply respects_ret.
  - apply respects_and_then; [|exact IH]. unfold removeAllListeners_all.
    apply respects_bind; [apply removeAll_walk_respects|]. intros _.
    unfold removeAllListeners.
    apply respects_bind; [apply listeners_respects|]. intros copy.
    apply respects_bind; [apply listeners_respects|]. intros _.
    apply removeListener_each_respects.
Qed.

End Respect.

Lemma keeps_refl (st : EventEmitter) : keeps st st.
Proof.
  unfold keeps.
  split; [reflexivity|].
  split; [exists []; now rewrite app_nil_r|].
  split; [exists []; now rewrite app_nil_r|].
  split; [exists []; now rewrite app_nil_r|].
  split; [exists []; now rewrite app_nil_r | auto].
Qed.

Lemma keeps_trans (st1 st2 st3 : EventEmitter) :
  keeps st1 st2 -> keeps st2 st3 -> keeps st1 st3.
Proof.
  intros (Hv1 & (k1 & Hk1) & (w1 & Hw1) & (d1 & Hd1) & (c1 & Hc1) & Ht1)
         (Hv2 & (k2 & Hk2) & (w2 & Hw2) & (d2 & Hd2) & (c2 & Hc2) & Ht2).
  unfold keeps. split; [congruence|].
  split; [exists (k1 ++ k2); now rewrite Hk2, Hk1, app_assoc|].
  split; [exists (w1 ++ w2); now rewrite Hw2, Hw1, app_assoc|].
  split; [exists (d1 ++ d2); now rewrite Hd2, Hd1, app_assoc|].
  split; [exists (c1 ++ c2); now rewrite Hc2, Hc1, app_assoc|].
  auto.
Qed.

Lemma set_keys (m : list (string * list nat)) (event : string) (l : list nat) :
  exists more, map fst (set m event l) = map fst m ++ more.
Proof.
  induction m as [|[k l0] m IH]; simpl.
  - now exists [event].
  - destruct (String.eqb k event); simpl.
    + exists []. now rewrite app_nil_r.
    + destruct IH as (more & ->). now exists more.
Qed.

(** A step that touches neither the allow-list nor the warnings nor the
    console, and keeps the keys of the registry. *)
Lemma keeps_registry_step (st st' : EventEmitter) :
  _validEvents st' = _validEvents st ->
  (exists more, map fst (_events st') = map fst (_events st) ++ more) ->
  _warnings st' = _warnings st -> warned st' = warned st ->
  console st' = console st ->
  keeps st st'.
Proof.
  intros Hv Hk Hw Hd Hc. unfold keeps, tracked. rewrite Hv, Hw, Hd, Hc.
  split; [reflexivity|].
  split; [exact Hk|].
  split; [exists []; now rewrite app_nil_r|].
  split; [exists []; now rewrite app_nil_r|].
  split; [exists []; now rewrite app_nil_r | auto].
Qed.

Lemma keeps_set_live (st : EventEmitter) (event : string) (l : list nat) :
  keeps st (set_live st event l).
Proof. apply keeps_registry_step; auto. apply set_keys. Qed.

Lemma keeps_set_count (st : EventEmitter) (r : nat) (c : number) :
  keeps st (set_count st r c).
Proof.
  apply keeps_registry_step; auto. exists []. now rewrite app_nil_r.
Qed.

Lemma keeps_insert (st : EventEmitter) (event : string) (f : nat) (options : value) :
  keeps st (insert event f options st).
Proof. apply keeps_registry_step; auto. unfold insert. simpl. apply set_keys. Qed.

Lemma keeps_set_maxListeners (st : EventEmitter) (n : number) :
  keeps st (set_maxListeners st n).
Proof.
  apply keeps_registry_step; auto. exists []. now rewrite app_nil_r.
Qed.

Lemma keeps_print (st : EventEmitter) (s : string) : keeps st (print st s).
Proof.
  unfold keeps, tracked, print, push. simpl.
  split; [reflexivity|].
  split; [exists []; now rewrite app_nil_r|].
  split; [exists []; now rewrite app_nil_r|].
  split; [exists []; now rewrite app_nil_r|].
  split; [now exists [s] | auto].
Qed.

Lemma keeps_check_leak (st : EventEmitter) (event : string) :
  keeps st (check_leak event st).
Proof.
  unfold check_leak.
  destruct (gt _ _ && negb (includes (_warnings st) event)) eqn:E;
    [|apply keeps_refl].
  apply andb_prop in E. destruct E as [_ E]. apply negb_true_iff in E.
  apply includes_not_In in E.
  unfold keeps, tracked, warn, push. simpl.
  split; [reflexivity|].
  split; [exists []; now rewrite app_nil_r|].
  split; [now exists [event]|].
  split; [eexists; reflexivity|].
  split; [exists []; now rewrite app_nil_r|].
  intros [Hm Hnd]. rewrite !map_app, Hm. simpl. split; [reflexivity|].
  apply NoDup_app; auto.
  - constructor; [intros [] | constructor].
  - intros x Hx [<-|[]]. contradiction.
Qed.

Lemma call_in_keeps (p : program) (fuel : nat) :
  forall f this args, respects keeps (call_in p fuel f this args).
Proof.
  induction fuel as [|fuel IH]; intros f this args; simpl.
  - intros st st' c H. discriminate.
  - apply (run_respects keeps keeps_refl keeps_trans keeps_set_live keeps_set_count
             (fun st event f options => keeps_insert st event f options)
             keeps_check_leak keeps_print keeps_set_maxListeners _ IH).
Qed.

Lemma run_keeps (p : program) (fuel : nat) (client : code) :
  respects keeps (run (call_in p fuel) client).
Proof.
  apply (run_respects keeps keeps_refl keeps_trans keeps_set_live keeps_set_count
           (fun st event f options => keeps_insert st event f options)
           keeps_check_leak keeps_print keeps_set_maxListeners _
           (call_in_keeps p fuel)).
Qed.

(** X14: the allow-list set by the constructor is never changed: whatever
    a client and the listeners do with the methods of the emitter, the
    list of valid events is afterwards what it was. *)
Theorem allow_list_is_fixed (p : program) (fuel : nat) (client : code)
  (st st' : EventEmitter) (c : completion value) :
  run (call_in p fuel) client st = Some (st', c) ->
  _validEvents st' = _validEvents st.
Proof. intros H. apply run_keeps in H. apply H. Qed.

(** X15: over everything a client and the listeners do with an emitter
    from its construction on, through the methods of the listener code, at
    most one warning is issued per event, and the warnings issued are
    exactly those of the events remembered. *)
Theorem one_warning_per_event (p : program) (fuel : nat) (events : list string)
  (client : code) (st0 st : EventEmitter) (c : completion value) :
  constructor events = Normal st0 ->
  run (call_in p fuel) client st0 = Some (st, c) ->
  map warning_event (warned st) = map Some (_warnings st)
  /\ NoDup (map warning_event (warned st)).
Proof.
  intros Hc H. apply run_keeps in H.
  destruct H as (_ & _ & _ & _ & _ & Ht).
  assert (H0 : tracked st0).
  { unfold constructor in Hc. destruct events.
    - inversion Hc. split; [reflexivity | constructor].
    - destruct (declare _ _ _); inversion Hc. split; [reflexivity | constructor]. }
  destruct (Ht H0) as [Hm Hnd]. split; [exact Hm|].
  rewrite Hm. clear Hm. induction Hnd as [|e l Hin _ IH]; simpl; constructor.
  - intros H. apply in_map_iff in H. destruct H as (x & E & Hx).
    inversion E; subst. contradiction.
  - exact IH.
Qed.

(** X16: through [addListener], [on], [once], [removeListener],
    [removeAllListeners], [emit], [emit2] and [setMaxListeners], called by
    a client or by listeners during a call, the registry never loses an
    entry: the events that have an entry keep it, in the same order, and
    new events come behind them; what was printed and what was warned
    stays too. ([events(map)], which puts another registry in place, is
    not one of these methods.) *)
Theorem registry_entries_stay (p : program) (fuel : nat) (client : code)
  (st st' : EventEmitter) (c : completion value) :
  run (call_in p fuel) client st = Some (st', c) ->
  (exists more, map fst (_events st') = map fst (_events st) ++ more)
  /\ (exists more, warned st' = warned st ++ more)
  /\ (exists more, console st' = console st ++ more).
Proof.
  intros H. apply run_keeps in H.
  destruct H as (_ & Hk & _ & Hd & Hc & _). auto.
Qed.

(** ** Records over a whole run *)

(** X17: through [addListener], [on], [once], [removeListener],
    [removeAllListeners], [emit], [emit2] and [setMaxListeners], called by
    a client or by listeners during a call, a record keeps the callback it
    was made with, the store never loses a record, and a record that is
    not in the live array of an event does not come back into it:
    registering the same function again makes a new record. ([events(map)],
    which can put an earlier registry back, is not one of these
    methods.) *)
Theorem record_gone_for_good (p : program) (fuel : nat) (client : code)
  (st st' : EventEmitter) (c : completion value) (event : string) (r : nat) :
  run (call_in p fuel) client st = Some (st', c) ->
  r < List.length (heap st) ->
  List.length (heap st) <= List.length (heap st')
  /\ callback (lookup st' r) = callback (lookup st r)
  /\ (~ In r (live event st) -> ~ In r (live event st')).
Proof.
  intros H Hr. apply (run_evolves _ (call_in_evolves p fuel)) in H.
  destruct H as (Hlen & Hcb & _ & Hin & _).
  split; [exact Hlen|]. split; [now apply Hcb|].
  intros Hout Hin'. apply Hout. now apply Hin.
Qed.

(** X18: in every state that a client reaches from a new emitter through
    the methods of the listener code, no live array holds the same record
    twice, and every reference in a live array is to a record of the
    store. *)
Theorem live_arrays_are_sound (p : program) (fuel : nat) (events : list string)
  (client : code) (st0 st : EventEmitter) (c : completion value) (event : string) :
  constructor events = Normal st0 ->
  run (call_in p fuel) client st0 = Some (st, c) ->
  NoDup (live event st)
  /\ (forall r, In r (live event st) -> r < List.length (heap st)).
Proof.
  intros Hc H. exact (reachable_sound p fuel events client st0 st c Hc H event).
Qed.

(** ** The further properties, at work *)

Lemma thrower_quiet : quiet (call_in thrower 1).
Proof.
  intros f this args st st' c H. destruct f; simpl in H; inversion H; auto.
Qed.


(** X3, with a string in second place and a listener of [newListener]
    that prints a line: the function before the string is registered, the
    one behind it is not. *)
Lemma addListener_invalid_entry_witness :
  exists st',
    addListener (call_in thrower 1) "message"
      (VArr (map VFun [5] ++ VStr "oops" :: [VFun 7])) VUndefined watched
    = Some (st', Throw (VError InvalidListener
                          [VNum (of_nat (List.length [5])); VStr "oops"]))
    /\ map (fun r => callback (lookup st' r)) (live "message" st') = [5]
    /\ console st' = ["called"]
    /\ warned st' = [].
Proof.
  eexists. split.
  - eapply (proj1 (addListener_invalid_entry (call_in thrower 1) "message" [5]
                     (VStr "oops") [VFun 7] VUndefined watched eq_refl));
      [reflexivity | vm_compute; reflexivity].
  - split; [reflexivity|]. split; reflexivity.
Defined.

(** X4, with eleven functions at once on a new emitter. *)
Lemma addListener_warns_witness :
  exists st',
    addListener (call_in thrower 1) "message" (VArr (map VFun (repeat 1 11)))
      VUndefined fresh
    = Some (st', Normal tt)
    /\ warned st' = warned fresh ++ [leak_warning 11 "message"].
Proof.
  destruct (proj2 (addListener_warns (call_in thrower 1) "message" (repeat 1 11)
                     VUndefined fresh))
    as (st' & Hrun & _ & Hwarn & _); try reflexivity; [discriminate|].
  exists st'. split; [exact Hrun|].
  apply Hwarn; [reflexivity | intros []].
Defined.

(** X5, with twelve registrations on a new emitter. *)
Lemma on_each_warns_witness :
  exists st',
    on_each (call_in thrower 1) "message" (repeat 1 12) VUndefined fresh
    = Some (st', Normal tt)
    /\ warned st' = warned fresh ++ [leak_warning 11 "message"]
    /\ _warnings st' = _warnings fresh ++ ["message"].
Proof.
  destruct (on_each_warns (call_in thrower 1) "message" VUndefined 10 (repeat 1 12)
              ltac:(discriminate) fresh eq_refl eq_refl eq_refl eq_refl)
    as (st' & Hrun & _ & _ & Hwarn).
  exists st'. split; [exact Hrun|].
  apply (Hwarn (fun H : In "message" [] => H)). simpl. lia.
Defined.


(** X7, with a one-time record between two lasting ones: the three
    listeners print their line, and the one-time record is gone. *)
Lemma emit_bookkeeping_witness :
  exists st',
    emit (call_in thrower 1) "message" VUndefined VUndefined
      (registered "message" [forever 1; {| callback := 1; count := one |}; forever 1])
    = Some (st', Normal (VArr [VUndefined; VUndefined; VUndefined]))
    /\ console st' = ["called"; "called"; "called"]
    /\ live "message" st' = [0; 2].
Proof.
  eexists. split; [vm_compute; reflexivity|]. split; [reflexivity|].
  assert (Hs : sound (registered "message"
                        [forever 1; {| callback := 1; count := one |}; forever 1])).
  { apply well_formed_sound. reflexivity. }
  destruct (emit_bookkeeping (call_in thrower 1) thrower_quiet "message"
              VUndefined VUndefined _ _ _ [0; 1; 2] _ Hs eq_refl eq_refl)
    as (_ & H & _).
  destruct (H _ eq_refl) as (_ & _ & Hl).
  etransitivity; [exact Hl | reflexivity].
Defined.

Lemma thrower_unmarked : unmarked "ran" (call_in thrower 1).
Proof.
  intros f this args st st' c H. destruct f; simpl in H; inversion H; subst;
    [reflexivity|].
  unfold marks, print, push. simpl. rewrite count_occ_app. simpl.
  destruct (string_dec "called" "ran"); [discriminate | lia].
Qed.

(** X8, with a count of two and three calls of [emit]: the listener has
    left two marks. *)
Lemma count_is_number_of_calls_witness :
  exists st',
    emit_repeatedly (tallied "ran" 1 (call_in thrower 1)) "message"
      VUndefined VUndefined 3
      (registered "message" [{| callback := 1; count := of_nat 2 |}])
    = Some (st', Normal tt)
    /\ marks "ran" st'
       = marks "ran" (registered "message" [{| callback := 1; count := of_nat 2 |}])
         + Nat.min 3 2
    /\ console st' = ["ran"; "called"; "ran"; "called"].
Proof.
  eexists. split; [vm_compute; reflexivity|]. split; [|reflexivity].
  assert (Hs : sound (registered "message" [{| callback := 1; count := of_nat 2 |}])).
  { apply well_formed_sound. reflexivity. }
  refine (proj1 (count_is_number_of_calls (call_in thrower 1) "ran" 1
                   thrower_quiet thrower_unmarked "message" VUndefined VUndefined
                   0 3 2 _ _ _ Hs _ eq_refl _ _ _ eq_refl eq_refl)).
  - discriminate.
  - now left.
  - intros x [<-|[]] Hne. congruence.
  - lia.
  - vm_compute. discriminate.
Defined.

(** X9, with two pending entries fulfilled first slot first. *)
Lemma emit2_all_fulfilled_witness :
  exists st1 a,
    emit2 (call_in two_promises 1) "message" VUndefined VUndefined
      (registered "message" [forever 0; forever 1])
    = Some (st1, Normal (Async a))
    /\ exists a',
        settle_all (call_in two_promises 1)
          (fulfilments (fun p => VNum (of_nat p)) [0; 1]) a st1
        = Some (st1, Normal a')
        /\ results a'
           = map (fun v => match v with
                           | VPromise p => VNum (of_nat p)
                           | _ => v
                           end) (results a)
        /\ waiting a' = []
        /\ returned a' = Resolved (results a').
Proof.
  do 2 eexists. split; [vm_compute; reflexivity|].
  eapply (emit2_all_fulfilled (call_in two_promises 1) "message" VUndefined
            VUndefined (fun p => VNum (of_nat p)) [0; 1]
            (registered "message" [forever 0; forever 1])).
  - vm_compute. reflexivity.
  - simpl. intros p [H|[H|[]]]; inversion H; simpl; auto.
Defined.

(** X10, with two pending entries rejected last slot first under [null]. *)
Lemma emit2_settles_backwards_witness :
  exists st1 a,
    emit2 (call_in two_promises 1) "message" VUndefined VNull
      (registered "message" [forever 0; forever 1])
    = Some (st1, Normal (Async a))
    /\ exists a',
        settle_all (call_in two_promises 1)
          (settlements (fun _ => Reject (VStr "e")) (waiting a)) a st1
        = Some (st1, Normal a')
        /\ results a'
           = flat_map (slot_after VNull (fun _ => Reject (VStr "e"))) (results a)
        /\ waiting a' = []
        /\ returned a' = Resolved (results a').
Proof.
  do 2 eexists. split; [vm_compute; reflexivity|].
  eapply (emit2_settles_backwards (call_in two_promises 1) "message" VUndefined
            VNull (fun _ => Reject (VStr "e"))
            (registered "message" [forever 0; forever 1])).
  - now left.
  - vm_compute. reflexivity.
  - simpl. constructor; [intros [H|[]]; discriminate|].
    constructor; [intros [] | constructor].
Defined.

(** X11, on a callback registered twice. *)
Lemma removeAllListeners_empties_witness :
  exists st',
    removeAllListeners (call_in thrower 1) "message"
      (registered "message" [forever 1; forever 1])
    = Some (st', Normal tt)
    /\ live "message" st' = []
    /\ heap st' = heap (registered "message" [forever 1; forever 1])
    /\ (forall other, other <> "message" ->
                      live other st'
                      = live other (registered "message" [forever 1; forever 1])).
Proof.
  apply (removeAllListeners_empties (call_in thrower 1) "message"
           (registered "message" [forever 1; forever 1])); reflexivity.
Defined.

(** X12: given the second of two records with the same callback,
    [removeListener] removes the first. *)
Lemma removeListener_by_record_witness :
  removeListener (call_in thrower 1) "message" (VListener 1)
    (registered "message" [forever 1; forever 1])
  = (_ <- emit (call_in thrower 1) "removeListener"
            (VArr [VStr "message";
                   VFun (callback
                           (lookup (registered "message" [forever 1; forever 1]) 1))])
            VUndefined;;
     ret tt)
      (set_live (registered "message" [forever 1; forever 1]) "message" ([] ++ [1])).
Proof.
  apply (removeListener_by_record (call_in thrower 1) "message" 1
           (registered "message" [forever 1; forever 1])
           (registered "message" [forever 1; forever 1]) [0; 1] [] [1] 0);
    try reflexivity.
  intros x [].
Defined.

(** X14, for the client [session] on an emitter that allows [message]. *)
Lemma allow_list_is_fixed_witness :
  exists st' c,
    run (call_in thrower 1) session (set_validEvents fresh (reserved ++ ["message"]))
    = Some (st', c)
    /\ _validEvents st' = reserved ++ ["message"].
Proof.
  do 2 eexists. split; [vm_compute; reflexivity|].
  exact (allow_list_is_fixed thrower 1 session
           (set_validEvents fresh (reserved ++ ["message"])) _ _ eq_refl).
Defined.

(** X15, for the client [crowd] on a new emitter: twelve listeners, one
    warning. *)
Lemma one_warning_per_event_witness :
  exists st c,
    run (call_in thrower 1) crowd fresh = Some (st, c)
    /\ List.length (live "message" st) = 12
    /\ warned st = [leak_warning 11 "message"]
    /\ map warning_event (warned st) = map Some (_warnings st)
    /\ NoDup (map warning_event (warned st)).
Proof.
  do 2 eexists. split; [vm_compute; reflexivity|].
  split; [reflexivity|]. split; [reflexivity|].
  eapply (one_warning_per_event thrower 1 [] crowd fresh _ _ eq_refl).
  vm_compute. reflexivity.
Defined.

(** X16, for the client [session] on an emitter with two events in its
    registry: they are still there, a third one behind them. *)
Lemma registry_entries_stay_witness :
  exists st' c,
    run (call_in thrower 1) session two_events = Some (st', c)
    /\ map fst (_events st') = ["message"; "exit"; "newListener"; "removeListener"]
    /\ (exists more, map fst (_events st') = map fst (_events two_events) ++ more)
    /\ (exists more, warned st' = warned two_events ++ more)
    /\ (exists more, console st' = console two_events ++ more).
Proof.
  do 2 eexists. split; [vm_compute; reflexivity|]. split; [reflexivity|].
  eapply (registry_entries_stay thrower 1 session two_events).
  vm_compute. reflexivity.
Defined.

(** X17, for a record of [message] that [removeListener] takes out of
    the array, and the client [rejoin], which then registers the same
    function again: the array holds a record again, and it is a new one. *)
Lemma record_gone_for_good_witness :
  exists st c0 st' c,
    run (call_in thrower 1) leave (registered "message" [forever 1]) = Some (st, c0)
    /\ run (call_in thrower 1) rejoin st = Some (st', c)
    /\ live "message" st' = [1]
    /\ ~ In 0 (live "message" st)
    /\ List.length (heap st) <= List.length (heap st')
    /\ callback (lookup st' 0) = callback (lookup st 0)
    /\ ~ In 0 (live "message" st').
Proof.
  do 4 eexists. split; [vm_compute; reflexivity|].
  split; [vm_compute; reflexivity|]. split; [reflexivity|].
  split; [vm_compute; intros H; exact H|].
  lazymatch goal with
  | |- _ <= List.length (heap ?s') /\ callback _ = callback (lookup ?s 0) /\ _ =>
      destruct (record_gone_for_good thrower 1 rejoin s s' (Normal VUndefined)
                  "message" 0) as (Hlen & Hcb & Hout)
  end.
  - vm_compute. reflexivity.
  - simpl. lia.
  - split; [exact Hlen|]. split; [exact Hcb|]. apply Hout.
    vm_compute. intros H. exact H.
Defined.

(** X18, for the client [crowd] on a new emitter: twelve records in the
    live array. *)
Lemma live_arrays_are_sound_witness :
  exists st c,
    run (call_in thrower 1) crowd fresh = Some (st, c)
    /\ live "message" st = seq 0 12
    /\ NoDup (live "message" st)
    /\ (forall r, In r (live "message" st) -> r < List.length (heap st)).
Proof.
  do 2 eexists. split; [vm_compute; reflexivity|]. split; [reflexivity|].
  eapply (live_arrays_are_sound thrower 1 [] crowd fresh _ _ "message" eq_refl).
  vm_compute. reflexivity.
Defined.

